(** * scripts/fetch_legacy_site.py: a shallow embedding and its properties

    The script crawls a video site, pulls the fields of each detail page out
    of the HTML with ordered lists of regular expressions, resolves the
    episodes from the media URLs it finds, and renders the records as an
    import text.  This file embeds [extract_author], [extract_from_page] and
    [generate_import_text] (without the sleeps and the prints) and proves
    the properties the specification states about them.

    Conventions.
    - A Python [str] is a list of Unicode code points ([list N]): [len],
      slicing, comparison and the [re] module all work on code points.
    - A Python [int] is a [Z].
    - A call that can raise returns an [outcome]: the value, or the text of
      the exception.
    - [re] patterns are terms of the type [re] below, run by a backtracking
      matcher that tries alternatives in the order Python's engine does.
    - What the interpreter decides and the script does not (the string hash,
      the iteration order of a set) is a parameter of type [Interp].
    - What the network answers is a parameter of type [nat -> response],
      from the number of the attempt to the answer. *)

From Stdlib Require Import String Ascii DecimalString.
From Stdlib Require Import ZArith NArith Bool List Lia Permutation Sorted.
Import ListNotations.

Local Open Scope list_scope.

(** ** Python strings *)

(** A string is the list of its code points. *)
Definition pystr : Type := list N.

(** The script is a UTF-8 file: a literal of the source is the decoding of its
    bytes.  [acc] is the value read so far of a multi-byte character and
    [need] the number of continuation bytes still expected. *)
Fixpoint utf8_decode (s : string) (acc : N) (need : nat) : pystr :=
  match s with
  | EmptyString => []
  | String a s' =>
      let b := N_of_ascii a in
      match need with
      | O =>
          if (b <? 128)%N then b :: utf8_decode s' 0%N 0
          else if (b <? 224)%N then utf8_decode s' (b - 192)%N 1
          else if (b <? 240)%N then utf8_decode s' (b - 224)%N 2
          else utf8_decode s' (b - 240)%N 3
      | S O => (acc * 64 + (b - 128))%N :: utf8_decode s' 0%N 0
      | S n => utf8_decode s' (acc * 64 + (b - 128))%N n
      end
  end.

(** [U "..."] is the Python string written "..." in the source. *)
Definition U (s : string) : pystr := utf8_decode s 0%N 0.

(** The two quote characters, which the patterns name often. *)
Definition dquote : N := 34%N.
Definition squote : N := 39%N.
Definition newline : N := 10%N.

Definition pystr_eqb (a b : pystr) : bool :=
  if list_eq_dec N.eq_dec a b then true else false.

(** [a < b] on strings: lexicographic on code points. *)
Fixpoint pystr_ltb (a b : pystr) : bool :=
  match a, b with
  | [], [] => false
  | [], _ :: _ => true
  | _ :: _, [] => false
  | x :: a', y :: b' =>
      if (x <? y)%N then true
      else if (y <? x)%N then false
      else pystr_ltb a' b'
  end.

(** [str.isspace] of one character, which is also the class [\s] of [re]:
    the white-space code points of the Unicode database. *)
Definition isspace (c : N) : bool :=
  ((9 <=? c) && (c <=? 13) || (28 <=? c) && (c <=? 32)
   || (c =? 133) || (c =? 160) || (c =? 5760)
   || (8192 <=? c) && (c <=? 8202)
   || (c =? 8232) || (c =? 8233) || (c =? 8239) || (c =? 8287)
   || (c =? 12288))%N.

Fixpoint lstrip (s : pystr) : pystr :=
  match s with
  | c :: s' => if isspace c then lstrip s' else s
  | [] => []
  end.

Definition rstrip (s : pystr) : pystr := rev (lstrip (rev s)).

(** [s.strip()] *)
Definition strip (s : pystr) : pystr := rstrip (lstrip s).

(** The decimal digits of the Unicode database (category Nd, Unicode 15.0):
    each entry is the code point of a digit zero, followed by its nine
    successors.  The class [\d] of [re] and [int()] both read this table. *)
Definition decimal_zeros : list N :=
  [ 0x0030; 0x0660; 0x06F0; 0x07C0; 0x0966; 0x09E6; 0x0A66; 0x0AE6; 0x0B66;
    0x0BE6; 0x0C66; 0x0CE6; 0x0D66; 0x0DE6; 0x0E50; 0x0ED0; 0x0F20; 0x1040;
    0x1090; 0x17E0; 0x1810; 0x1946; 0x19D0; 0x1A80; 0x1A90; 0x1B50; 0x1BB0;
    0x1C40; 0x1C50; 0xA620; 0xA8D0; 0xA900; 0xA9D0; 0xA9F0; 0xAA50; 0xABF0;
    0xFF10; 0x104A0; 0x10D30; 0x11066; 0x110F0; 0x11136; 0x111D0; 0x112F0;
    0x11450; 0x114D0; 0x11650; 0x116C0; 0x11730; 0x118E0; 0x11950; 0x11C50;
    0x11D50; 0x11DA0; 0x11F50; 0x16A60; 0x16AC0; 0x16B50; 0x1D7CE; 0x1D7D8;
    0x1D7E2; 0x1D7EC; 0x1D7F6; 0x1E140; 0x1E2F0; 0x1E4F0; 0x1E950; 0x1FBF0
  ]%N.

Fixpoint decimal_in (zeros : list N) (c : N) : option N :=
  match zeros with
  | [] => None
  | z :: zs =>
      if ((z <=? c) && (c <? z + 10))%N then Some (c - z)%N
      else decimal_in zs c
  end.

(** The value of a decimal digit, [None] for any other character. *)
Definition decimal_value (c : N) : option N := decimal_in decimal_zeros c.

Definition isdecimal (c : N) : bool :=
  match decimal_value c with Some _ => true | None => false end.

(** The value of a string of decimal digits: what [int(s)] returns when it
    returns.  [int] itself, which raises on a string of too many digits, is
    [py_int] below. *)
Definition int_of_digits (s : pystr) : Z :=
  fold_left
    (fun acc c =>
       (acc * 10 + match decimal_value c with
                   | Some d => Z.of_N d
                   | None => 0
                   end)%Z)
    s 0%Z.

Definition ascii_codes (s : string) : pystr :=
  map N_of_ascii (list_ascii_of_string s).

(** [str(z)] for an integer: its decimal writing, with a minus sign. *)
Definition str_of_int (z : Z) : pystr :=
  ascii_codes (NilZero.string_of_int (Z.to_int z)).

(** [sep.join(parts)] *)
Fixpoint join (sep : pystr) (parts : list pystr) : pystr :=
  match parts with
  | [] => []
  | [p] => p
  | p :: ps => p ++ sep ++ join sep ps
  end.

(** Truth value of a string or of a list: not empty. *)
Definition truthy {A : Type} (l : list A) : bool :=
  match l with [] => false | _ :: _ => true end.

(** [sorted(l, key)] and [l.sort(key)]: a stable sort that only asks [<] of
    the keys.  An element goes in front of the first element of the sorted
    tail whose key is not smaller than its own. *)
Fixpoint insert_by {A K : Type} (ltb : K -> K -> bool) (key : A -> K)
    (x : A) (l : list A) : list A :=
  match l with
  | [] => [x]
  | y :: l' =>
      if ltb (key y) (key x) then y :: insert_by ltb key x l'
      else x :: l
  end.

Definition sort_by {A K : Type} (ltb : K -> K -> bool) (key : A -> K)
    (l : list A) : list A :=
  fold_right (insert_by ltb key) [] l.

(** In a list sorted by [ltb] on the keys, [x] may stand in front of [y]:
    the key of [y] is not smaller. *)
Definition key_le {A K : Type} (ltb : K -> K -> bool) (key : A -> K)
    (x y : A) : Prop :=
  ltb (key y) (key x) = false.

(** ** Regular expressions

    The patterns of the script use literals, character classes, greedy and
    lazy repetition of a class, an optional literal, alternation and [$].
    Every repetition is over a one-character class, so [Star] takes the
    class. *)
Inductive re : Type :=
  | Eps                                     (* the empty pattern *)
  | Chr (p : N -> bool)                     (* one character of a class *)
  | Cat (r1 r2 : re)                        (* r1 r2 *)
  | Alt (r1 r2 : re)                        (* r1|r2 *)
  | Star (greedy : bool) (p : N -> bool)    (* p* and p*? *)
  | Eos.                                    (* $ *)

(** [p*] in front of [k]: take as many characters as possible, give them
    back one by one while [k] fails. *)
Fixpoint star_greedy {A : Type} (p : N -> bool) (k : pystr -> option A)
    (s : pystr) : option A :=
  match s with
  | c :: s' =>
      if p c then
        match star_greedy p k s' with
        | Some x => Some x
        | None => k s
        end
      else k s
  | [] => k s
  end.

(** [p*?] in front of [k]: take a further character only when [k] fails. *)
Fixpoint star_lazy {A : Type} (p : N -> bool) (k : pystr -> option A)
    (s : pystr) : option A :=
  match k s with
  | Some x => Some x
  | None =>
      match s with
      | c :: s' => if p c then star_lazy p k s' else None
      | [] => None
      end
  end.

(** [rmatch r k s] matches [r] at the head of [s] and hands the rest of the
    text to the continuation [k]; when [k] fails the matcher backtracks into
    [r].  The first success, in the order of a backtracking engine, is the
    result.  [$] holds at the end of the text and in front of a newline that
    ends the text. *)
Fixpoint rmatch {A : Type} (r : re) (k : pystr -> option A) (s : pystr)
    : option A :=
  match r with
  | Eps => k s
  | Chr p =>
      match s with
      | c :: s' => if p c then k s' else None
      | [] => None
      end
  | Cat r1 r2 => rmatch r1 (rmatch r2 k) s
  | Alt r1 r2 =>
      match rmatch r1 k s with
      | Some x => Some x
      | None => rmatch r2 k s
      end
  | Star true p => star_greedy p k s
  | Star false p => star_lazy p k s
  | Eos =>
      match s with
      | [] => k s
      | [c] => if (c =? newline)%N then k s else None
      | _ => None
      end
  end.

(** Every capturing pattern of the script is [before(group)after], with one
    group. *)
Record pattern : Type := Pattern { before : re; group : re; after : re }.

(** The match of a pattern at the head of [s]: the text of group 1 and the
    text that follows the whole match. *)
Definition match_at (p : pattern) (s : pystr) : option (pystr * pystr) :=
  rmatch (before p)
    (fun s1 =>
       rmatch (group p)
         (fun s2 =>
            rmatch (after p)
              (fun s3 => Some (firstn (length s1 - length s2) s1, s3))
              s2)
         s1)
    s.

(** [re.search(p, s)]: the match at the leftmost position that has one. *)
Fixpoint re_search (p : pattern) (s : pystr) : option (pystr * pystr) :=
  match match_at p s with
  | Some m => Some m
  | None =>
      match s with
      | [] => None
      | _ :: s' => re_search p s'
      end
  end.

(** [m.group(1)] of [re.search(p, s)] *)
Definition search_group (p : pattern) (s : pystr) : option pystr :=
  option_map fst (re_search p s).

(** [[m.group(1) for m in re.finditer(p, s)]]: the matches from left to
    right, each search starting where the previous match ended.  [skip] is
    the number of characters of the previous match still to walk over.  No
    pattern the script iterates can match the empty string (see
    [iterated_patterns_consume]). *)
Fixpoint finditer_from (p : pattern) (s : pystr) (skip : nat) : list pystr :=
  match s with
  | [] =>
      match skip, match_at p [] with
      | O, Some (g, _) => [g]
      | _, _ => []
      end
  | _ :: s' =>
      match skip with
      | S n => finditer_from p s' n
      | O =>
          match match_at p s with
          | Some (g, rest) =>
              g :: finditer_from p s' (length s - length rest - 1)
          | None => finditer_from p s' 0
          end
      end
  end.

Definition re_finditer (p : pattern) (s : pystr) : list pystr :=
  finditer_from p s 0.

(** [re.sub(r, '', s)] for a pattern without group: every match, from left
    to right, is cut out.  No pattern the script hands to [re.sub] can match
    the empty string (see [iterated_patterns_consume]). *)
Fixpoint sub_from (r : re) (s : pystr) (skip : nat) : pystr :=
  match s with
  | [] => []
  | c :: s' =>
      match skip with
      | S n => sub_from r s' n
      | O =>
          match rmatch r (fun rest => Some rest) s with
          | Some rest =>
              match length s - length rest with
              | O => c :: sub_from r s' 0
              | S n => sub_from r s' n
              end
          | None => c :: sub_from r s' 0
          end
      end
  end.

Definition re_sub_empty (r : re) (s : pystr) : pystr := sub_from r s 0.

(** ** Character classes and pattern combinators *)

Definition lit (c : N) : N -> bool := N.eqb c.
Definition oneof (l : pystr) (c : N) : bool := existsb (N.eqb c) l.
Definition noneof (l : pystr) (c : N) : bool := negb (oneof l c).

(** [[\s\S]] *)
Definition anychar (c : N) : bool := true.

(** [.] (no DOTALL flag anywhere in the script) *)
Definition dot (c : N) : bool := negb (c =? newline)%N.

(** Under [re.I] a letter of a pattern matches the characters whose lower
    case it is, and the characters the engine declares equivalent to it.  For
    the ASCII letters these are the two cases of the letter and four more
    characters: U+0130 and U+0131 for i, U+017F for s, U+212A for k. *)
Definition fold_case (c : N) : N :=
  if ((65 <=? c) && (c <=? 90))%N then (c + 32)%N
  else if ((c =? 0x130) || (c =? 0x131))%N then 105%N
  else if (c =? 0x17F)%N then 115%N
  else if (c =? 0x212A)%N then 107%N
  else c.

Definition lit_i (c : N) : N -> bool :=
  fun x => (fold_case x =? fold_case c)%N.

(** A literal text, case-sensitive and under [re.I]. *)
Definition txt (s : pystr) : re :=
  fold_right (fun c r => Cat (Chr (lit c)) r) Eps s.
Definition txt_i (s : pystr) : re :=
  fold_right (fun c r => Cat (Chr (lit_i c)) r) Eps s.

Definition many (p : N -> bool) : re := Star true p.            (* p*  *)
Definition many1 (p : N -> bool) : re := Cat (Chr p) (Star true p).   (* p+  *)
Definition few (p : N -> bool) : re := Star false p.            (* p*? *)
Definition few1 (p : N -> bool) : re := Cat (Chr p) (Star false p).   (* p+? *)
Definition maybe (r : re) : re := Alt r Eps.                    (* r?  *)

(** The patterns are written as the list of their pieces. *)
Definition seq_re (rs : list re) : re := fold_right Cat Eps rs.

Fixpoint alts (rs : list re) : re :=
  match rs with
  | [] => Chr (fun _ => false)
  | [r] => r
  | r :: rs' => Alt r (alts rs')
  end.

Local Open Scope string_scope.
Local Open Scope list_scope.

(** ** The patterns of the script *)

(** [extract_author]: the four patterns, in the order of the source (no
    flag). *)
Definition category_marker : list re :=
  [txt (U "【"); many1 (noneof (U "】")); txt (U "】"); many isspace].

Definition ascii_name_char (c : N) : bool :=
  ((65 <=? c) && (c <=? 90) || (97 <=? c) && (c <=? 122)
   || (48 <=? c) && (c <=? 57) || (c =? 95) || (c =? 45))%N
  || isspace c.

Definition author_patterns : list pattern :=
  [ (* 【[^】]+】\s*([^「（【\n]+?)\s*[「（] *)
    Pattern (seq_re category_marker)
            (few1 (noneof (U "「（【" ++ [newline])))
            (seq_re [many isspace; Chr (oneof (U "「（"))]);
    (* 【[^】]+】\s*([^-–\n]+?)\s*[-–]\s*第?\d *)
    Pattern (seq_re category_marker)
            (few1 (noneof (U "-–" ++ [newline])))
            (seq_re [many isspace; Chr (oneof (U "-–")); many isspace;
                     maybe (txt (U "第")); Chr isdecimal]);
    (* 【[^】]+】\s*([A-Za-z0-9_\-\s]+?)(?:\s*$|\s*[-–]) *)
    Pattern (seq_re category_marker)
            (few1 ascii_name_char)
            (Alt (seq_re [many isspace; Eos])
                 (seq_re [many isspace; Chr (oneof (U "-–"))]));
    (* 【[^】]+】\s*([^\s「【\-（]+) *)
    Pattern (seq_re category_marker)
            (many1 (fun c => negb (isspace c || oneof (U "「【-（") c)))
            Eps ].

(** [/archives/(\d+)\.html] (no flag) *)
Definition archive_pattern : pattern :=
  Pattern (txt (U "/archives/")) (many1 isdecimal) (txt (U ".html")).

(** A tag attribute that contains a word, as the patterns of the page write
    it: [name\x22[^\x22]*word[^\x22]*\x22] under [re.I] ([name] ends with the
    equals sign; here and below [\x22] stands for the double quote). *)
Definition attr_containing (name word : string) : list re :=
  [txt_i (U name); txt_i [dquote]; many (noneof [dquote]); txt_i (U word);
   many (noneof [dquote]); txt_i [dquote]].

(** [<meta[^>]*key=\x22value\x22[^>]*content=\x22([^\x22]+)\x22] under [re.I] *)
Definition meta_pattern (key value : string) : pattern :=
  Pattern (seq_re [txt_i (U "<meta"); many (noneof (U ">"));
                   txt_i (U key); txt_i [dquote]; txt_i (U value);
                   txt_i [dquote]; many (noneof (U ">"));
                   txt_i (U "content="); txt_i [dquote]])
          (many1 (noneof [dquote]))
          (txt_i [dquote]).

Definition title_patterns : list pattern :=
  [ (* <h1[^>]*class=\x22[^\x22]*article-title[^\x22]*\x22[^>]*>([^<]+)</h1> *)
    Pattern (seq_re ([txt_i (U "<h1"); many (noneof (U ">"))]
                     ++ attr_containing "class=" "article-title"
                     ++ [many (noneof (U ">")); txt_i (U ">")]))
            (many1 (noneof (U "<")))
            (txt_i (U "</h1>"));
    meta_pattern "property=" "og:title";
    (* <title>([^<]+)</title> *)
    Pattern (txt_i (U "<title>")) (many1 (noneof (U "<")))
            (txt_i (U "</title>")) ].

(** [\s*[-|]\s*咪咔映阁.*$] (no flag), the site's name at the end of a title *)
Definition brand_suffix : re :=
  seq_re [many isspace; Chr (oneof (U "-|")); many isspace;
          txt (U "咪咔映阁"); many dot; Eos].

(** [<div[^>]*class=\x22[^\x22]*word[^\x22]*\x22[^>]*>([\s\S]*?)</div>] under [re.I] *)
Definition div_pattern (word : string) : pattern :=
  Pattern (seq_re ([txt_i (U "<div"); many (noneof (U ">"))]
                   ++ attr_containing "class=" word
                   ++ [many (noneof (U ">")); txt_i (U ">")]))
          (few anychar)
          (txt_i (U "</div>")).

Definition desc_patterns : list pattern :=
  [ meta_pattern "name=" "description";
    meta_pattern "property=" "og:description";
    div_pattern "joe_detail__abstract" ].

(** [<[^>]+>] (no flag), a markup tag *)
Definition markup_tag : re :=
  seq_re [txt (U "<"); many1 (noneof (U ">")); txt (U ">")].

Definition article_tags_pattern : pattern := div_pattern "article-tags".

(** [<a[^>]*>#\s*([^<]+)</a>] under [re.I] *)
Definition tag_pattern : pattern :=
  Pattern (seq_re [txt_i (U "<a"); many (noneof (U ">")); txt_i (U ">#");
                   many isspace])
          (many1 (noneof (U "<")))
          (txt_i (U "</a>")).

Definition cover_patterns : list pattern :=
  [ meta_pattern "property=" "og:image";
    meta_pattern "name=" "twitter:image";
    (* <img[^>]*class=\x22[^\x22]*joe_detail__thumb[^\x22]*\x22[^>]*src=\x22([^\x22]+)\x22 *)
    Pattern (seq_re ([txt_i (U "<img"); many (noneof (U ">"))]
                     ++ attr_containing "class=" "joe_detail__thumb"
                     ++ [many (noneof (U ">")); txt_i (U "src=");
                         txt_i [dquote]]))
            (many1 (noneof [dquote]))
            (txt_i [dquote]) ].

(** [(?:mp4|mkv|webm|avi|mov|m4v|flv|wmv|ts|m3u8)] under [re.I] *)
Definition video_extensions : re :=
  alts (map (fun e => txt_i (U e))
            ["mp4"; "mkv"; "webm"; "avi"; "mov"; "m4v"; "flv"; "wmv"; "ts";
             "m3u8"]).

Definition quote_char : N -> bool := oneof [dquote; squote].
Definition not_quote : N -> bool := noneof [dquote; squote].

(** [https?://] under [re.I] *)
Definition scheme : list re :=
  [txt_i (U "http"); maybe (Chr (lit_i 115%N)); txt_i (U "://")].

Definition video_patterns : list pattern :=
  [ (* [\x22\'](https?://cdn\.mikiacg\.vip/[^\x22\']+\.EXT)[\x22\'] *)
    Pattern (Chr quote_char)
            (seq_re (scheme ++ [txt_i (U "cdn.mikiacg.vip/"); many1 not_quote;
                                txt_i (U "."); video_extensions]))
            (Chr quote_char);
    (* [\x22\'](https?://[^\x22\']*mikiacg[^\x22\']*\/[^\x22\']+\.EXT)[\x22\'] *)
    Pattern (Chr quote_char)
            (seq_re (scheme ++ [many not_quote; txt_i (U "mikiacg");
                                many not_quote; txt_i (U "/"); many1 not_quote;
                                txt_i (U "."); video_extensions]))
            (Chr quote_char);
    (* url\s*:\s*[\x22\'](https?://[^\x22\']+\.EXT)[\x22\'] *)
    Pattern (seq_re [txt_i (U "url"); many isspace; txt_i (U ":");
                     many isspace; Chr quote_char])
            (seq_re (scheme ++ [many1 not_quote; txt_i (U ".");
                                video_extensions]))
            (Chr quote_char) ].

(** [/(\d+)\.EXT$] under [re.I], the episode number of a media URL *)
Definition num_pattern : pattern :=
  Pattern (txt_i (U "/")) (many1 isdecimal)
          (seq_re [txt_i (U "."); video_extensions; Eos]).

(** ** The data model

    The two dataclasses share field names; the fields of [Episode] carry the
    prefix [ep_] and those of [VideoInfo] the prefix [v_]. *)

Record Episode : Type := mkEpisode {
  ep_num : Z;
  ep_title : pystr;
  ep_video_url : pystr
}.

Record VideoInfo : Type := mkVideoInfo {
  v_id : pystr;
  v_title : pystr;
  v_author : pystr;
  v_description : pystr;
  v_cover_url : pystr;
  v_video_url : pystr;
  v_tags : list pystr;
  v_episodes : list Episode;
  v_page_url : pystr;
  v_error : option pystr
}.

(** The sentinel author, [未分类]. *)
Definition uncategorized : pystr := U "未分类".

(** ** What the interpreter decides

    [hash] of a string is salted per process, and the order in which a set of
    strings is iterated follows from the hashes.  [set_list l] is [list(s)]
    for the set [s] built by adding the elements of [l] one after the other:
    some arrangement, without repetition, of the elements of [l]. *)
Record Interp : Type := mkInterp {
  py_hash : pystr -> Z;
  set_list : list pystr -> list pystr;
  set_list_NoDup : forall l, NoDup (set_list l);
  set_list_In : forall l x, In x (set_list l) <-> In x l
}.

(** ** What the network answers: a body, or an exception with its text. *)
Inductive response : Type :=
  | Body (html : pystr)
  | Raised (msg : pystr).

(** ** [extract_author] *)

(** The loop over the patterns: the first pattern that matches with a group
    of which the stripped text has 2 to 50 characters gives the author. *)
Fixpoint first_author (patterns : list pattern) (title : pystr) : pystr :=
  match patterns with
  | [] => uncategorized
  | p :: rest =>
      match search_group p title with
      | Some g =>
          let author := strip g in
          if (2 <=? length author)%nat && (length author <=? 50)%nat
          then author
          else first_author rest title
      | None => first_author rest title
      end
  end.

Definition extract_author (title : pystr) : pystr :=
  first_author author_patterns title.

(** ** [extract_from_page] *)

(** [for pattern in patterns: m = re.search(pattern, html, re.I); if m: ...
    break]: group 1 of the first pattern that matches. *)
Fixpoint first_match (patterns : list pattern) (html : pystr)
    : option pystr :=
  match patterns with
  | [] => None
  | p :: rest =>
      match search_group p html with
      | Some g => Some g
      | None => first_match rest html
      end
  end.

Definition extract_title (html : pystr) : pystr :=
  match first_match title_patterns html with
  | Some g => re_sub_empty brand_suffix (strip g)
  | None => []
  end.

Definition extract_description (html : pystr) : pystr :=
  match first_match desc_patterns html with
  | Some g => strip (re_sub_empty markup_tag g)
  | None => []
  end.

Definition add_tag (tags : list pystr) (g : pystr) : list pystr :=
  let tag := strip g in
  if truthy tag && negb (existsb (pystr_eqb tag) tags) then tags ++ [tag]
  else tags.

Definition extract_tags (html : pystr) : list pystr :=
  match search_group article_tags_pattern html with
  | Some tag_content =>
      fold_left add_tag (re_finditer tag_pattern tag_content) []
  | None => []
  end.

Definition extract_cover (html : pystr) : pystr :=
  match first_match cover_patterns html with
  | Some g => g
  | None => []
  end.

(** The URLs added to the set [video_urls], in the order of the [add]
    calls: pattern after pattern, match after match. *)
Definition found_video_urls (html : pystr) : list pystr :=
  flat_map (fun p => re_finditer p html) video_patterns.

(** What a call that can raise gives: its value, or an exception with its
    text ([str(e)]). *)
Inductive outcome (A : Type) : Type :=
  | Returned (a : A)
  | Raises (msg : pystr).

Arguments Returned {A} a.
Arguments Raises {A} msg.

(** The interpreter's limit on the number of digits of a string that
    [int] converts (its default, [sys.int_info.default_max_str_digits]). *)
Definition int_max_str_digits : nat := 4300.

(** The text of the [ValueError] that [int] raises on a string of [digits]
    digits, more than the limit. *)
Definition int_limit_text (digits : nat) : pystr :=
  U "Exceeds the limit (4300 digits) for integer string conversion: value has "
  ++ str_of_int (Z.of_nat digits)
  ++ U " digits; use sys.set_int_max_str_digits() to increase the limit".

(** [int(s)] for a string of decimal digits, the only strings the script
    converts (group 1 of a [\d+] capture, see [match_at_many1]): a
    [ValueError] when the string has more digits than the limit, else its
    value. *)
Definition py_int (s : pystr) : outcome Z :=
  if (int_max_str_digits <? length s)%nat
  then Raises (int_limit_text (length s))
  else Returned (int_of_digits s).

(** [第{num}集] *)
Definition episode_title (num : Z) : pystr :=
  U "第" ++ str_of_int num ++ U "集".

(** One turn of the loop over [unique_video_urls], as the source has it:
    the search, the call of [int], which can raise, and the test. *)
Definition episode_turn (episodes : list Episode) (url : pystr)
    : outcome (list Episode) :=
  match search_group num_pattern url with
  | Some g =>
      match py_int g with
      | Returned num =>
          Returned
            (if (num >? 0)%Z
                && negb (existsb (fun e => (ep_num e =? num)%Z) episodes)
             then episodes ++ [mkEpisode num (episode_title num) url]
             else episodes)
      | Raises msg => Raises msg
      end
  | None => Returned episodes
  end.

(** The loop: an exception raised in a turn ends it. *)
Fixpoint episode_loop (urls : list pystr) (episodes : list Episode)
    : outcome (list Episode) :=
  match urls with
  | [] => Returned episodes
  | url :: rest =>
      match episode_turn episodes url with
      | Returned episodes' => episode_loop rest episodes'
      | Raises msg => Raises msg
      end
  end.

(** The loop, the single episode when it found none, and the sort. *)
Definition try_resolve_episodes (unique_video_urls : list pystr)
    : outcome (list Episode) :=
  match episode_loop unique_video_urls [] with
  | Returned episodes =>
      let episodes :=
        match episodes, unique_video_urls with
        | [], first :: _ => episodes ++ [mkEpisode 1 (U "正片") first]
        | _, _ => episodes
        end in
      Returned (sort_by Z.ltb ep_num episodes)
  | Raises msg => Raises msg
  end.

(** The episode number a media URL carries, if any: the value of the digits
    in front of its extension. *)
Definition episode_number (url : pystr) : option Z :=
  option_map int_of_digits (search_group num_pattern url).

(** The turn of [episode_turn] when [int] returns
    ([episode_turn_returned]). *)
Definition add_episode (episodes : list Episode) (url : pystr)
    : list Episode :=
  match episode_number url with
  | Some num =>
      if (num >? 0)%Z && negb (existsb (fun e => (ep_num e =? num)%Z) episodes)
      then episodes ++ [mkEpisode num (episode_title num) url]
      else episodes
  | None => episodes
  end.

(** What [try_resolve_episodes] returns when it returns
    ([try_resolve_episodes_returned]): the numbered episodes, the single
    episode when there is none, and the sort. *)
Definition resolve_episodes (unique_video_urls : list pystr)
    : list Episode :=
  let episodes := fold_left add_episode unique_video_urls [] in
  let episodes :=
    match episodes, unique_video_urls with
    | [], first :: _ => episodes ++ [mkEpisode 1 (U "正片") first]
    | _, _ => episodes
    end in
  sort_by Z.ltb ep_num episodes.

(** [unique_video_urls[0]] if the list is not empty, else the empty string *)
Definition primary_url (unique_video_urls : list pystr) : pystr :=
  match unique_video_urls with
  | first :: _ => first
  | [] => []
  end.

(** [video_id]: the digits of the archive token, or the first eight
    characters of the decimal writing of the hash. *)
Definition video_id (I : Interp) (page_url : pystr) : pystr :=
  match search_group archive_pattern page_url with
  | Some g => g
  | None => firstn 8 (str_of_int (py_hash I page_url))
  end.

(** The body of the [try] once the page is fetched: [Returned None] for
    [return None], [Returned (Some r)] for a record, [Raises] when the
    episode loop raises. *)
Definition parse_page (I : Interp) (page_url html : pystr)
    : outcome (option VideoInfo) :=
  let title := extract_title html in
  if negb (truthy title) then Returned None
  else
    let description := extract_description html in
    let tags := extract_tags html in
    let cover_url := extract_cover html in
    let unique_video_urls := set_list I (found_video_urls html) in
    match try_resolve_episodes unique_video_urls with
    | Raises msg => Raises msg
    | Returned episodes =>
        let author := extract_author title in
        Returned
          (Some (mkVideoInfo (video_id I page_url) title author description
                   cover_url (primary_url unique_video_urls) tags episodes
                   page_url None))
    end.

(** The record of a page that could not be fetched or parsed. *)
Definition failed_record (I : Interp) (page_url msg : pystr) : VideoInfo :=
  mkVideoInfo (video_id I page_url) [] [] [] [] [] [] [] page_url (Some msg).

(** The body of the [try] at one attempt: [net attempt] is what
    [requests.get] and [raise_for_status] give, a body that is then parsed
    or an exception. *)
Definition try_body (I : Interp) (net : nat -> response)
    (page_url : pystr) (attempt : nat) : outcome (option VideoInfo) :=
  match net attempt with
  | Body html => parse_page I page_url html
  | Raised msg => Raises msg
  end.

(** The loop [for attempt in range(3)]: what the [try] returns is returned;
    an exception, of the fetch or of the parse, gives the failure record at
    the third attempt and the next attempt before. *)
Fixpoint attempt_loop (I : Interp) (net : nat -> response)
    (page_url : pystr) (attempts : list nat) : option VideoInfo :=
  match attempts with
  | [] => None
  | attempt :: rest =>
      match try_body I net page_url attempt with
      | Returned result => result
      | Raises msg =>
          if (attempt =? 2)%nat then Some (failed_record I page_url msg)
          else attempt_loop I net page_url rest
      end
  end.

Definition extract_from_page (I : Interp) (net : nat -> response)
    (page_url : pystr) : option VideoInfo :=
  attempt_loop I net page_url (seq 0 3).

(** ** [generate_import_text] *)

(** [v.title and not v.error and (v.video_url or v.episodes)] *)
Definition valid_video (v : VideoInfo) : bool :=
  truthy (v_title v)
  && negb (match v_error v with Some e => truthy e | None => false end)
  && (truthy (v_video_url v) || truthy (v_episodes v)).

Definition valid_videos (videos : list VideoInfo) : list VideoInfo :=
  filter valid_video videos.

(** [video.author or "未分类"] *)
Definition author_key (v : VideoInfo) : pystr :=
  if truthy (v_author v) then v_author v else uncategorized.

(** [grouped] is a dict, which keeps its keys in the order of their first
    insertion: an association list.  [group_add] is one turn of the grouping
    loop. *)
Fixpoint group_add (grouped : list (pystr * list VideoInfo))
    (author : pystr) (video : VideoInfo) : list (pystr * list VideoInfo) :=
  match grouped with
  | [] => [(author, [video])]
  | (k, vs) :: rest =>
      if pystr_eqb k author then (k, vs ++ [video]) :: rest
      else (k, vs) :: group_add rest author video
  end.

Definition group_by_author (valid : list VideoInfo)
    : list (pystr * list VideoInfo) :=
  fold_left (fun grouped video => group_add grouped (author_key video) video)
    valid [].

(** [sorted(grouped.items())]: the items compare by their keys, which are
    pairwise different. *)
Definition sorted_items (grouped : list (pystr * list VideoInfo))
    : list (pystr * list VideoInfo) :=
  sort_by pystr_ltb fst grouped.

(** The state of the rendering loop: [lines] and [video_count]. *)
Definition report : Type := (list pystr * Z)%type.

(** The lines of one block and the increment of the counter. *)
Definition emit_block (out : report) (heading : pystr) (video : VideoInfo)
    (url : pystr) : report :=
  (fst out
     ++ [U "标题：" ++ heading]
     ++ (if truthy (v_description video)
         then [U "描述：" ++ v_description video] else [])
     ++ (if truthy (v_cover_url video)
         then [U "封面：" ++ v_cover_url video] else [])
     ++ [U "视频：" ++ url]
     ++ (if truthy (v_tags video)
         then [U "标签：" ++ join (U ",") (v_tags video)] else [])
     ++ [[]],
   (snd out + 1)%Z).

Definition emit_video (out : report) (video : VideoInfo) : report :=
  if (1 <? length (v_episodes video))%nat then
    let valid_episodes :=
      filter (fun ep => truthy (ep_video_url ep)) (v_episodes video) in
    fold_left
      (fun out ep =>
         emit_block out (v_title video ++ U " - " ++ ep_title ep) video
           (ep_video_url ep))
      valid_episodes out
  else if truthy (v_video_url video) then
    emit_block out (v_title video) video (v_video_url video)
  else out.

Definition emit_group (out : report) (item : pystr * list VideoInfo)
    : report :=
  fold_left emit_video (snd item)
    (fst out ++ [U "合集：" ++ fst item; []], snd out).

(** [lines] and [video_count] at the end of the loop. *)
Definition render (videos : list VideoInfo) : report :=
  fold_left emit_group
    (sorted_items (group_by_author (valid_videos videos))) ([], 0%Z).

Definition generate_import_text (videos : list VideoInfo) : pystr * Z :=
  (join [newline] (fst (render videos)), snd (render videos)).

(** ** Notions the statements below use *)

(** Episode resolution on a page: the set of the URLs found, listed as the
    interpreter iterates it, then [resolve_episodes].  It is the list that
    [episodes_checked] returns whenever it returns
    ([episodes_checked_returned]). *)
Definition episodes_of (I : Interp) (html : pystr) : list Episode :=
  resolve_episodes (set_list I (found_video_urls html)).

(** Episode resolution on a page with the calls of [int] that can raise:
    what the [try] body computes. *)
Definition episodes_checked (I : Interp) (html : pystr)
    : outcome (list Episode) :=
  try_resolve_episodes (set_list I (found_video_urls html)).

(** No call of [int] raises on these URLs: the digits in front of the
    extension are never more than the limit. *)
Definition int_returns (urls : list pystr) : Prop :=
  forall u g,
    In u urls -> search_group num_pattern u = Some g ->
    length g <= int_max_str_digits.

(** An attempt fails: the [try] body raises, in the fetch or in the
    parse. *)
Definition attempt_fails (I : Interp) (net : nat -> response)
    (page_url : pystr) (attempt : nat) : Prop :=
  exists msg, try_body I net page_url attempt = Raises msg.

(** The episodes of the loop over the URLs, before the single-episode rule
    and the sort. *)
Definition numbered (urls : list pystr) : list Episode :=
  fold_left add_episode urls [].

(** What every [add_episode] turn keeps true of an episode: its number is
    positive, it carries one of the URLs, the number read from that URL and
    the title made from the number. *)
Definition episode_from (urls : list pystr) (e : Episode) : Prop :=
  (0 < ep_num e)%Z /\ In (ep_video_url e) urls
  /\ episode_number (ep_video_url e) = Some (ep_num e)
  /\ ep_title e = episode_title (ep_num e).

(** The test a URL passes for episode number [n]. *)
Definition has_number (n : Z) (url : pystr) : bool :=
  match episode_number url with
  | Some m => (m =? n)%Z
  | None => false
  end.

(** A pattern of [extract_author] passes on a title when it matches and the
    stripped text of its group has 2 to 50 characters. *)
Definition passes (title : pystr) (p : pattern) : bool :=
  match search_group p title with
  | Some g => (2 <=? length (strip g))%nat && (length (strip g) <=? 50)%nat
  | None => false
  end.

(** [line.startswith(prefix)] *)
Fixpoint starts_with (prefix line : pystr) : bool :=
  match prefix, line with
  | [], _ => true
  | _ :: _, [] => false
  | a :: prefix', b :: line' => (a =? b)%N && starts_with prefix' line'
  end.

Definition count_lines (prefix : pystr) (lines : list pystr) : nat :=
  length (filter (starts_with prefix) lines).

(** The lines of a text, [text.split(\x22\n\x22)]: the pieces between its
    newlines. *)
Fixpoint split_lines (text : pystr) : list pystr :=
  match text with
  | [] => [[]]
  | c :: rest =>
      if (c =? newline)%N then [] :: split_lines rest
      else
        match split_lines rest with
        | line :: lines => (c :: line) :: lines
        | [] => [[c]]
        end
  end.

(** A string without a newline. *)
Definition one_line (s : pystr) : bool :=
  forallb (fun c => negb (c =? newline)%N) s.

(** No field of the record that the report writes holds a newline. *)
Definition single_line_fields (v : VideoInfo) : bool :=
  one_line (v_title v) && one_line (v_author v)
  && one_line (v_description v) && one_line (v_cover_url v)
  && one_line (v_video_url v) && forallb one_line (v_tags v)
  && forallb (fun ep => one_line (ep_title ep) && one_line (ep_video_url ep))
       (v_episodes v).

(** The number of blocks a record gives: its episodes with a URL when it has
    more than one episode, else one when it has a primary URL. *)
Definition playable_units (v : VideoInfo) : nat :=
  if (1 <? length (v_episodes v))%nat
  then length (filter (fun ep => truthy (ep_video_url ep)) (v_episodes v))
  else if truthy (v_video_url v) then 1 else 0.

Definition total_units (vs : list VideoInfo) : nat :=
  list_sum (map playable_units vs).

Definition group_units (items : list (pystr * list VideoInfo)) : nat :=
  list_sum (map (fun item => total_units (snd item)) items).

(** [grows out out' n]: the rendering went from [out] to [out'] by adding
    lines at the end, [n] of them title lines and [n] of them media lines,
    and by adding [n] to the counter. *)
Definition grows (out out' : report) (n : nat) : Prop :=
  snd out' = (snd out + Z.of_nat n)%Z
  /\ count_lines (U "视频：") (fst out')
     = count_lines (U "视频：") (fst out) + n
  /\ count_lines (U "标题：") (fst out')
     = count_lines (U "标题：") (fst out) + n
  /\ exists more, fst out' = fst out ++ more.

(** The videos grouped under a key. *)
Definition assoc (grouped : list (pystr * list VideoInfo)) (k : pystr)
    : list VideoInfo :=
  match find (fun item => pystr_eqb (fst item) k) grouped with
  | Some item => snd item
  | None => []
  end.

(** The occurrences of an archive token in a URL:
    [url = pre ++ "/archives/" ++ digits ++ ".html" ++ post]. *)
Definition archive_token (url pre digits post : pystr) : Prop :=
  url = pre ++ U "/archives/" ++ digits ++ U ".html" ++ post
  /\ digits <> [] /\ forallb isdecimal digits = true.

(** The declarative reading of a pattern: [matches r s s'] when [r] can
    consume a prefix of [s] and leave [s']. *)
Inductive matches : re -> pystr -> pystr -> Prop :=
  | M_Eps : forall s, matches Eps s s
  | M_Chr : forall p c s, p c = true -> matches (Chr p) (c :: s) s
  | M_Cat : forall r1 r2 s s1 s2,
      matches r1 s s1 -> matches r2 s1 s2 -> matches (Cat r1 r2) s s2
  | M_AltL : forall r1 r2 s s', matches r1 s s' -> matches (Alt r1 r2) s s'
  | M_AltR : forall r1 r2 s s', matches r2 s s' -> matches (Alt r1 r2) s s'
  | M_Star : forall g p w s,
      forallb p w = true -> matches (Star g p) (w ++ s) s
  | M_Eos : forall s, s = [] \/ s = [newline] -> matches Eos s s.

(** The least number of characters a pattern consumes. *)
Fixpoint min_len (r : re) : nat :=
  match r with
  | Eps => 0
  | Chr _ => 1
  | Cat r1 r2 => min_len r1 + min_len r2
  | Alt r1 r2 => Nat.min (min_len r1) (min_len r2)
  | Star _ _ => 0
  | Eos => 0
  end.

(** Two iteration orders a set of strings can have: the order of first
    insertion, and its reverse. *)
Definition first_seen_order (l : list pystr) : list pystr :=
  rev (nodup (list_eq_dec N.eq_dec) (rev l)).

Definition last_seen_order (l : list pystr) : list pystr :=
  nodup (list_eq_dec N.eq_dec) (rev l).

(** A string hash with a salt, standing for the hash of one process. *)
Definition salted_hash (salt : Z) (s : pystr) : Z :=
  fold_left (fun h c => ((h * 31 + Z.of_N c) mod 2 ^ 61)%Z) s salt.

Definition first_seen_interp (salt : Z) : Interp.
Proof.
  refine (mkInterp (salted_hash salt) first_seen_order _ _).
  - intro l. apply NoDup_rev, NoDup_nodup.
  - intros l x. unfold first_seen_order.
    rewrite <- in_rev, nodup_In, <- in_rev. reflexivity.
Defined.

Definition last_seen_interp (salt : Z) : Interp.
Proof.
  refine (mkInterp (salted_hash salt) last_seen_order _ _).
  - intro l. apply NoDup_nodup.
  - intros l x. unfold last_seen_order.
    rewrite nodup_In, <- in_rev. reflexivity.
Defined.

(** ** Pages and records the examples use *)

(** Two player entries whose URLs both end in [/5.mp4]. *)
Definition url_a5 : pystr := U "https://media.example.org/a/5.mp4".
Definition url_b5 : pystr := U "https://media.example.org/b/5.mp4".
Definition page_two_fives : pystr :=
  U "<script>player({url: 'https://media.example.org/a/5.mp4'});
     player({url: 'https://media.example.org/b/5.mp4'});</script>".

(** Two player entries whose URLs both end in [/0.mp4]. *)
Definition url_a0 : pystr := U "https://media.example.org/a/0.mp4".
Definition url_b0 : pystr := U "https://media.example.org/b/0.mp4".
Definition page_two_zeros : pystr :=
  U "<script>player({url: 'https://media.example.org/a/0.mp4'});
     player({url: 'https://media.example.org/b/0.mp4'});</script>".

(** Episode 3 in front of episode 1. *)
Definition url_3 : pystr := U "https://cdn.mikiacg.vip/show/3.mp4".
Definition url_1 : pystr := U "https://cdn.mikiacg.vip/show/1.mp4".
Definition page_three_one : pystr :=
  U "<video src='https://cdn.mikiacg.vip/show/3.mp4'></video>
     <video src='https://cdn.mikiacg.vip/show/1.mp4'></video>".

(** One media URL without a number. *)
Definition url_video : pystr := U "https://cdn.mikiacg.vip/show/video.mp4".
Definition page_unnumbered : pystr :=
  U "<video src='https://cdn.mikiacg.vip/show/video.mp4'></video>".

(** A page without any title, and a page with a title and one episode. *)
Definition page_no_title : pystr := U "<html><body><p>gone</p></body></html>".
Definition page_full : pystr :=
  U "<html><head><title>【MMD】Foo「bar」 - 咪咔映阁</title></head>
     <body><video src='https://cdn.mikiacg.vip/show/1.mp4'></video></body>
     </html>".

Definition url_about : pystr := U "https://tv.mikiacg.org/about.html".
Definition url_archive : pystr := U "https://tv.mikiacg.org/archives/123.html".

(** A network that gives the same answer at every attempt. *)
Definition net_always (r : response) : nat -> response := fun _ => r.

(** The two fives and a third URL whose number has 4301 digits. *)
Definition url_long_sevens : pystr :=
  U "https://media.example.org/c/" ++ repeat 55%N 4301 ++ U ".mp4".
Definition page_two_fives_long : pystr :=
  U "<script>player({url: 'https://media.example.org/a/5.mp4'});
     player({url: 'https://media.example.org/b/5.mp4'});
     player({url: '" ++ url_long_sevens ++ U "'});</script>".

(** A page with a title whose only media URL ends in 4301 zeros. *)
Definition url_long_zeros : pystr :=
  U "https://cdn.mikiacg.vip/show/" ++ repeat 48%N 4301 ++ U ".mp4".
Definition page_long_zeros : pystr :=
  U "<html><head><title>【MMD】Foo「bar」</title></head><body><video src='"
  ++ url_long_zeros ++ U "'></video></body></html>".

(** A record with two episodes, a record with no episode and a primary URL,
    and a record with one episode and no primary URL. *)
Definition record_two_episodes : VideoInfo :=
  mkVideoInfo (U "101") (U "Series") (U "Zed") (U "about") []
    (U "https://cdn.mikiacg.vip/s/1.mp4") [U "tag1"; U "tag2"]
    [mkEpisode 1 (episode_title 1) (U "https://cdn.mikiacg.vip/s/1.mp4");
     mkEpisode 2 (episode_title 2) (U "https://cdn.mikiacg.vip/s/2.mp4")]
    (U "https://tv.mikiacg.org/archives/101.html") None.

Definition record_primary_only : VideoInfo :=
  mkVideoInfo (U "102") (U "Film") (U "Amy") [] []
    (U "https://cdn.mikiacg.vip/f/film.mp4") [] []
    (U "https://tv.mikiacg.org/archives/102.html") None.

Definition record_header_only : VideoInfo :=
  mkVideoInfo (U "103") (U "Lost") (U "Amy") [] [] [] []
    [mkEpisode 1 (U "正片") (U "https://cdn.mikiacg.vip/l/lost.mp4")]
    (U "https://tv.mikiacg.org/archives/103.html") None.

(** A record whose title holds a newline followed by a label. *)
Definition record_broken_title : VideoInfo :=
  mkVideoInfo (U "104") (U "Film" ++ [newline] ++ U "标题：") (U "Amy") [] []
    (U "https://cdn.mikiacg.vip/f/film.mp4") [] []
    (U "https://tv.mikiacg.org/archives/104.html") None.

(** ** The rest of the script: [get_video_links] and [main] *)

Definition BASE_URL : pystr := U "https://tv.mikiacg.org".
Definition MAX_PAGES : nat := 10.

(** The URL of a listing page: the bare category path for page 1, the path
    with the page number for the others. *)
Definition listing_url (page : Z) : pystr :=
  if (page =? 1)%Z then BASE_URL ++ U "/index.php/category/Video/"
  else BASE_URL ++ U "/index.php/category/Video/" ++ str_of_int page
       ++ U "/".

(** [href=\x22([^\x22]*\/archives\/\d+\.html)\x22] under [re.I] *)
Definition link_pattern : pattern :=
  Pattern (seq_re [txt_i (U "href="); txt_i [dquote]])
          (seq_re [many (noneof [dquote]); txt_i (U "/archives/");
                   many1 isdecimal; txt_i (U ".html")])
          (txt_i [dquote]).

(** One turn of the loop over the matches: a link that starts with [http]
    is kept, any other gets the base URL in front. *)
Definition absolute_link (link : pystr) : pystr :=
  if starts_with (U "http") link then link else BASE_URL ++ link.

(** The links of a fetched listing page: [re.findall], the set, its list. *)
Definition page_links (I : Interp) (html : pystr) : list pystr :=
  set_list I (map absolute_link (re_finditer link_pattern html)).

(** The loop [for attempt in range(3)] of [get_video_links]: the first body
    gives the result, an exception leads to the next attempt, and the empty
    list is returned when the attempts are used up. *)
Fixpoint listing_loop (I : Interp) (net : nat -> response)
    (attempts : list nat) : list pystr :=
  match attempts with
  | [] => []
  | attempt :: rest =>
      match net attempt with
      | Body html => page_links I html
      | Raised _ => listing_loop I net rest
      end
  end.

(** [web url attempt] is what the site answers to the request for [url] at
    that attempt. *)
Definition get_video_links (I : Interp) (web : pystr -> nat -> response)
    (page : Z) : list pystr :=
  listing_loop I (web (listing_url page)) (seq 0 3).

(** The loop of [main] over the pages, with [all_links] as accumulator: it
    breaks at the first page without links. *)
Fixpoint collect_links (I : Interp) (web : pystr -> nat -> response)
    (pages : list Z) (all_links : list pystr) : list pystr :=
  match pages with
  | [] => all_links
  | page :: rest =>
      let links := get_video_links I web page in
      if truthy links then collect_links I web rest (all_links ++ links)
      else all_links
  end.

(** [range(1, MAX_PAGES + 1)] *)
Definition page_range : list Z := map Z.of_nat (seq 1 MAX_PAGES).

(** [unique_links = list(set(all_links))] *)
Definition unique_links (I : Interp) (web : pystr -> nat -> response)
    : list pystr :=
  set_list I (collect_links I web page_range []).

(** The records [main] collects: the pool hands the results back in the
    order in which the workers finish, which is some arrangement
    [completion] of the links; a result that is [None] is not kept. *)
Definition crawl (I : Interp) (web : pystr -> nat -> response)
    (completion : list pystr) : list VideoInfo :=
  flat_map
    (fun link =>
       match extract_from_page I (web link) link with
       | Some result => [result]
       | None => []
       end)
    completion.

(** [v.error] as a condition *)
Definition has_error (v : VideoInfo) : bool :=
  match v_error v with Some e => truthy e | None => false end.

(** The statistics of [main]. *)
Definition valid_count (videos : list VideoInfo) : nat :=
  length (filter (fun v => truthy (v_title v) && negb (has_error v)) videos).

Definition no_video_count (videos : list VideoInfo) : nat :=
  length
    (filter
       (fun v => truthy (v_title v) && negb (has_error v)
                 && negb (truthy (v_video_url v))
                 && negb (truthy (v_episodes v)))
       videos).

Definition error_count (videos : list VideoInfo) : nat :=
  length (filter has_error videos).

Definition total_episodes (videos : list VideoInfo) : nat :=
  list_sum
    (map
       (fun v =>
          if (1 <? length (v_episodes v))%nat
          then length
                 (filter (fun ep => truthy (ep_video_url ep)) (v_episodes v))
          else if truthy (v_video_url v) then 1 else 0)
       (filter (fun v => truthy (v_title v) && negb (has_error v)) videos)).

(** ** The layout of the report *)

(** The lines of one block. *)
Definition block_lines (heading : pystr) (video : VideoInfo) (url : pystr)
    : list pystr :=
  [U "标题：" ++ heading]
  ++ (if truthy (v_description video)
      then [U "描述：" ++ v_description video] else [])
  ++ (if truthy (v_cover_url video)
      then [U "封面：" ++ v_cover_url video] else [])
  ++ [U "视频：" ++ url]
  ++ (if truthy (v_tags video)
      then [U "标签：" ++ join (U ",") (v_tags video)] else [])
  ++ [[]].

(** The lines of one record: a block per episode with a URL when it has
    more than one episode, else one block when it has a primary URL. *)
Definition video_lines (video : VideoInfo) : list pystr :=
  if (1 <? length (v_episodes video))%nat then
    flat_map
      (fun ep =>
         block_lines (v_title video ++ U " - " ++ ep_title ep) video
           (ep_video_url ep))
      (filter (fun ep => truthy (ep_video_url ep)) (v_episodes video))
  else if truthy (v_video_url video) then
    block_lines (v_title video) video (v_video_url video)
  else [].

(** The lines of one author: the header, an empty line, the records. *)
Definition group_lines (item : pystr * list VideoInfo) : list pystr :=
  [U "合集：" ++ fst item; []] ++ flat_map video_lines (snd item).

(** The author keys of the report, in the order of their headers. *)
Definition report_keys (videos : list VideoInfo) : list pystr :=
  map fst (sorted_items (group_by_author (valid_videos videos))).

(** A URL carries a positive episode number. *)
Definition carries (urls : list pystr) (n : Z) : Prop :=
  (0 < n)%Z /\ exists u, In u urls /\ episode_number u = Some n.

(** A text equal to [word] up to the case of its letters. *)
Definition same_folded (word text : pystr) : Prop :=
  map fold_case text = map fold_case word.

(** A character occurs in no class of a pattern. *)
Fixpoint rejects (c : N) (r : re) : bool :=
  match r with
  | Eps => true
  | Chr p => negb (p c)
  | Cat r1 r2 => rejects c r1 && rejects c r2
  | Alt r1 r2 => rejects c r1 && rejects c r2
  | Star _ p => negb (p c)
  | Eos => true
  end.

(** The extensions of [video_extensions], by name. *)
Definition extension_names : list string :=
  ["mp4"; "mkv"; "webm"; "avi"; "mov"; "m4v"; "flv"; "wmv"; "ts"; "m3u8"]
  %string.

(** A text that is one of the extensions up to the case of its letters. *)
Definition has_extension (ext : pystr) : Prop :=
  exists e, In e extension_names /\ same_folded (U e) ext.

(** What a link of a listing page looks like: absolute, without double
    quote, with an archive token (up to the case of the letters) at its
    end. *)
Definition listing_link (link : pystr) : Prop :=
  starts_with (U "http") link = true
  /\ ~ In dquote link
  /\ exists front a digits h,
       link = front ++ a ++ digits ++ h
       /\ same_folded (U "/archives/") a
       /\ digits <> [] /\ forallb isdecimal digits = true
       /\ same_folded (U ".html") h.

(** A record is a failure record: its failure reason is set. *)
Definition is_failure (v : VideoInfo) : bool :=
  match v_error v with Some _ => true | None => false end.

(** More pages for the examples: a listing with a relative and an absolute
    link, twice the same. *)
Definition page_listing : pystr :=
  U "<a href=" ++ [dquote] ++ U "/archives/12.html" ++ [dquote] ++ U ">a</a>"
  ++ U "<a HREF=" ++ [dquote] ++ U "https://tv.mikiacg.org/archives/7.html"
  ++ [dquote] ++ U ">b</a>"
  ++ U "<a href=" ++ [dquote] ++ U "/archives/12.html" ++ [dquote] ++ U ">c</a>".

(** A site that serves the listing on page 1, nothing on the other listing
    pages and [page_full] on every detail page. *)
Definition web_small (url : pystr) (attempt : nat) : response :=
  if pystr_eqb url (listing_url 1) then Body page_listing
  else if starts_with (listing_url 1) url then Body []
  else Body page_full.

(** * Properties *)

(** ** The embedding on small inputs *)

Example utf8_decode_cjk : U "张三" = [24352; 19977]%N.
Proof. reflexivity. Qed.

Example fold_case_extra_letters :
  lit_i 107%N 0x212A%N = true /\ lit_i 105%N 0x131%N = true
  /\ lit_i 115%N 83%N = true /\ lit_i 97%N 0x212A%N = false.
Proof. now vm_compute. Qed.

(** The rightmost numbered segment counts, the extension in any case. *)
Example episode_number_last_segment :
  episode_number (U "http://a/12/34.MP4") = Some 34%Z.
Proof. now vm_compute. Qed.

(** [$] also holds in front of one final newline, not of two. *)
Example episode_number_final_newline :
  episode_number (U "http://a/7.mp4" ++ [newline]) = Some 7%Z
  /\ episode_number (U "http://a/7.mp4" ++ [newline; newline]) = None.
Proof. now vm_compute. Qed.

Example episode_number_none :
  episode_number (U "http://a/video.mp4") = None
  /\ episode_number (U "http://a/12.mp5") = None
  /\ episode_number (U "http://a/000.mkv") = Some 0%Z.
Proof. now vm_compute. Qed.

(** The second pattern of [extract_author]: a name in front of a dash and an
    episode marker. *)
Example extract_author_dash :
  extract_author (U "【MMD】Some Name - 第3集") = U "Some Name".
Proof. now vm_compute. Qed.

(** A one-character name fails the length check of every pattern. *)
Example extract_author_too_short : extract_author (U "【MMD】a") = uncategorized.
Proof. now vm_compute. Qed.

Example extract_title_brand :
  extract_title page_full = U "【MMD】Foo「bar」".
Proof. now vm_compute. Qed.

Example extract_tags_dedup :
  extract_tags
    (U "<div class=" ++ [dquote] ++ U "a article-tags" ++ [dquote]
       ++ U "><a href='/t/1'># one</a> <A>#two </A><a>#one</a></DIV>")
  = [U "one"; U "two"].
Proof. now vm_compute. Qed.

Example found_video_urls_key_value :
  found_video_urls (U "URL : 'HTTPS://x.org/a.TS'") = [U "HTTPS://x.org/a.TS"].
Proof. now vm_compute. Qed.

Example extract_from_page_full :
  option_map
    (fun r => (v_id r, v_title r, v_author r, v_video_url r, v_episodes r,
               v_error r))
    (extract_from_page (first_seen_interp 0) (net_always (Body page_full))
       url_archive)
  = Some (U "123", U "【MMD】Foo「bar」", U "Foo", url_1,
          [mkEpisode 1 (U "第1集") url_1], None).
Proof. now vm_compute. Qed.

(** ** Strings *)

Lemma lstrip_head (s : pystr) :
  lstrip s = [] \/ exists c t, lstrip s = c :: t /\ isspace c = false.
Proof.
  induction s as [|c s IH]; simpl; [now left|].
  destruct (isspace c) eqn:E; [exact IH|].
  right. now exists c, s.
Qed.

Lemma lstrip_fixed (c : N) (t : pystr) :
  isspace c = false -> lstrip (c :: t) = c :: t.
Proof. intro E. simpl. now rewrite E. Qed.

Lemma lstrip_idem (s : pystr) : lstrip (lstrip s) = lstrip s.
Proof.
  destruct (lstrip_head s) as [-> | (c & t & -> & E)]; [reflexivity|].
  now apply lstrip_fixed.
Qed.

Lemma rstrip_idem (s : pystr) : rstrip (rstrip s) = rstrip s.
Proof. unfold rstrip. now rewrite rev_involutive, lstrip_idem. Qed.

Lemma lstrip_suffix (s : pystr) : exists w, s = w ++ lstrip s.
Proof.
  induction s as [|c s [w IH]]; simpl; [now exists []|].
  destruct (isspace c).
  - exists (c :: w). simpl. now rewrite <- IH.
  - now exists [].
Qed.

(** Stripping on the right keeps the first character when it is no space. *)
Lemma rstrip_keeps_head (c : N) (t : pystr) :
  isspace c = false -> exists t', rstrip (c :: t) = c :: t'.
Proof.
  intro E. unfold rstrip. simpl rev.
  destruct (lstrip_suffix (rev t ++ [c])) as [w Hw].
  destruct (lstrip_head (rev t ++ [c])) as [H0 | (d & u & Hu & Ed)].
  - exfalso. rewrite H0, app_nil_r in Hw.
    assert (Hs : forall l, lstrip (l ++ [c]) <> []).
    { induction l as [|a l IHl]; simpl; [now rewrite E|].
      destruct (isspace a); [exact IHl | discriminate]. }
    now apply (Hs (rev t)).
  - assert (Hl : forall l, exists l', lstrip (l ++ [c]) = l' ++ [c]).
    { induction l as [|a l [l' IHl]]; simpl.
      - rewrite E. now exists [].
      - destruct (isspace a); [now exists l'|].
        now exists (a :: l). }
    destruct (Hl (rev t)) as [l' ->].
    rewrite rev_app_distr. simpl. now exists (rev l').
Qed.

Lemma strip_idem (s : pystr) : strip (strip s) = strip s.
Proof.
  unfold strip.
  destruct (lstrip_head s) as [-> | (c & t & -> & E)]; [reflexivity|].
  destruct (rstrip_keeps_head c t E) as [t' Ht].
  rewrite Ht, (lstrip_fixed c t' E), <- Ht.
  apply rstrip_idem.
Qed.

Lemma pystr_eqb_eq (a b : pystr) : pystr_eqb a b = true <-> a = b.
Proof.
  unfold pystr_eqb. destruct (list_eq_dec N.eq_dec a b); split; congruence.
Qed.

Lemma pystr_eqb_refl (a : pystr) : pystr_eqb a a = true.
Proof. now apply pystr_eqb_eq. Qed.

Lemma pystr_eqb_neq (a b : pystr) : pystr_eqb a b = false <-> a <> b.
Proof.
  unfold pystr_eqb. destruct (list_eq_dec N.eq_dec a b); split;
    congruence.
Qed.

Lemma pystr_ltb_irrefl (a : pystr) : pystr_ltb a a = false.
Proof.
  induction a as [|x a IH]; simpl; [reflexivity|].
  now rewrite N.ltb_irrefl.
Qed.

Lemma pystr_ltb_asym (a b : pystr) :
  pystr_ltb a b = true -> pystr_ltb b a = false.
Proof.
  revert b. induction a as [|x a IH]; intros [|y b]; simpl; try congruence.
  destruct (x <? y)%N eqn:Exy, (y <? x)%N eqn:Eyx; try congruence.
  - apply N.ltb_lt in Exy, Eyx. lia.
  - apply IH.
Qed.

Lemma pystr_ltb_total (a b : pystr) :
  pystr_ltb a b = false -> pystr_ltb b a = false -> a = b.
Proof.
  revert b. induction a as [|x a IH]; intros [|y b]; simpl; try congruence.
  destruct (x <? y)%N eqn:Exy, (y <? x)%N eqn:Eyx; try congruence.
  intros H1 H2. apply N.ltb_ge in Exy, Eyx.
  f_equal; [lia | now apply IH].
Qed.

Lemma pystr_ltb_trans (a b c : pystr) :
  pystr_ltb a b = true -> pystr_ltb b c = true -> pystr_ltb a c = true.
Proof.
  revert b c. induction a as [|x a IH]; intros [|y b] [|z c]; simpl;
    try congruence.
  destruct (x <? y)%N eqn:Exy, (y <? z)%N eqn:Eyz, (x <? z)%N eqn:Exz,
    (y <? x)%N eqn:Eyx, (z <? y)%N eqn:Ezy, (z <? x)%N eqn:Ezx;
    try congruence;
    repeat match goal with
      | H : (_ <? _)%N = true |- _ => apply N.ltb_lt in H
      | H : (_ <? _)%N = false |- _ => apply N.ltb_ge in H
      end; try lia.
  apply IH.
Qed.

(** ** The matcher against the declarative reading *)

Section Matcher.

Context {A : Type}.
Implicit Types (k : pystr -> option A) (s : pystr).

Lemma star_greedy_sound p k s x :
  star_greedy p k s = Some x ->
  exists w s', s = w ++ s' /\ forallb p w = true /\ k s' = Some x.
Proof.
  induction s as [|c s IH]; simpl; intro H.
  - now exists [], [].
  - destruct (p c) eqn:Ep.
    + destruct (star_greedy p k s) as [y|] eqn:Es.
      * injection H as ->.
        destruct (IH eq_refl) as (w & s' & -> & Hw & Hk).
        exists (c :: w), s'. simpl. now rewrite Ep, Hw.
      * now exists [], (c :: s).
    + now exists [], (c :: s).
Qed.

Lemma star_lazy_sound p k s x :
  star_lazy p k s = Some x ->
  exists w s', s = w ++ s' /\ forallb p w = true /\ k s' = Some x.
Proof.
  induction s as [|c s IH]; simpl; intro H.
  - destruct (k []) eqn:Ek; [|discriminate].
    exists [], []. now rewrite Ek.
  - destruct (k (c :: s)) eqn:Ek.
    + exists [], (c :: s). now rewrite Ek.
    + destruct (p c) eqn:Ep; [|discriminate].
      destruct (IH H) as (w & s' & -> & Hw & Hk).
      exists (c :: w), s'. simpl. now rewrite Ep, Hw.
Qed.

(** What the matcher finds is a match, and the continuation accepted what
    it left. *)
Lemma rmatch_sound r : forall k s x,
  rmatch r k s = Some x -> exists s', matches r s s' /\ k s' = Some x.
Proof.
  induction r as [|p|r1 IH1 r2 IH2|r1 IH1 r2 IH2|g p|]; simpl; intros k s x H.
  - exists s. split; [constructor | exact H].
  - destruct s as [|c s]; [discriminate|].
    destruct (p c) eqn:Ep; [|discriminate].
    exists s. split; [now constructor | exact H].
  - destruct (IH1 _ _ _ H) as (s1 & M1 & H1).
    destruct (IH2 _ _ _ H1) as (s2 & M2 & H2).
    exists s2. split; [econstructor; eassumption | exact H2].
  - destruct (rmatch r1 k s) as [y|] eqn:E1.
    + injection H as ->. destruct (IH1 _ _ _ E1) as (s' & M & Hk).
      exists s'. split; [now apply M_AltL | exact Hk].
    + destruct (IH2 _ _ _ H) as (s' & M & Hk).
      exists s'. split; [now apply M_AltR | exact Hk].
  - assert (Hs : exists w s', s = w ++ s' /\ forallb p w = true
                              /\ k s' = Some x).
    { destruct g; [now apply star_greedy_sound | now apply star_lazy_sound]. }
    destruct Hs as (w & s' & -> & Hw & Hk).
    exists s'. split; [now constructor | exact Hk].
  - destruct s as [|c [|d s]]; try discriminate.
    + exists []. split; [constructor; now left | exact H].
    + destruct (c =? newline)%N eqn:Ec; [|discriminate].
      apply N.eqb_eq in Ec. subst c.
      exists [newline]. split; [constructor; now right | exact H].
Qed.

Lemma star_greedy_here p k s x :
  k s = Some x -> exists y, star_greedy p k s = Some y.
Proof.
  intro H. destruct s as [|c s]; simpl; [eauto|].
  destruct (p c); [|eauto].
  destruct (star_greedy p k s); eauto.
Qed.

Lemma star_greedy_complete p k w s x :
  forallb p w = true -> k s = Some x ->
  exists y, star_greedy p k (w ++ s) = Some y.
Proof.
  intros Hw Hk. induction w as [|c w IH]; simpl.
  - now apply star_greedy_here with x.
  - simpl in Hw. apply andb_prop in Hw as [Hc Hw]. rewrite Hc.
    destruct (IH Hw) as [y ->]. eauto.
Qed.

Lemma star_lazy_complete p k w s x :
  forallb p w = true -> k s = Some x ->
  exists y, star_lazy p k (w ++ s) = Some y.
Proof.
  intros Hw Hk. induction w as [|c w IH]; simpl.
  - destruct s; simpl; rewrite Hk; eauto.
  - simpl in Hw. apply andb_prop in Hw as [Hc Hw]. rewrite Hc.
    destruct (k (c :: w ++ s)); eauto.
Qed.

(** When a match exists that the continuation accepts, the matcher
    succeeds (with that match or one it tries before). *)
Lemma rmatch_complete r s s' :
  matches r s s' ->
  forall k x, k s' = Some x -> exists y, rmatch r k s = Some y.
Proof.
  induction 1 as [s|p c s Hp|r1 r2 s s1 s2 _ IH1 _ IH2|r1 r2 s s' _ IH
                 |r1 r2 s s' _ IH|g p w s Hw|s Hs]; simpl; intros k x Hk.
  - eauto.
  - rewrite Hp. eauto.
  - destruct (IH2 _ _ Hk) as [y Hy]. exact (IH1 _ _ Hy).
  - destruct (IH _ _ Hk) as [y ->]. eauto.
  - destruct (rmatch r1 k s); eauto.
  - destruct g; [now apply star_greedy_complete with x
                | now apply star_lazy_complete with x].
  - destruct Hs as [-> | ->]; simpl; eauto.
Qed.

End Matcher.

(** A match consumes a prefix, of at least [min_len] characters. *)
Lemma matches_prefix r s s' :
  matches r s s' -> exists w, s = w ++ s' /\ min_len r <= length w.
Proof.
  induction 1 as [s|p c s Hp|r1 r2 s s1 s2 _ IH1 _ IH2|r1 r2 s s' _ IH
                 |r1 r2 s s' _ IH|g p w s Hw|s Hs]; simpl.
  - exists []. split; [reflexivity | simpl; lia].
  - exists [c]. split; [reflexivity | simpl; lia].
  - destruct IH1 as (w1 & -> & L1), IH2 as (w2 & -> & L2).
    exists (w1 ++ w2). rewrite <- app_assoc, length_app.
    split; [reflexivity | lia].
  - destruct IH as (w & -> & L). exists w. split; [reflexivity | lia].
  - destruct IH as (w & -> & L). exists w. split; [reflexivity | lia].
  - exists w. split; [reflexivity | lia].
  - exists []. split; [reflexivity | simpl; lia].
Qed.

(** ** Patterns, [re.search] and [re.finditer] *)

Lemma firstn_app_tail {A : Type} (g s2 : list A) :
  firstn (length (g ++ s2) - length s2) (g ++ s2) = g.
Proof.
  rewrite length_app, Nat.add_sub, firstn_app, Nat.sub_diag, firstn_all.
  simpl. apply app_nil_r.
Qed.

(** A match of [before(group)after]: the text splits into the three parts,
    and group 1 is the middle one. *)
Lemma match_at_sound p s g rest :
  match_at p s = Some (g, rest) ->
  exists s2, matches (before p) s (g ++ s2)
             /\ matches (group p) (g ++ s2) s2
             /\ matches (after p) s2 rest.
Proof.
  unfold match_at. intro H.
  apply rmatch_sound in H as (s1 & M1 & H).
  apply rmatch_sound in H as (s2 & M2 & H).
  apply rmatch_sound in H as (s3 & M3 & H).
  injection H as <- <-.
  destruct (matches_prefix _ _ _ M2) as (w & -> & _).
  rewrite firstn_app_tail. now exists s2.
Qed.

Lemma match_at_complete p s s1 s2 rest :
  matches (before p) s s1 -> matches (group p) s1 s2 ->
  matches (after p) s2 rest ->
  exists m, match_at p s = Some m.
Proof.
  intros M1 M2 M3. unfold match_at.
  destruct (rmatch_complete _ _ _ M3
              (fun s3 => Some (firstn (length s1 - length s2) s1, s3))
              _ eq_refl) as [y3 H3].
  destruct (rmatch_complete _ _ _ M2
              (fun s2 => rmatch (after p)
                 (fun s3 => Some (firstn (length s1 - length s2) s1, s3)) s2)
              _ H3) as [y2 H2].
  eapply rmatch_complete; [exact M1 | exact H2].
Qed.

Lemma re_search_eq p s :
  re_search p s =
  match match_at p s with
  | Some m => Some m
  | None => match s with [] => None | _ :: s' => re_search p s' end
  end.
Proof. destruct s; reflexivity. Qed.

(** [re.search] returns the match at the leftmost position that has one. *)
Lemma re_search_sound p s m :
  re_search p s = Some m ->
  exists pre s', s = pre ++ s' /\ match_at p s' = Some m
    /\ forall pre2 s2, s = pre2 ++ s2 -> length pre2 < length pre ->
                       match_at p s2 = None.
Proof.
  induction s as [|c s IH]; rewrite re_search_eq; intro H.
  - destruct (match_at p []) eqn:E; [|discriminate]. injection H as ->.
    exists [], []. repeat split; auto. simpl. intros; lia.
  - destruct (match_at p (c :: s)) eqn:E.
    + injection H as ->. exists [], (c :: s). repeat split; auto.
      simpl. intros; lia.
    + destruct (IH H) as (pre & s' & -> & Hm & Hleft).
      exists (c :: pre), s'. repeat split; auto.
      intros [|d pre2] s2 Hs Hl.
      * simpl in Hs. now subst s2.
      * simpl in Hs, Hl. injection Hs as -> Hs.
        apply (Hleft pre2 s2 Hs). lia.
Qed.

Lemma re_search_complete p pre s' m :
  match_at p s' = Some m -> exists m', re_search p (pre ++ s') = Some m'.
Proof.
  intro H. induction pre as [|c pre IH]; simpl app; rewrite re_search_eq.
  - rewrite H. eauto.
  - destruct (match_at p (c :: pre ++ s')); eauto.
Qed.

(** Every group [re.finditer] yields is group 1 of a match somewhere in the
    text. *)
Lemma finditer_from_match p s : forall skip g,
  In g (finditer_from p s skip) ->
  exists pre s' rest, s = pre ++ s' /\ match_at p s' = Some (g, rest).
Proof.
  induction s as [|c s IH]; intros skip g H.
  - simpl in H. destruct skip; [|contradiction].
    destruct (match_at p []) as [[g' rest]|] eqn:E; [|contradiction].
    destruct H as [<- | []]. now exists [], [], rest.
  - cbn [finditer_from] in H. destruct skip as [|n].
    + destruct (match_at p (c :: s)) as [[g' rest]|] eqn:E.
      * destruct H as [<- | H]; [now exists [], (c :: s), rest|].
        destruct (IH _ _ H) as (pre & s' & rest' & -> & Hm).
        now exists (c :: pre), s', rest'.
      * destruct (IH _ _ H) as (pre & s' & rest' & -> & Hm).
        now exists (c :: pre), s', rest'.
    + destruct (IH _ _ H) as (pre & s' & rest' & -> & Hm).
      now exists (c :: pre), s', rest'.
Qed.

(** Group 1 has at least [min_len] characters. *)
Lemma match_at_group_length p s g rest :
  match_at p s = Some (g, rest) -> min_len (group p) <= length g.
Proof.
  intro H. apply match_at_sound in H as (s2 & _ & M & _).
  destruct (matches_prefix _ _ _ M) as (w & E & L).
  apply app_inv_tail in E. now subst w.
Qed.

(** The patterns handed to [re.finditer] and to [re.sub] consume at least
    one character, so the rules of the engine for empty matches never come
    into play. *)
Lemma iterated_patterns_consume :
  forallb
    (fun p => Nat.leb 1 (min_len (before p) + min_len (group p)
                         + min_len (after p)))
    (tag_pattern :: video_patterns) = true
  /\ 1 <= min_len brand_suffix /\ 1 <= min_len markup_tag.
Proof.
  split; [now vm_compute|]. split; vm_compute; lia.
Qed.

(** A match of [p+]: a first character of the class, then more. *)
Lemma matches_many1 p s s' :
  matches (many1 p) s s' ->
  exists w, s = w ++ s' /\ w <> [] /\ forallb p w = true.
Proof.
  unfold many1. intro M.
  inversion M as [| |r1 r2 a s1 b M1 M2| | | |]; subst.
  inversion M1; subst. inversion M2; subst.
  exists (c :: w). simpl. repeat split; [discriminate|].
  now apply andb_true_intro.
Qed.

Lemma matches_many1_intro p w s :
  w <> [] -> forallb p w = true -> matches (many1 p) (w ++ s) s.
Proof.
  intros Hn Hw. destruct w as [|c w]; [contradiction|].
  simpl in Hw. apply andb_prop in Hw as [Hc Hw].
  unfold many1. simpl. econstructor; [now constructor | now constructor].
Qed.

Lemma matches_txt l s s' : matches (txt l) s s' -> s = l ++ s'.
Proof.
  revert s. induction l as [|c l IH]; simpl; intros s M.
  - now inversion M.
  - inversion M as [| |r1 r2 a s1 b M1 M2| | | |]; subst.
    inversion M1 as [|q d t Hq| | | | |]; subst.
    unfold lit in Hq. apply N.eqb_eq in Hq. subst d.
    f_equal. now apply IH.
Qed.

Lemma matches_txt_intro l s : matches (txt l) (l ++ s) s.
Proof.
  induction l as [|c l IH]; simpl; [constructor|].
  econstructor; [|exact IH]. constructor. apply N.eqb_refl.
Qed.

(** Group 1 of a pattern whose group is [p+]. *)
Lemma match_at_many1 pat p s g rest :
  group pat = many1 p -> match_at pat s = Some (g, rest) ->
  g <> [] /\ forallb p g = true.
Proof.
  intros Hg H. apply match_at_sound in H as (s2 & _ & M & _).
  rewrite Hg in M. apply matches_many1 in M as (w & E & Hn & Hw).
  apply app_inv_tail in E. now subst w.
Qed.

(** ** Sorting *)

Section Sorting.

Context {A K : Type} (ltb : K -> K -> bool) (key : A -> K).

Lemma insert_by_perm (x : A) (l : list A) :
  Permutation (insert_by ltb key x l) (x :: l).
Proof.
  induction l as [|y l IH]; simpl; [reflexivity|].
  destruct (ltb (key y) (key x)); [|reflexivity].
  rewrite IH. apply perm_swap.
Qed.

Lemma sort_by_perm (l : list A) : Permutation (sort_by ltb key l) l.
Proof.
  induction l as [|x l IH]; simpl; [reflexivity|].
  rewrite insert_by_perm. now constructor.
Qed.

Hypothesis ltb_asym : forall a b, ltb a b = true -> ltb b a = false.
Hypothesis ltb_ntrans :
  forall a b c, ltb b a = false -> ltb c b = false -> ltb c a = false.

Lemma insert_by_sorted (x : A) (l : list A) :
  StronglySorted (key_le ltb key) l ->
  StronglySorted (key_le ltb key) (insert_by ltb key x l).
Proof.
  induction 1 as [|y l Hs IH Hy]; simpl.
  - repeat constructor.
  - destruct (ltb (key y) (key x)) eqn:E.
    + constructor; [exact IH|].
      apply Permutation_Forall with (x :: l);
        [symmetry; apply insert_by_perm|].
      constructor; [now apply ltb_asym | exact Hy].
    + constructor; [now constructor|].
      constructor; [exact E|].
      eapply Forall_impl; [|exact Hy].
      intros z Hz. unfold key_le in *. now apply ltb_ntrans with (key y).
Qed.

Lemma sort_by_sorted (l : list A) :
  StronglySorted (key_le ltb key) (sort_by ltb key l).
Proof.
  induction l as [|x l IH]; simpl; [constructor|].
  now apply insert_by_sorted.
Qed.

Hypothesis ltb_total :
  forall a b, ltb a b = false -> ltb b a = false -> a = b.

(** With pairwise different keys the order is strict. *)
Lemma sorted_strict (l : list A) :
  NoDup (map key l) -> StronglySorted (key_le ltb key) l ->
  StronglySorted (fun x y => ltb (key x) (key y) = true) l.
Proof.
  intros Hnd Hs. induction Hs as [|x l Hs IH Hx]; [constructor|].
  simpl in Hnd. inversion Hnd as [|k ks Hin Hnd']; subst.
  constructor; [now apply IH|].
  rewrite Forall_forall in *. intros y Hy.
  destruct (ltb (key x) (key y)) eqn:E; [reflexivity|].
  exfalso. apply Hin.
  rewrite (ltb_total _ _ E (Hx y Hy)). now apply in_map.
Qed.

Lemma sort_by_strict (l : list A) :
  NoDup (map key l) ->
  StronglySorted (fun x y => ltb (key x) (key y) = true) (sort_by ltb key l).
Proof.
  intro Hnd. apply sorted_strict; [|apply sort_by_sorted].
  apply Permutation_NoDup with (map key l); [|exact Hnd].
  apply Permutation_map. symmetry. apply sort_by_perm.
Qed.

End Sorting.

Lemma StronglySorted_weaken {A : Type} (R1 R2 : A -> A -> Prop) (l : list A) :
  (forall a b, R1 a b -> R2 a b) -> StronglySorted R1 l -> StronglySorted R2 l.
Proof.
  intros HR. induction 1 as [|x l Hs IH Hx]; constructor; [exact IH|].
  eapply Forall_impl; [|exact Hx]. intros y. apply HR.
Qed.

Lemma StronglySorted_map {A B : Type} (R : B -> B -> Prop) (f : A -> B)
    (l : list A) :
  StronglySorted (fun a b => R (f a) (f b)) l -> StronglySorted R (map f l).
Proof.
  induction 1 as [|x l Hs IH Hx]; simpl; constructor; [exact IH|].
  rewrite Forall_forall in *. intros y Hy.
  apply in_map_iff in Hy as (b & <- & Hb). now apply Hx.
Qed.

Lemma sort_by_num_strict (l : list Episode) :
  NoDup (map ep_num l) ->
  StronglySorted (fun a b => (ep_num a < ep_num b)%Z) (sort_by Z.ltb ep_num l).
Proof.
  intro Hnd.
  apply StronglySorted_weaken
    with (R1 := fun x y => Z.ltb (ep_num x) (ep_num y) = true).
  - intros a b H. now apply Z.ltb_lt.
  - apply sort_by_strict; [| | |exact Hnd].
    + intros a b H. apply Z.ltb_lt in H. apply Z.ltb_ge. lia.
    + intros a b c H1 H2. apply Z.ltb_ge in H1, H2. apply Z.ltb_ge. lia.
    + intros a b H1 H2. apply Z.ltb_ge in H1, H2. lia.
Qed.

Lemma sort_by_keys_strict (l : list (pystr * list VideoInfo)) :
  NoDup (map fst l) ->
  StronglySorted (fun a b => pystr_ltb (fst a) (fst b) = true)
    (sort_by pystr_ltb fst l).
Proof.
  apply sort_by_strict.
  - apply pystr_ltb_asym.
  - intros a b c H1 H2.
    destruct (pystr_ltb c a) eqn:E; [|reflexivity].
    destruct (pystr_ltb b c) eqn:E2.
    + now rewrite (pystr_ltb_trans _ _ _ E2 E) in H1.
    + rewrite (pystr_ltb_total _ _ H2 E2) in E. congruence.
  - apply pystr_ltb_total.
Qed.

(** ** Episode resolution *)

Lemma find_snoc {A : Type} (f : A -> bool) (l : list A) (x : A) :
  find f (l ++ [x]) =
  match find f l with
  | Some y => Some y
  | None => if f x then Some x else None
  end.
Proof.
  induction l as [|y l IH]; simpl; [reflexivity|].
  destruct (f y); [reflexivity | exact IH].
Qed.

Lemma numbered_snoc (urls : list pystr) (u : pystr) :
  numbered (urls ++ [u]) = add_episode (numbered urls) u.
Proof. unfold numbered. now rewrite fold_left_app. Qed.

Lemma existsb_num_filter (n : Z) (eps : list Episode) :
  existsb (fun e => (ep_num e =? n)%Z) eps = false <->
  filter (fun e => (ep_num e =? n)%Z) eps = [].
Proof.
  induction eps as [|e eps IH]; simpl; [tauto|].
  destruct (ep_num e =? n)%Z; simpl; [split; discriminate | exact IH].
Qed.

Lemma existsb_num_In (n : Z) (eps : list Episode) :
  existsb (fun e => (ep_num e =? n)%Z) eps = false ->
  ~ In n (map ep_num eps).
Proof.
  induction eps as [|e eps IH]; simpl; [tauto|].
  intros H. apply orb_false_elim in H as [H1 H2].
  apply Z.eqb_neq in H1. intros [E | E]; [congruence | now apply IH].
Qed.

Lemma numbered_inv (urls : list pystr) :
  NoDup (map ep_num (numbered urls))
  /\ Forall (episode_from urls) (numbered urls).
Proof.
  induction urls as [|u urls [Hnd Hall]] using rev_ind.
  - split; constructor.
  - rewrite numbered_snoc. unfold add_episode.
    assert (Hall' : Forall (episode_from (urls ++ [u])) (numbered urls)).
    { eapply Forall_impl; [|exact Hall].
      intros e (H1 & H2 & H3 & H4).
      split; [exact H1|]. split; [apply in_or_app; now left|]. now split. }
    destruct (episode_number u) as [m|] eqn:Eu; [|now split].
    destruct (m >? 0)%Z eqn:Em; simpl; [|now split].
    destruct (existsb (fun e => (ep_num e =? m)%Z) (numbered urls)) eqn:Ex;
      simpl; [now split|].
    split.
    + rewrite map_app. simpl.
      apply Permutation_NoDup with (m :: map ep_num (numbered urls)).
      * apply Permutation_cons_append.
      * constructor; [now apply existsb_num_In | exact Hnd].
    + apply Forall_app. split; [exact Hall'|].
      constructor; [|constructor].
      split; [apply Z.gtb_lt in Em; simpl; lia|].
      split; [apply in_or_app; right; now left|]. now split.
Qed.

(** First wins: the episodes numbered [n] are the one episode made from the
    first URL, in the order of the loop, that carries [n]. *)
Lemma numbered_first (n : Z) (urls : list pystr) :
  (0 < n)%Z ->
  filter (fun e => (ep_num e =? n)%Z) (numbered urls) =
  match find (has_number n) urls with
  | Some u => [mkEpisode n (episode_title n) u]
  | None => []
  end.
Proof.
  intro Hn. induction urls as [|u urls IH] using rev_ind; [reflexivity|].
  rewrite numbered_snoc, find_snoc. unfold add_episode, has_number at 2.
  destruct (episode_number u) as [m|] eqn:Eu.
  2: { rewrite IH. now destruct (find (has_number n) urls). }
  destruct (m >? 0)%Z eqn:Em; simpl.
  2: { rewrite IH. destruct (find (has_number n) urls); [reflexivity|].
       destruct (m =? n)%Z eqn:E; [|reflexivity].
       apply Z.eqb_eq in E. rewrite Z.gtb_ltb in Em.
       apply Z.ltb_ge in Em. lia. }
  destruct (existsb (fun e => (ep_num e =? m)%Z) (numbered urls)) eqn:Ex;
    simpl.
  - rewrite IH. destruct (find (has_number n) urls) eqn:Ef; [reflexivity|].
    destruct (m =? n)%Z eqn:E; [|reflexivity].
    apply Z.eqb_eq in E. subst m.
    assert (Hx : existsb (fun e => (ep_num e =? n)%Z) (numbered urls) = false)
      by now apply existsb_num_filter.
    congruence.
  - rewrite filter_app, IH. simpl.
    destruct (m =? n)%Z eqn:E.
    + apply Z.eqb_eq in E. subst m.
      apply existsb_num_filter in Ex. rewrite IH in Ex.
      destruct (find (has_number n) urls); [discriminate | reflexivity].
    + rewrite app_nil_r. now destruct (find (has_number n) urls).
Qed.

Lemma sort_by_single {A K : Type} (ltb : K -> K -> bool) (key : A -> K)
    (x : A) : sort_by ltb key [x] = [x].
Proof. reflexivity. Qed.

(** The three cases of [resolve_episodes]. *)
Lemma resolve_episodes_cases (urls : list pystr) :
  (numbered urls <> []
   /\ resolve_episodes urls = sort_by Z.ltb ep_num (numbered urls))
  \/ (numbered urls = [] /\ urls = [] /\ resolve_episodes urls = [])
  \/ (numbered urls = [] /\ exists first rest,
        urls = first :: rest
        /\ resolve_episodes urls = [mkEpisode 1 (U "正片") first]).
Proof.
  unfold resolve_episodes. fold (numbered urls).
  destruct (numbered urls) as [|e eps] eqn:E.
  - right. destruct urls as [|first rest].
    + left. now repeat split.
    + right. split; [reflexivity|]. now exists first, rest.
  - left. split; [discriminate | reflexivity].
Qed.

(** *** The calls of [int] that can raise *)

Lemma py_int_returns (s : pystr) :
  length s <= int_max_str_digits -> py_int s = Returned (int_of_digits s).
Proof.
  intro H. unfold py_int.
  destruct (Nat.ltb_spec int_max_str_digits (length s)) as [Hlt|_];
    [lia | reflexivity].
Qed.

Lemma py_int_cases (s : pystr) :
  (length s <= int_max_str_digits /\ py_int s = Returned (int_of_digits s))
  \/ (int_max_str_digits < length s
      /\ py_int s = Raises (int_limit_text (length s))).
Proof.
  unfold py_int.
  destruct (Nat.ltb_spec int_max_str_digits (length s)) as [Hlt|Hle];
    [right | left]; now split.
Qed.

(** A turn that returns is the turn of [add_episode]. *)
Lemma episode_turn_returned (episodes episodes' : list Episode)
    (url : pystr) :
  episode_turn episodes url = Returned episodes' ->
  episodes' = add_episode episodes url.
Proof.
  unfold episode_turn, add_episode, episode_number.
  destruct (search_group num_pattern url) as [g|]; simpl.
  - destruct (py_int_cases g) as [[_ ->] | [_ ->]]; [|discriminate].
    intro H. now injection H as <-.
  - intro H. now injection H as <-.
Qed.

(** A turn raises only on a URL with more digits than [int] converts, and
    with the text of that exception. *)
Lemma episode_turn_raises (episodes : list Episode) (url msg : pystr) :
  episode_turn episodes url = Raises msg ->
  exists g,
    search_group num_pattern url = Some g
    /\ int_max_str_digits < length g
    /\ msg = int_limit_text (length g).
Proof.
  unfold episode_turn.
  destruct (search_group num_pattern url) as [g|]; [|discriminate].
  destruct (py_int_cases g) as [[_ ->] | [Hlt ->]]; [discriminate|].
  intro H. injection H as <-. now exists g.
Qed.

Lemma episode_turn_returns (episodes : list Episode) (url : pystr) :
  (forall g, search_group num_pattern url = Some g ->
             length g <= int_max_str_digits) ->
  episode_turn episodes url = Returned (add_episode episodes url).
Proof.
  intro H. destruct (episode_turn episodes url) as [eps|msg] eqn:E.
  - now rewrite (episode_turn_returned _ _ _ E).
  - apply episode_turn_raises in E as (g & Hg & Hlt & _).
    apply H in Hg. lia.
Qed.

Lemma episode_loop_returned (urls : list pystr) :
  forall episodes episodes',
    episode_loop urls episodes = Returned episodes' ->
    episodes' = fold_left add_episode urls episodes.
Proof.
  induction urls as [|u urls IH]; intros eps eps'; simpl.
  - intro H. now injection H as <-.
  - destruct (episode_turn eps u) as [eps1|msg] eqn:E; [|discriminate].
    apply episode_turn_returned in E as ->. apply IH.
Qed.

Lemma episode_loop_raises (urls : list pystr) :
  forall episodes msg,
    episode_loop urls episodes = Raises msg ->
    exists u g,
      In u urls
      /\ search_group num_pattern u = Some g
      /\ int_max_str_digits < length g
      /\ msg = int_limit_text (length g).
Proof.
  induction urls as [|u urls IH]; intros eps msg; simpl; [discriminate|].
  destruct (episode_turn eps u) as [eps1|msg1] eqn:E.
  - intro H. apply IH in H as (u' & g & Hin & H).
    exists u', g. split; [now right | exact H].
  - intro H. injection H as <-.
    apply episode_turn_raises in E as (g & H).
    exists u, g. split; [now left | exact H].
Qed.

(** Episode resolution that returns gives the list of [resolve_episodes]. *)
Lemma try_resolve_episodes_returned (urls : list pystr)
    (episodes : list Episode) :
  try_resolve_episodes urls = Returned episodes ->
  episodes = resolve_episodes urls.
Proof.
  unfold try_resolve_episodes, resolve_episodes.
  destruct (episode_loop urls []) as [eps|msg] eqn:E; [|discriminate].
  apply episode_loop_returned in E as ->.
  intro H. now injection H as <-.
Qed.

Lemma try_resolve_episodes_raises (urls : list pystr) (msg : pystr) :
  try_resolve_episodes urls = Raises msg ->
  exists u g,
    In u urls
    /\ search_group num_pattern u = Some g
    /\ int_max_str_digits < length g
    /\ msg = int_limit_text (length g).
Proof.
  unfold try_resolve_episodes.
  destruct (episode_loop urls []) as [eps|msg1] eqn:E; [discriminate|].
  intro H. injection H as <-. now apply episode_loop_raises in E.
Qed.

(** It returns when [int] raises on no URL. *)
Lemma try_resolve_episodes_returns (urls : list pystr) :
  int_returns urls ->
  try_resolve_episodes urls = Returned (resolve_episodes urls).
Proof.
  intro H. destruct (try_resolve_episodes urls) as [eps|msg] eqn:E.
  - now rewrite (try_resolve_episodes_returned _ _ E).
  - apply try_resolve_episodes_raises in E as (u & g & Hin & Hg & Hlt & _).
    specialize (H u g Hin Hg). lia.
Qed.

Lemma episodes_checked_returned (I : Interp) (html : pystr)
    (episodes : list Episode) :
  episodes_checked I html = Returned episodes ->
  episodes = episodes_of I html.
Proof. apply try_resolve_episodes_returned. Qed.

Lemma episodes_checked_returns (I : Interp) (html : pystr) :
  int_returns (found_video_urls html) ->
  episodes_checked I html = Returned (episodes_of I html).
Proof.
  intro H. apply try_resolve_episodes_returns.
  intros u g Hin. apply H. now apply (set_list_In I).
Qed.

Lemma filter_perm_single {A : Type} (f : A -> bool) (l l' : list A) (x : A) :
  Permutation l l' -> filter f l' = [x] -> filter f l = [x].
Proof.
  intros HP Hf.
  assert (H : Permutation (filter f l) (filter f l')).
  { clear Hf. induction HP as [|a l l' HP IH|a b l|l l' l'' H1 IH1 H2 IH2];
      simpl.
    - constructor.
    - destruct (f a); [now constructor | exact IH].
    - destruct (f a), (f b); try reflexivity. apply perm_swap.
    - now transitivity (filter f l'). }
  rewrite Hf in H. symmetry in H. now apply Permutation_length_1_inv in H.
Qed.


Lemma episodes_of_inv (I : Interp) (html : pystr) :
  StronglySorted (fun a b => (ep_num a < ep_num b)%Z) (episodes_of I html)
  /\ Forall (fun e => (0 < ep_num e)%Z) (episodes_of I html)
  /\ NoDup (map ep_num (episodes_of I html)).
Proof.
  unfold episodes_of.
  set (urls := set_list I (found_video_urls html)).
  destruct (numbered_inv urls) as [Hnd Hall].
  destruct (resolve_episodes_cases urls)
    as [[_ ->] | [(_ & _ & ->) | (_ & first & rest & _ & ->)]].
  - split; [now apply sort_by_num_strict|]. split.
    + apply Permutation_Forall with (numbered urls);
        [symmetry; apply sort_by_perm|].
      eapply Forall_impl; [|exact Hall]. now intros e [H _].
    + apply Permutation_NoDup with (map ep_num (numbered urls)); [|exact Hnd].
      apply Permutation_map. symmetry. apply sort_by_perm.
  - repeat constructor.
  - repeat constructor; simpl; try lia; try tauto.
Qed.





(** C1, as the code has it: when two different URLs found on a page carry
    the same positive episode number and [int] raises on no URL of the page
    (none has more digits in front of its extension than [int] converts),
    episode resolution returns a list that holds exactly one episode with
    that number, and its URL is the first URL carrying the number in the
    order in which the interpreter iterates the set of URLs.  Two runs that
    iterate the set in the same order give the same episode list. *)
Theorem C1_first_in_iteration_order (I : Interp) (html u1 u2 : pystr)
    (n : Z) :
  In u1 (found_video_urls html) -> In u2 (found_video_urls html) ->
  u1 <> u2 ->
  episode_number u1 = Some n -> episode_number u2 = Some n -> (0 < n)%Z ->
  int_returns (found_video_urls html) ->
  exists u episodes,
    find (has_number n) (set_list I (found_video_urls html)) = Some u
    /\ In u (found_video_urls html)
    /\ episodes_checked I html = Returned episodes
    /\ filter (fun e => (ep_num e =? n)%Z) episodes
       = [mkEpisode n (episode_title n) u]
    /\ forall I',
         set_list I' (found_video_urls html)
         = set_list I (found_video_urls html) ->
         episodes_checked I' html = Returned episodes.
Proof.
  intros H1 _ _ E1 _ Hn Hint.
  set (urls := set_list I (found_video_urls html)).
  destruct (find (has_number n) urls) as [u|] eqn:Ef.
  2: { exfalso. apply (set_list_In I) in H1.
       pose proof (find_none _ _ Ef _ H1) as Hf.
       unfold has_number in Hf. rewrite E1, Z.eqb_refl in Hf. discriminate. }
  exists u, (episodes_of I html). split; [reflexivity|].
  apply find_some in Ef as Hu. destruct Hu as [Hu _].
  split; [now apply (set_list_In I)|].
  split; [now apply episodes_checked_returns|].
  pose proof (numbered_first n urls Hn) as Hfirst. rewrite Ef in Hfirst.
  split.
  - unfold episodes_of. fold urls.
    destruct (resolve_episodes_cases urls)
      as [[_ ->] | [(Hc & _) | (Hc & _)]];
      try (rewrite Hc in Hfirst; discriminate).
    apply filter_perm_single with (numbered urls);
      [apply sort_by_perm | exact Hfirst].
  - intros I' HI'. rewrite (episodes_checked_returns I' html Hint).
    unfold episodes_of. now rewrite HI'.
Qed.

Lemma C1_first_in_iteration_order_witness :
  exists u episodes,
    find (has_number 5) (set_list (last_seen_interp 0)
                           (found_video_urls page_two_fives)) = Some u
    /\ In u (found_video_urls page_two_fives)
    /\ episodes_checked (last_seen_interp 0) page_two_fives
       = Returned episodes
    /\ filter (fun e => (ep_num e =? 5)%Z) episodes
       = [mkEpisode 5 (episode_title 5) u]
    /\ forall I',
         set_list I' (found_video_urls page_two_fives)
         = set_list (last_seen_interp 0) (found_video_urls page_two_fives) ->
         episodes_checked I' page_two_fives = Returned episodes.
Proof.
  apply (C1_first_in_iteration_order (last_seen_interp 0) page_two_fives
           url_a5 url_b5 5%Z).
  - vm_compute. now left.
  - vm_compute. right. now left.
  - apply pystr_eqb_neq. now vm_compute.
  - now vm_compute.
  - now vm_compute.
  - reflexivity.
  - intros u g Hin Hg. vm_compute in Hin.
    destruct Hin as [<- | [<- | []]]; vm_compute in Hg;
      injection Hg as <-; apply Nat.leb_le; reflexivity.
Defined.

(** C1 as the specification words it fails: on a page where [url_a5] is seen
    first and [url_b5] second, both ending in [/5.mp4], an interpreter that
    iterates the set in the reverse order gives episode 5 the second URL,
    and the episode list differs from the one of an interpreter that
    iterates in the order of insertion.  When the common number is 0
    (both URLs end in [/0.mp4]) no episode carries it: the guard [num > 0]
    skips both URLs and the single-episode rule applies.  And when the page
    of the two fives has a third URL with 4301 digits in front of its
    extension, [int] raises on it and episode resolution returns no list,
    so no episode 5 either. *)
Lemma C1_counterexample :
  (found_video_urls page_two_fives = [url_a5; url_b5]
   /\ url_a5 <> url_b5
   /\ episode_number url_a5 = Some 5%Z
   /\ episode_number url_b5 = Some 5%Z
   /\ episodes_checked (first_seen_interp 0) page_two_fives
      = Returned [mkEpisode 5 (episode_title 5) url_a5]
   /\ episodes_checked (last_seen_interp 0) page_two_fives
      = Returned [mkEpisode 5 (episode_title 5) url_b5]
   /\ episodes_checked (first_seen_interp 0) page_two_fives
      <> episodes_checked (last_seen_interp 0) page_two_fives)
  /\ (found_video_urls page_two_zeros = [url_a0; url_b0]
      /\ url_a0 <> url_b0
      /\ episode_number url_a0 = Some 0%Z
      /\ episode_number url_b0 = Some 0%Z
      /\ episodes_checked (first_seen_interp 0) page_two_zeros
         = Returned [mkEpisode 1 (U "正片") url_a0])
  /\ (found_video_urls page_two_fives_long
      = [url_a5; url_b5; url_long_sevens]
      /\ episodes_checked (first_seen_interp 0) page_two_fives_long
         = Raises (int_limit_text 4301)
      /\ episodes_checked (last_seen_interp 0) page_two_fives_long
         = Raises (int_limit_text 4301)).
Proof.
  repeat split; now vm_compute.
Qed.

(** ** [extract_author] *)

Lemma first_author_find (patterns : list pattern) (title : pystr) :
  first_author patterns title =
  match find (passes title) patterns with
  | Some p =>
      match search_group p title with
      | Some g => strip g
      | None => uncategorized
      end
  | None => uncategorized
  end.
Proof.
  induction patterns as [|p ps IH]; cbn [first_author find];
    [reflexivity|].
  destruct (passes title p) eqn:Ep; unfold passes in Ep;
    destruct (search_group p title) as [g|]; try discriminate;
    cbv zeta; try rewrite Ep; try reflexivity; exact IH.
Qed.

Lemma first_author_length (patterns : list pattern) (title : pystr) :
  (2 <= length (first_author patterns title) <= 50
   /\ strip (first_author patterns title) = first_author patterns title)
  \/ first_author patterns title = uncategorized.
Proof.
  induction patterns as [|p ps IH]; cbn [first_author]; [now right|].
  destruct (search_group p title) as [g|]; [|exact IH]. cbv zeta.
  destruct ((2 <=? length (strip g))%nat && (length (strip g) <=? 50)%nat)
    eqn:E; [|exact IH].
  left. apply andb_prop in E as [E1 E2].
  apply Nat.leb_le in E1, E2. split; [lia | apply strip_idem].
Qed.

(** C3: the author inferred from any title has between 2 and 50 characters
    once trimmed, or is the sentinel [未分类]; it is the trimmed group of the
    first of the four patterns, in their listed order, whose group passes the
    length check, and the sentinel when no pattern passes; the two examples
    of the specification evaluate as stated. *)
Theorem C3_author_inference (title : pystr) :
  (2 <= length (strip (extract_author title)) <= 50
   \/ extract_author title = uncategorized)
  /\ extract_author title =
     match find (passes title) author_patterns with
     | Some p =>
         match search_group p title with
         | Some g => strip g
         | None => uncategorized
         end
     | None => uncategorized
     end
  /\ length author_patterns = 4
  /\ extract_author (U "【漫画】张三「第一话】") = U "张三"
  /\ extract_author (U "random text") = U "未分类".
Proof.
  unfold extract_author. split; [|split; [|split; [|split]]].
  - destruct (first_author_length author_patterns title) as [[H ->] | H];
      [now left | now right].
  - apply first_author_find.
  - reflexivity.
  - now vm_compute.
  - now vm_compute.
Qed.

(** ** [video_id] *)

Lemma archive_match_sound (s g rest : pystr) :
  match_at archive_pattern s = Some (g, rest) ->
  archive_token s [] g rest.
Proof.
  intro H. destruct (match_at_many1 archive_pattern isdecimal s g rest
                       eq_refl H) as [Hn Hd].
  apply match_at_sound in H as (s2 & M1 & _ & M3).
  change (before archive_pattern) with (txt (U "/archives/")) in M1.
  change (after archive_pattern) with (txt (U ".html")) in M3.
  apply matches_txt in M1, M3. subst s2.
  repeat split; assumption.
Qed.

Lemma archive_match_complete (digits post : pystr) :
  digits <> [] -> forallb isdecimal digits = true ->
  exists m,
    match_at archive_pattern (U "/archives/" ++ digits ++ U ".html" ++ post)
    = Some m.
Proof.
  intros Hn Hd.
  apply match_at_complete
    with (s1 := digits ++ U ".html" ++ post) (s2 := U ".html" ++ post)
         (rest := post).
  - apply matches_txt_intro.
  - now apply matches_many1_intro.
  - apply matches_txt_intro.
Qed.

(** A run of digits in front of a dot is determined by the text. *)
Lemma digit_run_unique (a b x y : pystr) :
  forallb isdecimal a = true -> forallb isdecimal b = true ->
  a ++ 46%N :: x = b ++ 46%N :: y -> a = b.
Proof.
  revert b. induction a as [|c a IH]; intros [|d b] Ha Hb E; simpl in *.
  - reflexivity.
  - injection E as <- _. apply andb_prop in Hb as [Hb _]. discriminate.
  - injection E as -> _. apply andb_prop in Ha as [Ha _]. discriminate.
  - injection E as -> E.
    apply andb_prop in Ha as [_ Ha]. apply andb_prop in Hb as [_ Hb].
    f_equal. now apply IH with (b := b).
Qed.

Lemma app_same_length {A : Type} (a b c d : list A) :
  a ++ b = c ++ d -> length a = length c -> a = c /\ b = d.
Proof.
  revert c. induction a as [|x a IH]; intros [|y c] E L; simpl in *;
    try discriminate; [now split|].
  injection E as -> E. injection L as L.
  destruct (IH _ E L) as [-> ->]. now split.
Qed.

Lemma archive_token_unique (url pre d post pre' d' post' : pystr) :
  archive_token url pre d post -> archive_token url pre' d' post' ->
  length pre = length pre' -> d = d'.
Proof.
  intros (E & _ & Hd) (E' & _ & Hd') L. rewrite E in E'.
  apply app_same_length in E' as [_ E']; [|exact L].
  apply app_inv_head in E'.
  change (U ".html") with (46%N :: U "html") in E'.
  now apply digit_run_unique in E'.
Qed.

(** [re.search] with the archive pattern finds the leftmost token. *)
Lemma archive_search_some (url g : pystr) :
  search_group archive_pattern url = Some g ->
  exists pre post,
    archive_token url pre g post
    /\ forall pre' d' post', archive_token url pre' d' post' ->
                             length pre <= length pre'.
Proof.
  unfold search_group. intro H.
  destruct (re_search archive_pattern url) as [[g' rest]|] eqn:E;
    [|discriminate].
  simpl in H. injection H as ->.
  apply re_search_sound in E as (pre & s' & -> & Hm & Hleft).
  apply archive_match_sound in Hm as (Es & Hn & Hd).
  exists pre, rest. split.
  - repeat split; [|exact Hn | exact Hd]. now rewrite Es.
  - intros pre' d' post' (E' & Hn' & Hd').
    destruct (Nat.le_gt_cases (length pre) (length pre')) as [L | L];
      [exact L | exfalso].
    specialize (Hleft pre' _ E' L).
    destruct (archive_match_complete d' post' Hn' Hd') as [m Hm].
    congruence.
Qed.

Lemma archive_search_none (url : pystr) :
  search_group archive_pattern url = None <->
  forall pre d post, ~ archive_token url pre d post.
Proof.
  split.
  - intros H pre d post (E & Hn & Hd).
    destruct (archive_match_complete d post Hn Hd) as [m Hm].
    destruct (re_search_complete archive_pattern pre _ m Hm) as [m' Hs].
    unfold search_group in H. rewrite E, Hs in H. discriminate.
  - intro H. destruct (search_group archive_pattern url) as [g|] eqn:E;
      [|reflexivity].
    apply archive_search_some in E as (pre & post & Ht & _).
    now apply H in Ht.
Qed.

(** C2, as the code has it: when the URL holds an archive token
    [/archives/<digits>.html], the id is the digit string of the leftmost
    token (of the token, when there is one); when it holds none, the id is
    the first eight characters of the decimal writing of the interpreter's
    hash of the URL, so it is the same for every interpreter that gives the
    URL the same hash. *)
Theorem C2_video_id (I : Interp) (page_url : pystr) :
  (forall pre digits post,
     archive_token page_url pre digits post ->
     exists pre0 post0,
       archive_token page_url pre0 (video_id I page_url) post0
       /\ forall pre' d' post',
            archive_token page_url pre' d' post' ->
            length pre0 <= length pre'
            /\ (length pre' = length pre0 -> d' = video_id I page_url))
  /\ ((forall pre digits post, ~ archive_token page_url pre digits post) ->
      video_id I page_url = firstn 8 (str_of_int (py_hash I page_url)))
  /\ (forall I', py_hash I' page_url = py_hash I page_url ->
                 video_id I' page_url = video_id I page_url).
Proof.
  unfold video_id. split; [|split].
  - intros pre digits post Ht.
    destruct (search_group archive_pattern page_url) as [g|] eqn:E.
    + apply archive_search_some in E as (pre0 & post0 & H0 & Hleft).
      exists pre0, post0. split; [exact H0|].
      intros pre' d' post' Ht'. split; [now apply Hleft with d' post'|].
      intro L. now apply archive_token_unique with (1 := Ht') (2 := H0).
    + exfalso. now apply (proj1 (archive_search_none page_url) E) in Ht.
  - intro H. apply archive_search_none in H. now rewrite H.
  - intros I' H. destruct (search_group archive_pattern page_url);
      [reflexivity | now rewrite H].
Qed.

Lemma C2_video_id_witness :
  exists pre0 post0,
    archive_token url_archive pre0
      (video_id (first_seen_interp 0) url_archive) post0
    /\ forall pre' d' post',
         archive_token url_archive pre' d' post' ->
         length pre0 <= length pre'
         /\ (length pre' = length pre0 ->
             d' = video_id (first_seen_interp 0) url_archive).
Proof.
  apply (proj1 (C2_video_id (first_seen_interp 0) url_archive))
    with (pre := U "https://tv.mikiacg.org") (digits := U "123") (post := []).
  repeat split; now vm_compute.
Defined.

(** C2 as the specification words it fails: a URL without archive token gets
    different ids from two interpreters that hash strings with different
    salts, so the id is not a function of the URL alone. *)
Lemma C2_counterexample :
  (forall pre d post, ~ archive_token url_about pre d post)
  /\ video_id (first_seen_interp 0) url_about = U "16763281"
  /\ video_id (first_seen_interp 1) url_about = U "19965661"
  /\ video_id (first_seen_interp 0) url_about
     <> video_id (first_seen_interp 1) url_about.
Proof.
  split; [|split; [|split]].
  - apply archive_search_none. now vm_compute.
  - now vm_compute.
  - now vm_compute.
  - now vm_compute.
Qed.

(** ** [extract_from_page] *)

Lemma first_match_none (patterns : list pattern) (html : pystr) :
  (forall p, In p patterns -> re_search p html = None) ->
  first_match patterns html = None.
Proof.
  induction patterns as [|p ps IH]; intro H; simpl; [reflexivity|].
  unfold search_group. rewrite (H p (or_introl eq_refl)). simpl.
  apply IH. intros q Hq. apply H. now right.
Qed.

(** C6: when the page is fetched (at the first attempt, or after failed
    ones) and none of the title patterns matches it, the scraper returns no
    record, neither one with an empty title nor a failure record. *)
Theorem C6_no_title_no_record (I : Interp) (net : nat -> response)
    (page_url html : pystr) (k : nat) :
  k < 3 ->
  (forall j, j < k -> exists msg, net j = Raised msg) ->
  net k = Body html ->
  (forall p, In p title_patterns -> re_search p html = None) ->
  extract_from_page I net page_url = None.
Proof.
  intros Hk Hfail Hbody Hnone.
  assert (Hp : parse_page I page_url html = Returned None).
  { unfold parse_page, extract_title.
    now rewrite (first_match_none _ _ Hnone). }
  unfold extract_from_page. simpl seq. cbn [attempt_loop]. unfold try_body.
  destruct k as [|[|[|k]]]; try lia.
  - now rewrite Hbody, Hp.
  - destruct (Hfail 0) as [m0 ->]; [lia|]. simpl. now rewrite Hbody, Hp.
  - destruct (Hfail 0) as [m0 ->]; [lia|].
    destruct (Hfail 1) as [m1 ->]; [lia|]. simpl. now rewrite Hbody, Hp.
Qed.

Lemma C6_no_title_no_record_witness :
  extract_from_page (first_seen_interp 0) (net_always (Body page_no_title))
    url_archive = None.
Proof.
  apply (C6_no_title_no_record (first_seen_interp 0)
           (net_always (Body page_no_title)) url_archive page_no_title 0).
  - lia.
  - intros j Hj. lia.
  - reflexivity.
  - intros p Hp. unfold title_patterns in Hp.
    destruct Hp as [<- | [<- | [<- | []]]]; now vm_compute.
Defined.

(** Every URL the page patterns capture starts with the scheme, so it is
    not empty. *)
Lemma found_video_urls_nonempty (html u : pystr) :
  In u (found_video_urls html) -> u <> [].
Proof.
  unfold found_video_urls. intro H.
  apply in_flat_map in H as (p & Hp & Hu).
  apply finditer_from_match in Hu as (pre & s' & rest & _ & Hm).
  apply match_at_group_length in Hm.
  assert (Hmin : forallb (fun p => Nat.leb 1 (min_len (group p))) video_patterns
                 = true) by now vm_compute.
  rewrite forallb_forall in Hmin. specialize (Hmin p Hp).
  apply Nat.leb_le in Hmin. intros ->. simpl in Hm. lia.
Qed.

(** A record the scraper returns comes from a parsed page or is a failure
    record. *)
Lemma attempt_loop_some (I : Interp) (net : nat -> response)
    (page_url : pystr) (attempts : list nat) (r : VideoInfo) :
  attempt_loop I net page_url attempts = Some r ->
  (exists html, parse_page I page_url html = Returned (Some r))
  \/ (exists msg, r = failed_record I page_url msg).
Proof.
  induction attempts as [|a rest IH]; simpl; [discriminate|].
  destruct (try_body I net page_url a) as [result | msg] eqn:E.
  - intros ->. left. unfold try_body in E.
    destruct (net a) as [html | m]; [now exists html | discriminate].
  - destruct (a =? 2)%nat; [|exact IH].
    intro H. injection H as <-. right. now exists msg.
Qed.

(** The episodes and the primary URL of a parsed page are those of episode
    resolution on the page. *)
Lemma parse_page_episodes (I : Interp) (page_url html : pystr)
    (r : VideoInfo) :
  parse_page I page_url html = Returned (Some r) ->
  v_episodes r = episodes_of I html
  /\ v_video_url r = primary_url (set_list I (found_video_urls html))
  /\ v_error r = None.
Proof.
  unfold parse_page.
  destruct (negb (truthy (extract_title html))); [discriminate|].
  destruct (try_resolve_episodes (set_list I (found_video_urls html)))
    as [episodes|msg] eqn:E; [|discriminate].
  apply try_resolve_episodes_returned in E as ->.
  intro H. injection H as <-. now repeat split.
Qed.

(** The title of a parsed page is not empty, and the author is inferred
    from it. *)
Lemma parse_page_title (I : Interp) (page_url html : pystr)
    (r : VideoInfo) :
  parse_page I page_url html = Returned (Some r) ->
  truthy (v_title r) = true
  /\ v_author r = extract_author (v_title r)
  /\ v_page_url r = page_url
  /\ v_id r = video_id I page_url.
Proof.
  unfold parse_page.
  destruct (truthy (extract_title html)) eqn:Et; [|discriminate].
  cbn [negb].
  destruct (try_resolve_episodes (set_list I (found_video_urls html)))
    as [episodes|msg]; [|discriminate].
  intro H. injection H as <-. now repeat split.
Qed.

Lemma resolve_episodes_nonempty (u : pystr) (urls : list pystr) :
  resolve_episodes (u :: urls) <> [].
Proof.
  destruct (resolve_episodes_cases (u :: urls))
    as [[Hn ->] | [(_ & He & _) | (_ & first & rest & _ & ->)]];
    try discriminate.
  intro H. apply Hn.
  pose proof (sort_by_perm Z.ltb ep_num (numbered (u :: urls))) as HP.
  rewrite H in HP. now apply Permutation_nil in HP.
Qed.

(** C9: a record the scraper returns without failure reason has no episode
    exactly when its primary URL is empty. *)
Theorem C9_episodes_iff_primary_url (I : Interp) (net : nat -> response)
    (page_url : pystr) (r : VideoInfo) :
  extract_from_page I net page_url = Some r ->
  v_error r = None ->
  (v_episodes r = [] <-> v_video_url r = []).
Proof.
  intros H Herr. apply attempt_loop_some in H as [[html H] | [msg ->]];
    [|discriminate].
  apply parse_page_episodes in H as (-> & -> & _). unfold episodes_of.
  pose proof (found_video_urls_nonempty html) as Hne.
  pose proof (set_list_In I (found_video_urls html)) as Hin.
  destruct (set_list I (found_video_urls html)) as [|u urls].
  - split; reflexivity.
  - split; intro H.
    + now apply resolve_episodes_nonempty in H.
    + simpl in H. subst u. exfalso.
      apply (Hne []); [|reflexivity]. apply Hin. now left.
Qed.

Lemma C9_episodes_iff_primary_url_witness :
  exists r,
    extract_from_page (first_seen_interp 0) (net_always (Body page_full))
      url_archive = Some r
    /\ v_error r = None
    /\ (v_episodes r = [] <-> v_video_url r = []).
Proof.
  eexists. split; [now vm_compute|]. split; [reflexivity|].
  apply (C9_episodes_iff_primary_url (first_seen_interp 0)
           (net_always (Body page_full)) url_archive).
  - now vm_compute.
  - reflexivity.
Defined.

(** ** [generate_import_text] *)

Lemma valid_videos_drop (v : VideoInfo) (vs1 vs2 : list VideoInfo) :
  valid_video v = false ->
  valid_videos (vs1 ++ v :: vs2) = valid_videos (vs1 ++ vs2).
Proof.
  intro H. unfold valid_videos. rewrite !filter_app. simpl. now rewrite H.
Qed.

(** A record the filter rejects leaves no trace in the report. *)
Lemma generate_import_text_drop (v : VideoInfo) (vs1 vs2 : list VideoInfo) :
  valid_video v = false ->
  generate_import_text (vs1 ++ v :: vs2) = generate_import_text (vs1 ++ vs2).
Proof.
  intro H. unfold generate_import_text, render.
  now rewrite (valid_videos_drop v vs1 vs2 H).
Qed.

Lemma valid_video_error (v : VideoInfo) (e : pystr) :
  v_error v = Some e -> e <> [] -> valid_video v = false.
Proof.
  intros He Hn. unfold valid_video. rewrite He.
  destruct e; [contradiction|]. simpl. now rewrite andb_false_r.
Qed.

(** The failure record passes no filter: its title is empty. *)
Lemma failed_record_rejected (I : Interp) (page_url msg : pystr) :
  valid_video (failed_record I page_url msg) = false.
Proof. reflexivity. Qed.

(** C7: when the fetch fails at all three attempts the scraper returns a
    record with the failure reason set (the text of the last exception);
    and every record the scraper returns with a failure reason set has
    title, author, description, cover URL, primary URL, tags and episodes
    all empty, and the report is the same with and without that record. *)
Theorem C7_failed_fetch_record (I : Interp) (net : nat -> response)
    (page_url : pystr) :
  ((forall k, k < 3 -> exists msg, net k = Raised msg) ->
   exists r msg,
     extract_from_page I net page_url = Some r
     /\ net 2 = Raised msg
     /\ v_error r = Some msg)
  /\ (forall r e,
        extract_from_page I net page_url = Some r ->
        v_error r = Some e ->
        v_title r = [] /\ v_author r = [] /\ v_description r = []
        /\ v_cover_url r = [] /\ v_video_url r = [] /\ v_tags r = []
        /\ v_episodes r = []
        /\ (forall vs1 vs2,
              generate_import_text (vs1 ++ r :: vs2)
              = generate_import_text (vs1 ++ vs2))).
Proof.
  split.
  - intro Hfail.
    destruct (Hfail 0) as [m0 H0]; [lia|].
    destruct (Hfail 1) as [m1 H1]; [lia|].
    destruct (Hfail 2) as [m2 H2]; [lia|].
    exists (failed_record I page_url m2), m2.
    split; [|split; [assumption | reflexivity]].
    unfold extract_from_page. simpl. unfold try_body.
    now rewrite H0, H1, H2.
  - intros r e H He.
    apply attempt_loop_some in H as [[html H] | [msg ->]].
    + apply parse_page_episodes in H as (_ & _ & Hnone).
      rewrite Hnone in He. discriminate.
    + repeat (split; [reflexivity|]).
      intros vs1 vs2. apply generate_import_text_drop.
      apply failed_record_rejected.
Qed.

Lemma C7_failed_fetch_record_witness :
  exists r msg,
    extract_from_page (first_seen_interp 0)
      (net_always (Raised (U "timed out"))) url_archive = Some r
    /\ net_always (Raised (U "timed out")) 2 = Raised msg
    /\ v_error r = Some msg
    /\ v_title r = [] /\ v_author r = [] /\ v_description r = []
    /\ v_cover_url r = [] /\ v_video_url r = [] /\ v_tags r = []
    /\ v_episodes r = []
    /\ (forall vs1 vs2,
          generate_import_text (vs1 ++ r :: vs2)
          = generate_import_text (vs1 ++ vs2)).
Proof.
  destruct (C7_failed_fetch_record (first_seen_interp 0)
              (net_always (Raised (U "timed out"))) url_archive)
    as [Hfirst Hall].
  destruct Hfirst as (r & msg & Hr & Hnet & He).
  { intros k _. now exists (U "timed out"). }
  exists r, msg.
  split; [exact Hr|]. split; [exact Hnet|]. split; [exact He|].
  exact (Hall r msg Hr He).
Defined.

Lemma count_lines_app (p : pystr) (a b : list pystr) :
  count_lines p (a ++ b) = count_lines p a + count_lines p b.
Proof. unfold count_lines. now rewrite filter_app, length_app. Qed.

Lemma grows_refl (out : report) : grows out out 0.
Proof.
  unfold grows. rewrite !Nat.add_0_r, Z.add_0_r.
  repeat split. exists []. now rewrite app_nil_r.
Qed.

Lemma grows_trans (a b c : report) (n m : nat) :
  grows a b n -> grows b c m -> grows a c (n + m).
Proof.
  intros (H1 & H2 & H3 & more1 & H4) (K1 & K2 & K3 & more2 & K4).
  unfold grows. rewrite K1, K2, K3, K4, H1, H2, H3, H4.
  repeat split; try lia.
  exists (more1 ++ more2). now rewrite app_assoc.
Qed.

Lemma emit_block_grows (out : report) (heading : pystr) (v : VideoInfo)
    (url : pystr) :
  grows out (emit_block out heading v url) 1.
Proof.
  unfold grows, emit_block. cbn [fst snd].
  split; [reflexivity|].
  rewrite !count_lines_app.
  split; [|split].
  - destruct (truthy (v_description v)), (truthy (v_cover_url v)),
      (truthy (v_tags v)); reflexivity.
  - destruct (truthy (v_description v)), (truthy (v_cover_url v)),
      (truthy (v_tags v)); reflexivity.
  - eexists. reflexivity.
Qed.

Lemma emit_episodes_grows (v : VideoInfo) (eps : list Episode) :
  forall out,
    grows out
      (fold_left
         (fun out ep =>
            emit_block out (v_title v ++ U " - " ++ ep_title ep) v
              (ep_video_url ep))
         eps out)
      (length eps).
Proof.
  induction eps as [|ep eps IH]; intro out; simpl.
  - apply grows_refl.
  - eapply (grows_trans _ _ _ 1 (length eps));
      [apply emit_block_grows | apply IH].
Qed.

Lemma emit_video_grows (out : report) (v : VideoInfo) :
  grows out (emit_video out v) (playable_units v).
Proof.
  unfold emit_video, playable_units.
  destruct (1 <? length (v_episodes v))%nat.
  - apply emit_episodes_grows.
  - destruct (truthy (v_video_url v));
      [apply emit_block_grows | apply grows_refl].
Qed.

Lemma emit_videos_grows (vs : list VideoInfo) :
  forall out, grows out (fold_left emit_video vs out) (total_units vs).
Proof.
  induction vs as [|v vs IH]; intro out; simpl.
  - apply grows_refl.
  - eapply (grows_trans _ _ _ (playable_units v) (total_units vs));
      [apply emit_video_grows | apply IH].
Qed.

Lemma header_grows (out : report) (author : pystr) :
  grows out (fst out ++ [U "合集：" ++ author; []], snd out) 0.
Proof.
  unfold grows. cbn [fst snd]. rewrite !count_lines_app.
  repeat split; try reflexivity; try lia.
  now eexists.
Qed.

Lemma emit_group_grows (out : report) (item : pystr * list VideoInfo) :
  grows out (emit_group out item) (total_units (snd item)).
Proof.
  unfold emit_group.
  eapply (grows_trans _ _ _ 0 (total_units (snd item)));
    [apply header_grows | apply emit_videos_grows].
Qed.

Lemma emit_groups_grows (items : list (pystr * list VideoInfo)) :
  forall out, grows out (fold_left emit_group items out) (group_units items).
Proof.
  induction items as [|item items IH]; intro out; simpl.
  - apply grows_refl.
  - eapply (grows_trans _ _ _ (total_units (snd item)) (group_units items));
      [apply emit_group_grows | apply IH].
Qed.

Lemma list_sum_perm (l l' : list nat) :
  Permutation l l' -> list_sum l = list_sum l'.
Proof.
  induction 1; simpl; lia.
Qed.

Lemma group_units_concat (items : list (pystr * list VideoInfo)) :
  group_units items = total_units (concat (map snd items)).
Proof.
  unfold group_units, total_units.
  induction items as [|item items IH]; simpl; [reflexivity|].
  now rewrite map_app, list_sum_app, IH.
Qed.

(** *** Grouping by author *)

Lemma group_by_author_snoc (l : list VideoInfo) (v : VideoInfo) :
  group_by_author (l ++ [v])
  = group_add (group_by_author l) (author_key v) v.
Proof. unfold group_by_author. now rewrite fold_left_app. Qed.

Lemma group_add_assoc (g : list (pystr * list VideoInfo)) (k : pystr)
    (v : VideoInfo) (k' : pystr) :
  assoc (group_add g k v) k'
  = if pystr_eqb k k' then assoc g k' ++ [v] else assoc g k'.
Proof.
  unfold assoc. induction g as [|[k0 vs] g IH]; simpl.
  - now destruct (pystr_eqb k k').
  - destruct (pystr_eqb k0 k) eqn:E0; simpl.
    + apply pystr_eqb_eq in E0. subst k0.
      now destruct (pystr_eqb k k').
    + destruct (pystr_eqb k0 k') eqn:E1; [|exact IH].
      apply pystr_eqb_eq in E1. subst k0.
      destruct (pystr_eqb k k') eqn:E2; [|reflexivity].
      apply pystr_eqb_eq in E2. subst k. now rewrite pystr_eqb_refl in E0.
Qed.

Lemma group_add_keys (g : list (pystr * list VideoInfo)) (k : pystr)
    (v : VideoInfo) :
  (In k (map fst g) /\ map fst (group_add g k v) = map fst g)
  \/ (~ In k (map fst g) /\ map fst (group_add g k v) = map fst g ++ [k]).
Proof.
  induction g as [|[k0 vs] g IH]; simpl.
  - right. split; [tauto | reflexivity].
  - destruct (pystr_eqb k0 k) eqn:E0; simpl.
    + apply pystr_eqb_eq in E0. left. split; [now left | reflexivity].
    + apply pystr_eqb_neq in E0.
      destruct IH as [[Hin ->] | [Hn ->]].
      * left. split; [now right | reflexivity].
      * right. split; [tauto | reflexivity].
Qed.

Lemma group_by_author_assoc (l : list VideoInfo) (k : pystr) :
  assoc (group_by_author l) k
  = filter (fun v => pystr_eqb (author_key v) k) l.
Proof.
  induction l as [|v l IH] using rev_ind; [reflexivity|].
  rewrite group_by_author_snoc, group_add_assoc, filter_app, IH. simpl.
  destruct (pystr_eqb (author_key v) k); [reflexivity | now rewrite app_nil_r].
Qed.

Lemma group_by_author_keys (l : list VideoInfo) :
  NoDup (map fst (group_by_author l))
  /\ forall k, In k (map fst (group_by_author l))
               <-> exists v, In v l /\ author_key v = k.
Proof.
  induction l as [|v l [Hnd Hk]] using rev_ind.
  - split; [constructor|]. intro k. simpl. split; [tauto|].
    now intros (v & [] & _).
  - rewrite group_by_author_snoc.
    destruct (group_add_keys (group_by_author l) (author_key v) v)
      as [[Hin ->] | [Hn ->]].
    + split; [exact Hnd|]. intro k. rewrite Hk. split.
      * intros (w & Hw & E). exists w. split; [|exact E].
        apply in_or_app. now left.
      * intros (w & Hw & E). apply in_app_or in Hw as [Hw | [<- | []]].
        -- now exists w.
        -- apply Hk. now rewrite <- E.
    + split.
      * apply Permutation_NoDup
          with (author_key v :: map fst (group_by_author l));
          [apply Permutation_cons_append | now constructor].
      * intro k. rewrite in_app_iff, Hk. simpl. split.
        -- intros [(w & Hw & E) | [E | []]].
           ++ exists w. split; [apply in_or_app; now left | exact E].
           ++ exists v. split; [apply in_or_app; right; now left | exact E].
        -- intros (w & Hw & E). apply in_app_or in Hw as [Hw | [<- | []]].
           ++ left. now exists w.
           ++ right. now left.
Qed.

Lemma assoc_unique (g : list (pystr * list VideoInfo)) (k : pystr)
    (vs : list VideoInfo) :
  NoDup (map fst g) -> In (k, vs) g -> assoc g k = vs.
Proof.
  unfold assoc. induction g as [|[k0 vs0] g IH]; simpl; [tauto|].
  intros Hnd [E | Hin].
  - injection E as -> ->. now rewrite pystr_eqb_refl.
  - inversion Hnd as [|? ? Hk Hnd']; subst.
    destruct (pystr_eqb k0 k) eqn:E0; [|now apply IH].
    apply pystr_eqb_eq in E0. subst k0. exfalso. apply Hk.
    change k with (fst (k, vs)). now apply in_map.
Qed.

(** The items of the sorted dict: keys in strictly increasing order, and
    under each key the valid records of that author, in their input order,
    at least one. *)
Lemma sorted_items_spec (l : list VideoInfo) :
  StronglySorted (fun a b => pystr_ltb a b = true)
    (map fst (sorted_items (group_by_author l)))
  /\ (forall k vs,
        In (k, vs) (sorted_items (group_by_author l)) ->
        vs = filter (fun v => pystr_eqb (author_key v) k) l /\ vs <> [])
  /\ (forall v, In v l ->
        In (author_key v) (map fst (sorted_items (group_by_author l)))).
Proof.
  destruct (group_by_author_keys l) as [Hnd Hk].
  pose proof (sort_by_perm pystr_ltb fst (group_by_author l)) as HP.
  fold (sorted_items (group_by_author l)) in HP.
  split; [|split].
  - apply StronglySorted_map. now apply sort_by_keys_strict.
  - intros k vs Hin.
    apply (Permutation_in _ HP) in Hin.
    pose proof (assoc_unique _ _ _ Hnd Hin) as Ha.
    rewrite group_by_author_assoc in Ha. split; [now symmetry|].
    assert (Hkey : In k (map fst (group_by_author l))).
    { change k with (fst (k, vs)). now apply in_map. }
    apply Hk in Hkey as (v & Hv & E).
    intros ->. symmetry in Ha.
    assert (Hf : In v (filter (fun v => pystr_eqb (author_key v) k) l)).
    { apply filter_In. split; [exact Hv | now apply pystr_eqb_eq]. }
    now rewrite <- Ha in Hf.
  - intros v Hv.
    apply Permutation_in with (map fst (group_by_author l));
      [apply Permutation_map; now symmetry|].
    apply Hk. now exists v.
Qed.

Lemma group_by_author_perm (l : list VideoInfo) :
  Permutation (concat (map snd (group_by_author l))) l.
Proof.
  induction l as [|v l IH] using rev_ind; [reflexivity|].
  rewrite group_by_author_snoc.
  transitivity (concat (map snd (group_by_author l)) ++ [v]);
    [|now apply Permutation_app_tail].
  generalize (group_by_author l) as g. generalize (author_key v) as k.
  intros k g. induction g as [|[k0 vs] g IHg]; simpl; [reflexivity|].
  destruct (pystr_eqb k0 k); simpl.
  - rewrite <- !app_assoc. apply Permutation_app_head.
    apply Permutation_app_comm.
  - rewrite <- app_assoc. now apply Permutation_app_head.
Qed.

(** The counter at the end is the number of title lines, the number of
    media lines, and the number of playable units of the valid records. *)
Lemma render_count (videos : list VideoInfo) :
  snd (render videos)
  = Z.of_nat (count_lines (U "视频：") (fst (render videos)))
  /\ snd (render videos)
     = Z.of_nat (count_lines (U "标题：") (fst (render videos)))
  /\ snd (render videos) = Z.of_nat (total_units (valid_videos videos)).
Proof.
  unfold render.
  set (items := sorted_items (group_by_author (valid_videos videos))).
  destruct (emit_groups_grows items ([], 0%Z)) as (H1 & H2 & H3 & _).
  cbn [fst snd] in *.
  change (count_lines (U "视频：") []) with 0 in H2.
  change (count_lines (U "标题：") []) with 0 in H3.
  rewrite H1, H2, H3, Z.add_0_l, Nat.add_0_l. repeat split.
  f_equal. rewrite group_units_concat.
  unfold total_units. apply list_sum_perm, Permutation_map.
  transitivity (concat (map snd (group_by_author (valid_videos videos))));
    [|apply group_by_author_perm].
  rewrite <- !flat_map_concat_map.
  assert (Hflat : forall (a b : list (pystr * list VideoInfo)),
             Permutation a b ->
             Permutation (flat_map snd a) (flat_map snd b)).
  { induction 1; simpl.
    - reflexivity.
    - now apply Permutation_app_head.
    - rewrite !app_assoc. apply Permutation_app_tail, Permutation_app_comm.
    - now transitivity (flat_map snd l'). }
  apply Hflat. apply sort_by_perm.
Qed.

(** C8: the count the formatter returns is the number of blocks, not of
    records: it equals the number of title lines and the number of media
    lines among the lines written, and the sum over the valid records of
    their playable units; the author groups come out in strictly increasing
    order of the author string, each holding the valid records of that
    author in input order; two valid records, one with two episodes that
    both have a URL and one without episode and with a primary URL, count 3
    in either order; and the example evaluates to the expected text and 3. *)
Theorem C8_emitted_count_is_blocks (videos : list VideoInfo) :
  snd (generate_import_text videos)
  = Z.of_nat (count_lines (U "视频：") (fst (render videos)))
  /\ snd (generate_import_text videos)
     = Z.of_nat (count_lines (U "标题：") (fst (render videos)))
  /\ snd (generate_import_text videos)
     = Z.of_nat (total_units (valid_videos videos))
  /\ StronglySorted (fun a b => pystr_ltb a b = true)
       (map fst (sorted_items (group_by_author (valid_videos videos))))
  /\ (forall k vs,
        In (k, vs) (sorted_items (group_by_author (valid_videos videos))) ->
        vs = filter (fun v => pystr_eqb (author_key v) k)
               (valid_videos videos)
        /\ vs <> [])
  /\ (forall r1 r2 e1 e2,
        videos = [r1; r2] \/ videos = [r2; r1] ->
        valid_video r1 = true -> valid_video r2 = true ->
        v_episodes r1 = [e1; e2] ->
        ep_video_url e1 <> [] -> ep_video_url e2 <> [] ->
        v_episodes r2 = [] -> v_video_url r2 <> [] ->
        snd (generate_import_text videos) = 3%Z)
  /\ generate_import_text [record_two_episodes; record_primary_only]
     = (join [newline]
          [U "合集：Amy"; [];
           U "标题：Film"; U "视频：https://cdn.mikiacg.vip/f/film.mp4"; [];
           U "合集：Zed"; [];
           U "标题：Series - 第1集"; U "描述：about";
           U "视频：https://cdn.mikiacg.vip/s/1.mp4"; U "标签：tag1,tag2"; [];
           U "标题：Series - 第2集"; U "描述：about";
           U "视频：https://cdn.mikiacg.vip/s/2.mp4"; U "标签：tag1,tag2"; []],
        3%Z).
Proof.
  destruct (render_count videos) as (H1 & H2 & H3).
  destruct (sorted_items_spec (valid_videos videos)) as (G1 & G2 & _).
  cbn [generate_import_text snd].
  repeat (split; [assumption|]).
  split; [|now vm_compute].
  intros r1 r2 e1 e2 Hv V1 V2 E1 U1 U2 E2 P2.
  rewrite H3.
  assert (Hu1 : playable_units r1 = 2).
  { unfold playable_units. rewrite E1. simpl.
    destruct (ep_video_url e1); [contradiction|].
    destruct (ep_video_url e2); [contradiction|]. reflexivity. }
  assert (Hu2 : playable_units r2 = 1).
  { unfold playable_units. rewrite E2. simpl.
    destruct (v_video_url r2); [contradiction|]. reflexivity. }
  destruct Hv as [-> | ->]; unfold valid_videos, total_units; simpl;
    rewrite V1, V2; simpl; rewrite Hu1, Hu2; reflexivity.
Qed.

Lemma C8_emitted_count_is_blocks_witness :
  snd (generate_import_text [record_two_episodes; record_primary_only]) = 3%Z.
Proof.
  destruct (C8_emitted_count_is_blocks
              [record_two_episodes; record_primary_only])
    as (_ & _ & _ & _ & _ & H & _).
  apply (H record_two_episodes record_primary_only
           (mkEpisode 1 (episode_title 1) (U "https://cdn.mikiacg.vip/s/1.mp4"))
           (mkEpisode 2 (episode_title 2) (U "https://cdn.mikiacg.vip/s/2.mp4")));
    try reflexivity; try (now left); now vm_compute.
Defined.

Lemma grows_In (out out' : report) (n : nat) (x : pystr) :
  grows out out' n -> In x (fst out) -> In x (fst out').
Proof.
  intros (_ & _ & _ & more & ->) H. apply in_or_app. now left.
Qed.

Lemma header_in_groups (items : list (pystr * list VideoInfo)) (k : pystr) :
  forall out,
    In k (map fst items) ->
    In (U "合集：" ++ k) (fst (fold_left emit_group items out)).
Proof.
  induction items as [|item items IH]; intros out Hin; simpl in *;
    [contradiction|].
  destruct Hin as [<- | Hin]; [|now apply IH].
  apply (grows_In _ _ _ _ (emit_groups_grows items (emit_group out item))).
  unfold emit_group.
  apply (grows_In _ _ _ _ (emit_videos_grows (snd item) _)).
  cbn [fst]. apply in_or_app. right. now left.
Qed.

(** C10: a record that passes the filter with at most one episode and an
    empty primary URL adds nothing to the lines and to the counter, while
    the header line of its author is written; on the input made of that
    record alone the lines are the header and the empty line after it, and
    the count, 0, is below the number of filtered records, 1. *)
Theorem C10_header_without_block (videos : list VideoInfo) (v : VideoInfo) :
  In v videos -> valid_video v = true ->
  length (v_episodes v) <= 1 -> v_video_url v = [] ->
  (forall out, emit_video out v = out)
  /\ In (U "合集：" ++ author_key v) (fst (render videos))
  /\ fst (render [v]) = [U "合集：" ++ author_key v; []]
  /\ snd (generate_import_text [v]) = 0%Z
  /\ length (valid_videos [v]) = 1.
Proof.
  intros Hin Hvalid Hlen Hurl.
  assert (Hemit : forall out, emit_video out v = out).
  { intro out. unfold emit_video.
    destruct (1 <? length (v_episodes v))%nat eqn:E.
    - apply Nat.ltb_lt in E. lia.
    - now rewrite Hurl. }
  split; [exact Hemit|]. split.
  - unfold render. apply header_in_groups.
    apply sorted_items_spec. apply filter_In. now split.
  - unfold generate_import_text, render, valid_videos. simpl filter.
    rewrite Hvalid.
    change (sorted_items (group_by_author [v])) with [(author_key v, [v])].
    cbn [fold_left emit_group fst snd]. rewrite Hemit. now repeat split.
Qed.

Lemma C10_header_without_block_witness :
  (forall out, emit_video out record_header_only = out)
  /\ In (U "合集：" ++ author_key record_header_only)
       (fst (render [record_two_episodes; record_header_only]))
  /\ fst (render [record_header_only])
     = [U "合集：" ++ author_key record_header_only; []]
  /\ snd (generate_import_text [record_header_only]) = 0%Z
  /\ length (valid_videos [record_header_only]) = 1.
Proof.
  apply (C10_header_without_block
           [record_two_episodes; record_header_only] record_header_only).
  - right. now left.
  - reflexivity.
  - simpl. lia.
  - reflexivity.
Defined.

(** * Further properties *)

(** ** The layout of the report *)

Lemma emit_block_lines (out : report) (heading : pystr) (v : VideoInfo)
    (url : pystr) :
  fst (emit_block out heading v url) = fst out ++ block_lines heading v url.
Proof. reflexivity. Qed.

Lemma fold_emit_block_lines (v : VideoInfo) (eps : list Episode) :
  forall out,
    fst (fold_left
           (fun out ep =>
              emit_block out (v_title v ++ U " - " ++ ep_title ep) v
                (ep_video_url ep))
           eps out)
    = fst out
      ++ flat_map
           (fun ep =>
              block_lines (v_title v ++ U " - " ++ ep_title ep) v
                (ep_video_url ep))
           eps.
Proof.
  induction eps as [|ep eps IH]; intro out; simpl.
  - now rewrite app_nil_r.
  - now rewrite IH, emit_block_lines, <- app_assoc.
Qed.

Lemma emit_video_lines (out : report) (v : VideoInfo) :
  fst (emit_video out v) = fst out ++ video_lines v.
Proof.
  unfold emit_video, video_lines.
  destruct (1 <? length (v_episodes v))%nat.
  - apply fold_emit_block_lines.
  - destruct (truthy (v_video_url v)); [reflexivity|].
    now rewrite app_nil_r.
Qed.

Lemma emit_videos_lines (vs : list VideoInfo) :
  forall out,
    fst (fold_left emit_video vs out) = fst out ++ flat_map video_lines vs.
Proof.
  induction vs as [|v vs IH]; intro out; simpl.
  - now rewrite app_nil_r.
  - now rewrite IH, emit_video_lines, <- app_assoc.
Qed.

Lemma emit_groups_lines (items : list (pystr * list VideoInfo)) :
  forall out,
    fst (fold_left emit_group items out)
    = fst out ++ flat_map group_lines items.
Proof.
  induction items as [|item items IH]; intro out; simpl.
  - now rewrite app_nil_r.
  - rewrite IH. unfold emit_group. rewrite emit_videos_lines.
    cbn [fst]. unfold group_lines. now rewrite <- !app_assoc.
Qed.

(** The lines written are, author after author in the order of the sorted
    keys, the header, an empty line and the blocks of the records. *)
Lemma render_lines (videos : list VideoInfo) :
  fst (render videos)
  = flat_map group_lines
      (sorted_items (group_by_author (valid_videos videos))).
Proof. unfold render. now rewrite emit_groups_lines. Qed.

(** A record under a key of the report passed the filter. *)
Lemma sorted_items_valid (videos : list VideoInfo) (k : pystr)
    (vs : list VideoInfo) (v : VideoInfo) :
  In (k, vs) (sorted_items (group_by_author (valid_videos videos))) ->
  In v vs ->
  In v videos /\ valid_video v = true /\ author_key v = k.
Proof.
  intros Hitem Hv.
  destruct (sorted_items_spec (valid_videos videos)) as (_ & Hg & _).
  destruct (Hg k vs Hitem) as [-> _].
  apply filter_In in Hv as [Hv Hk]. apply pystr_eqb_eq in Hk.
  apply filter_In in Hv as [Hv Hvalid]. now repeat split.
Qed.

Lemma block_lines_payload (heading : pystr) (v : VideoInfo) (url line : pystr) :
  heading <> [] -> url <> [] -> In line (block_lines heading v url) ->
  (starts_with (U "视频：") line = true -> 3 < length line)
  /\ (starts_with (U "标题：") line = true -> 3 < length line).
Proof.
  intros Hh Hu Hin.
  destruct heading as [|c heading]; [contradiction|].
  destruct url as [|d url]; [contradiction|].
  unfold block_lines in Hin.
  repeat (apply in_app_or in Hin as [Hin | Hin]).
  - destruct Hin as [<- | []]. split; [discriminate|].
    intros _. rewrite length_app. simpl. lia.
  - destruct (truthy (v_description v)); [|contradiction].
    destruct Hin as [<- | []]. split; discriminate.
  - destruct (truthy (v_cover_url v)); [|contradiction].
    destruct Hin as [<- | []]. split; discriminate.
  - destruct Hin as [<- | []]. split; [|discriminate].
    intros _. rewrite length_app. simpl. lia.
  - destruct (truthy (v_tags v)); [|contradiction].
    destruct Hin as [<- | []]. split; discriminate.
  - destruct Hin as [<- | []]. split; discriminate.
Qed.

Lemma truthy_true {A : Type} (l : list A) : truthy l = true <-> l <> [].
Proof. destruct l; simpl; split; congruence. Qed.

Lemma truthy_false {A : Type} (l : list A) : truthy l = false <-> l = [].
Proof. destruct l; simpl; split; congruence. Qed.

Lemma valid_video_title (v : VideoInfo) :
  valid_video v = true -> v_title v <> [].
Proof.
  unfold valid_video. intro H.
  apply andb_prop in H as [H _]. apply andb_prop in H as [H _].
  now apply truthy_true.
Qed.

Lemma video_lines_payload (v : VideoInfo) (line : pystr) :
  v_title v <> [] -> In line (video_lines v) ->
  (starts_with (U "视频：") line = true -> 3 < length line)
  /\ (starts_with (U "标题：") line = true -> 3 < length line).
Proof.
  intros Ht Hin. unfold video_lines in Hin.
  destruct (1 <? length (v_episodes v))%nat.
  - apply in_flat_map in Hin as (ep & Hep & Hin).
    apply filter_In in Hep as [_ Hurl]. apply truthy_true in Hurl.
    apply block_lines_payload in Hin; [exact Hin| |exact Hurl].
    destruct (v_title v); [contradiction | discriminate].
  - destruct (truthy (v_video_url v)) eqn:Hurl; [|contradiction].
    apply truthy_true in Hurl. now apply block_lines_payload in Hin.
Qed.

Lemma render_lines_payload (videos : list VideoInfo) (line : pystr) :
  In line (fst (render videos)) ->
  (starts_with (U "视频：") line = true -> 3 < length line)
  /\ (starts_with (U "标题：") line = true -> 3 < length line).
Proof.
  rewrite render_lines. intro Hin.
  apply in_flat_map in Hin as ([k vs] & Hitem & Hin).
  unfold group_lines in Hin. cbn [fst snd] in Hin.
  apply in_app_or in Hin as [[<- | [<- | []]] | Hin].
  - split; discriminate.
  - split; discriminate.
  - apply in_flat_map in Hin as (v & Hv & Hin).
    destruct (sorted_items_valid videos k vs v Hitem Hv) as (_ & Hvalid & _).
    apply video_lines_payload with v; [|exact Hin].
    now apply valid_video_title.
Qed.

(** *** The lines of the text *)

Lemma one_line_app (a b : pystr) :
  one_line (a ++ b) = one_line a && one_line b.
Proof. apply forallb_app. Qed.

Lemma split_lines_one_line (s : pystr) :
  one_line s = true -> split_lines s = [s].
Proof.
  induction s as [|c s IH]; [reflexivity|].
  cbn [one_line forallb split_lines]. intro H.
  apply andb_prop in H as [Hc Hs]. apply negb_true_iff in Hc.
  rewrite Hc. fold (one_line s) in Hs. now rewrite (IH Hs).
Qed.

Lemma split_lines_newline (s rest : pystr) :
  one_line s = true ->
  split_lines (s ++ newline :: rest) = s :: split_lines rest.
Proof.
  induction s as [|c s IH]; [reflexivity|].
  cbn [one_line forallb app split_lines]. intro H.
  apply andb_prop in H as [Hc Hs]. apply negb_true_iff in Hc.
  rewrite Hc. fold (one_line s) in Hs. now rewrite (IH Hs).
Qed.

(** Splitting the joined lines gives the lines back, when none holds a
    newline and there is one at least. *)
Lemma split_lines_join (lines : list pystr) :
  lines <> [] -> (forall line, In line lines -> one_line line = true) ->
  split_lines (join [newline] lines) = lines.
Proof.
  induction lines as [|l lines IH]; [contradiction|].
  intros _ H. destruct lines as [|l' lines].
  - apply split_lines_one_line, H. now left.
  - change (join [newline] (l :: l' :: lines))
      with (l ++ newline :: join [newline] (l' :: lines)).
    rewrite split_lines_newline by (apply H; now left).
    f_equal. apply IH; [discriminate|].
    intros line Hl. apply H. now right.
Qed.

Lemma single_line_fields_inv (v : VideoInfo) :
  single_line_fields v = true ->
  one_line (v_title v) = true /\ one_line (v_author v) = true
  /\ one_line (v_description v) = true /\ one_line (v_cover_url v) = true
  /\ one_line (v_video_url v) = true
  /\ (forall t, In t (v_tags v) -> one_line t = true)
  /\ (forall ep, In ep (v_episodes v) ->
        one_line (ep_title ep) = true /\ one_line (ep_video_url ep) = true).
Proof.
  unfold single_line_fields. intro H.
  repeat (apply andb_prop in H as [H ?]).
  repeat (split; [assumption|]). split.
  - now apply forallb_forall.
  - intros ep Hep. apply andb_prop.
    match goal with
    | Heps : forallb _ (v_episodes v) = true |- _ =>
        rewrite forallb_forall in Heps; now apply Heps
    end.
Qed.

Lemma one_line_join_comma (tags : list pystr) :
  (forall t, In t tags -> one_line t = true) ->
  one_line (join (U ",") tags) = true.
Proof.
  induction tags as [|t tags IH]; intro H; [reflexivity|].
  destruct tags as [|t' tags]; [apply H; now left|].
  change (join (U ",") (t :: t' :: tags))
    with (t ++ U "," ++ join (U ",") (t' :: tags)).
  rewrite !one_line_app, (H t (or_introl eq_refl)), IH; [reflexivity|].
  intros x Hx. apply H. now right.
Qed.

Lemma block_lines_one_line (heading : pystr) (v : VideoInfo)
    (url line : pystr) :
  single_line_fields v = true ->
  one_line heading = true -> one_line url = true ->
  In line (block_lines heading v url) -> one_line line = true.
Proof.
  intros Hv Hh Hu Hin.
  apply single_line_fields_inv in Hv as (_ & _ & Hd & Hc & _ & Ht & _).
  unfold block_lines in Hin.
  repeat (apply in_app_or in Hin as [Hin | Hin]).
  - destruct Hin as [<- | []]. now rewrite one_line_app, Hh.
  - destruct (truthy (v_description v)); [|contradiction].
    destruct Hin as [<- | []]. now rewrite one_line_app, Hd.
  - destruct (truthy (v_cover_url v)); [|contradiction].
    destruct Hin as [<- | []]. now rewrite one_line_app, Hc.
  - destruct Hin as [<- | []]. now rewrite one_line_app, Hu.
  - destruct (truthy (v_tags v)); [|contradiction].
    destruct Hin as [<- | []].
    now rewrite one_line_app, (one_line_join_comma _ Ht).
  - destruct Hin as [<- | []]. reflexivity.
Qed.

Lemma video_lines_one_line (v : VideoInfo) (line : pystr) :
  single_line_fields v = true ->
  In line (video_lines v) -> one_line line = true.
Proof.
  intros Hv Hin.
  destruct (single_line_fields_inv v Hv) as (Ht & _ & _ & _ & Hu & _ & He).
  unfold video_lines in Hin.
  destruct (1 <? length (v_episodes v))%nat.
  - apply in_flat_map in Hin as (ep & Hep & Hin).
    apply filter_In in Hep as [Hep _]. destruct (He ep Hep) as [Het Heu].
    apply block_lines_one_line in Hin; [exact Hin | exact Hv | | exact Heu].
    now rewrite !one_line_app, Ht, Het.
  - destruct (truthy (v_video_url v)); [|contradiction].
    now apply block_lines_one_line in Hin.
Qed.

Lemma author_key_one_line (v : VideoInfo) :
  single_line_fields v = true -> one_line (author_key v) = true.
Proof.
  intro Hv. apply single_line_fields_inv in Hv as (_ & Ha & _).
  unfold author_key. destruct (truthy (v_author v)); [exact Ha|].
  reflexivity.
Qed.

(** The lines of the text are the lines the formatter appended, when no
    field of a record that passes the filter holds a newline; the empty
    text has one line, the empty one. *)
Lemma text_lines_render (videos : list VideoInfo) :
  (forall v, In v videos -> valid_video v = true ->
             single_line_fields v = true) ->
  split_lines (fst (generate_import_text videos))
  = match fst (render videos) with
    | [] => [[]]
    | line :: lines => line :: lines
    end.
Proof.
  intro H. unfold generate_import_text. cbn [fst].
  destruct (fst (render videos)) as [|l0 ls] eqn:E; [reflexivity|].
  apply split_lines_join; [discriminate|].
  rewrite <- E, render_lines. intros line Hin.
  apply in_flat_map in Hin as ([k vs] & Hitem & Hin).
  unfold group_lines in Hin. cbn [fst snd] in Hin.
  apply in_app_or in Hin as [[<- | [<- | []]] | Hin].
  - destruct (sorted_items_spec (valid_videos videos)) as (_ & Hg & _).
    destruct (Hg k vs Hitem) as [_ Hne].
    destruct vs as [|v vs]; [contradiction|].
    destruct (sorted_items_valid videos k (v :: vs) v Hitem
                (or_introl eq_refl)) as (Hv & Hvalid & <-).
    rewrite one_line_app, (author_key_one_line v (H v Hv Hvalid)).
    reflexivity.
  - reflexivity.
  - apply in_flat_map in Hin as (v & Hv & Hin).
    destruct (sorted_items_valid videos k vs v Hitem Hv)
      as (Hv' & Hvalid & _).
    apply video_lines_one_line with v; [|exact Hin]. now apply H.
Qed.

(** X1: when no field of a record that passes the filter holds a newline,
    every line of the text of the report that starts with the title label
    carries a title and every line that starts with the media label
    carries a URL: the line is longer than the three characters of the
    label. *)
Theorem report_lines_have_payload (videos : list VideoInfo) (line : pystr) :
  (forall v, In v videos -> valid_video v = true ->
             single_line_fields v = true) ->
  In line (split_lines (fst (generate_import_text videos))) ->
  (starts_with (U "视频：") line = true -> 3 < length line)
  /\ (starts_with (U "标题：") line = true -> 3 < length line).
Proof.
  intros H Hin. rewrite (text_lines_render videos H) in Hin.
  destruct (fst (render videos)) as [|l0 ls] eqn:E.
  - destruct Hin as [<- | []]. split; discriminate.
  - apply render_lines_payload with videos. now rewrite E.
Qed.

Lemma report_lines_have_payload_witness :
  (starts_with (U "视频：") (U "视频：https://cdn.mikiacg.vip/f/film.mp4") = true
   -> 3 < length (U "视频：https://cdn.mikiacg.vip/f/film.mp4"))
  /\ (starts_with (U "标题：") (U "视频：https://cdn.mikiacg.vip/f/film.mp4")
      = true
      -> 3 < length (U "视频：https://cdn.mikiacg.vip/f/film.mp4")).
Proof.
  apply (report_lines_have_payload
           [record_two_episodes; record_primary_only]).
  - intros v [<- | [<- | []]] _; reflexivity.
  - vm_compute. do 3 right. now left.
Defined.

(** A title that holds a newline breaks the property: the text of the
    report of [record_broken_title] has a line made of the title label
    alone. *)
Example report_line_break_in_title :
  valid_video record_broken_title = true
  /\ single_line_fields record_broken_title = false
  /\ In (U "标题：")
       (split_lines (fst (generate_import_text [record_broken_title]))).
Proof.
  split; [reflexivity|]. split; [reflexivity|].
  vm_compute. do 3 right. now left.
Qed.

Lemma block_lines_no_header (heading : pystr) (v : VideoInfo) (url : pystr) :
  filter (starts_with (U "合集：")) (block_lines heading v url) = [].
Proof.
  unfold block_lines.
  destruct (truthy (v_description v)), (truthy (v_cover_url v)),
    (truthy (v_tags v)); reflexivity.
Qed.

Lemma filter_flat_map_nil {A B : Type} (f : B -> bool) (g : A -> list B)
    (l : list A) :
  (forall a, filter f (g a) = []) -> filter f (flat_map g l) = [].
Proof.
  intro H. induction l as [|a l IH]; simpl; [reflexivity|].
  now rewrite filter_app, H, IH.
Qed.

Lemma video_lines_no_header (v : VideoInfo) :
  filter (starts_with (U "合集：")) (video_lines v) = [].
Proof.
  unfold video_lines. destruct (1 <? length (v_episodes v))%nat.
  - apply filter_flat_map_nil. intro ep. apply block_lines_no_header.
  - destruct (truthy (v_video_url v)); [apply block_lines_no_header|].
    reflexivity.
Qed.

Lemma group_lines_header (item : pystr * list VideoInfo) :
  filter (starts_with (U "合集：")) (group_lines item)
  = [U "合集：" ++ fst item].
Proof.
  unfold group_lines. rewrite filter_app.
  rewrite (filter_flat_map_nil _ _ _ video_lines_no_header).
  reflexivity.
Qed.

Lemma valid_video_keys (videos : list VideoInfo) (k : pystr) :
  In k (report_keys videos)
  <-> exists v, In v videos /\ valid_video v = true /\ author_key v = k.
Proof.
  unfold report_keys.
  destruct (group_by_author_keys (valid_videos videos)) as [_ Hk].
  pose proof (sort_by_perm pystr_ltb fst
                (group_by_author (valid_videos videos))) as HP.
  fold (sorted_items (group_by_author (valid_videos videos))) in HP.
  split.
  - intro H. apply (Permutation_in _ (Permutation_map fst HP)) in H.
    apply Hk in H as (v & Hv & E). apply filter_In in Hv as [Hv Hvalid].
    now exists v.
  - intros (v & Hv & Hvalid & E).
    apply (Permutation_in _ (Permutation_map fst (Permutation_sym HP))).
    apply Hk. exists v. split; [|exact E]. apply filter_In. now split.
Qed.

Lemma render_headers (videos : list VideoInfo) :
  filter (starts_with (U "合集：")) (fst (render videos))
  = map (fun k => U "合集：" ++ k) (report_keys videos).
Proof.
  rewrite render_lines. unfold report_keys.
  induction (sorted_items (group_by_author (valid_videos videos)))
    as [|item items IH]; cbn [flat_map map]; [reflexivity|].
  now rewrite filter_app, group_lines_header, IH.
Qed.

(** X2: when no field of a record that passes the filter holds a newline,
    the header lines of the text of the report are, in this order, the
    headers of the author keys in strictly increasing order: every author
    with a record that passes the filter has exactly one header, and no
    other line of the text starts with the header label. *)
Theorem report_headers (videos : list VideoInfo) :
  (forall v, In v videos -> valid_video v = true ->
             single_line_fields v = true) ->
  filter (starts_with (U "合集："))
    (split_lines (fst (generate_import_text videos)))
  = map (fun k => U "合集：" ++ k) (report_keys videos)
  /\ StronglySorted (fun a b => pystr_ltb a b = true) (report_keys videos)
  /\ forall k,
       In k (report_keys videos)
       <-> exists v, In v videos /\ valid_video v = true /\ author_key v = k.
Proof.
  intro H. split; [|split].
  - rewrite (text_lines_render videos H), <- render_headers.
    now destruct (fst (render videos)).
  - apply (sorted_items_spec (valid_videos videos)).
  - apply valid_video_keys.
Qed.

Lemma report_headers_witness :
  filter (starts_with (U "合集："))
    (split_lines
       (fst (generate_import_text [record_two_episodes; record_primary_only])))
  = map (fun k => U "合集：" ++ k)
      (report_keys [record_two_episodes; record_primary_only])
  /\ StronglySorted (fun a b => pystr_ltb a b = true)
       (report_keys [record_two_episodes; record_primary_only])
  /\ forall k,
       In k (report_keys [record_two_episodes; record_primary_only])
       <-> exists v,
             In v [record_two_episodes; record_primary_only]
             /\ valid_video v = true /\ author_key v = k.
Proof.
  apply (report_headers [record_two_episodes; record_primary_only]).
  intros v [<- | [<- | []]] _; reflexivity.
Defined.

(** X3: the report is the empty text with count 0 exactly when no record
    passes the filter. *)
Theorem report_empty_iff (videos : list VideoInfo) :
  generate_import_text videos = ([], 0%Z) <-> valid_videos videos = [].
Proof.
  split.
  - intro H. apply (f_equal fst) in H. cbn [generate_import_text fst] in H.
    rewrite render_lines in H.
    destruct (valid_videos videos) as [|v vs] eqn:E; [reflexivity|].
    exfalso.
    assert (Hk : In (author_key v) (report_keys videos)).
    { apply valid_video_keys. exists v.
      assert (Hv : In v (valid_videos videos)) by (rewrite E; now left).
      apply filter_In in Hv as [Hv Hvalid]. now repeat split. }
    unfold report_keys in Hk. rewrite E in Hk.
    destruct (sorted_items (group_by_author (v :: vs))) as [|item items];
      [contradiction|].
    simpl in H. discriminate H.
  - intro H. unfold generate_import_text, render. now rewrite H.
Qed.

(** Two lists in strict order with the same elements are equal. *)
Lemma strict_sorted_unique {A : Type} (R : A -> A -> Prop) :
  (forall a b, R a b -> ~ R b a) ->
  forall l1 l2,
    StronglySorted R l1 -> StronglySorted R l2 ->
    (forall x, In x l1 <-> In x l2) -> l1 = l2.
Proof.
  intros Hasym l1. induction l1 as [|a l1 IH]; intros [|b l2] S1 S2 Hin.
  - reflexivity.
  - exfalso. apply (Hin b). now left.
  - exfalso. apply (Hin a). now left.
  - apply StronglySorted_inv in S1 as [S1 Fa].
    apply StronglySorted_inv in S2 as [S2 Fb].
    rewrite Forall_forall in Fa, Fb.
    assert (Hab : a = b).
    { destruct (proj1 (Hin a) (or_introl eq_refl)) as [E | Ha]; [easy|].
      destruct (proj2 (Hin b) (or_introl eq_refl)) as [E | Hb]; [easy|].
      exfalso. exact (Hasym _ _ (Fa b Hb) (Fb a Ha)). }
    subst b. f_equal. apply IH; try assumption.
    intro x. split; intro Hx.
    + destruct (proj1 (Hin x) (or_intror Hx)) as [E | Hx']; [|exact Hx'].
      subst x. exfalso. exact (Hasym _ _ (Fa a Hx) (Fa a Hx)).
    + destruct (proj2 (Hin x) (or_intror Hx)) as [E | Hx']; [|exact Hx'].
      subst x. exfalso. exact (Hasym _ _ (Fb a Hx) (Fb a Hx)).
Qed.

Lemma filter_perm {A : Type} (f : A -> bool) (l l' : list A) :
  Permutation l l' -> Permutation (filter f l) (filter f l').
Proof.
  induction 1 as [|a l l' HP IH|a b l|l l' l'' H1 IH1 H2 IH2]; simpl.
  - constructor.
  - destruct (f a); [now constructor | exact IH].
  - destruct (f a), (f b); try reflexivity. apply perm_swap.
  - now transitivity (filter f l').
Qed.

Lemma count_is_units (videos : list VideoInfo) :
  snd (generate_import_text videos)
  = Z.of_nat (total_units (valid_videos videos)).
Proof. apply render_count. Qed.

Lemma generate_import_text_perm (videos videos' : list VideoInfo) :
  Permutation videos videos' ->
  snd (generate_import_text videos) = snd (generate_import_text videos')
  /\ report_keys videos = report_keys videos'.
Proof.
  intro HP. split.
  - rewrite !count_is_units. f_equal. unfold total_units.
    apply list_sum_perm, Permutation_map. now apply filter_perm.
  - apply strict_sorted_unique
      with (R := fun a b => pystr_ltb a b = true).
    + intros a b H1 H2. rewrite (pystr_ltb_asym _ _ H1) in H2. discriminate.
    + apply (sorted_items_spec (valid_videos videos)).
    + apply (sorted_items_spec (valid_videos videos')).
    + intro k. rewrite !valid_video_keys. split; intros (v & Hv & H).
      * exists v. split; [now apply (Permutation_in _ HP) | exact H].
      * exists v. split; [|exact H].
        now apply (Permutation_in _ (Permutation_sym HP)).
Qed.

(** X4: the count and the sequence of author headers do not depend on the
    order of the records handed to the formatter. *)
Theorem report_order_independent (videos videos' : list VideoInfo) :
  Permutation videos videos' ->
  snd (generate_import_text videos) = snd (generate_import_text videos')
  /\ report_keys videos = report_keys videos'.
Proof. apply generate_import_text_perm. Qed.

Lemma report_order_independent_witness :
  snd (generate_import_text [record_two_episodes; record_primary_only])
  = snd (generate_import_text [record_primary_only; record_two_episodes])
  /\ report_keys [record_two_episodes; record_primary_only]
     = report_keys [record_primary_only; record_two_episodes].
Proof.
  apply (report_order_independent
           [record_two_episodes; record_primary_only]
           [record_primary_only; record_two_episodes]).
  apply perm_swap.
Defined.

(** X5: the count of a batch is the sum of the counts of its parts. *)
Theorem report_count_additive (videos1 videos2 : list VideoInfo) :
  snd (generate_import_text (videos1 ++ videos2))
  = (snd (generate_import_text videos1)
     + snd (generate_import_text videos2))%Z.
Proof.
  rewrite !count_is_units. unfold total_units, valid_videos.
  rewrite filter_app, map_app, list_sum_app. lia.
Qed.

(** ** The statistics of [main] *)

(** X6: the number of videos [main] prints is the count the formatter
    returns: the records the formatter drops for lack of a primary URL and
    of episodes count for nothing in the sum of [main]. *)
Theorem total_episodes_is_video_count (videos : list VideoInfo) :
  Z.of_nat (total_episodes videos) = snd (generate_import_text videos).
Proof.
  rewrite count_is_units. f_equal.
  unfold total_units, valid_videos.
  change (total_episodes videos)
    with (list_sum
            (map playable_units
               (filter (fun v => truthy (v_title v) && negb (has_error v))
                  videos))).
  induction videos as [|v vs IH]; [reflexivity|].
  cbn [filter]. unfold valid_video at 1. fold (has_error v).
  destruct (truthy (v_title v) && negb (has_error v)); cbn [andb];
    [|exact IH].
  destruct (truthy (v_video_url v) || truthy (v_episodes v)) eqn:E.
  - cbn [map]. simpl list_sum. now rewrite IH.
  - apply orb_false_elim in E as [Eu Ee].
    cbn [map]. simpl list_sum. rewrite IH. unfold playable_units.
    apply truthy_false in Ee. rewrite Ee, Eu. reflexivity.
Qed.

(** X7: the records [main] counts as valid are the records the formatter
    keeps and the records [main] counts as without video. *)
Theorem valid_count_split (videos : list VideoInfo) :
  valid_count videos = length (valid_videos videos) + no_video_count videos.
Proof.
  unfold valid_count, valid_videos, no_video_count.
  induction videos as [|v vs IH]; [reflexivity|].
  cbn [filter]. unfold valid_video at 1. fold (has_error v).
  destruct (truthy (v_title v) && negb (has_error v)); cbn [andb];
    [|exact IH].
  destruct (truthy (v_video_url v)), (truthy (v_episodes v));
    cbn [orb negb andb length]; rewrite IH; lia.
Qed.

(** ** The records of [extract_from_page] *)

Lemma extract_author_nonempty (title : pystr) : extract_author title <> [].
Proof.
  unfold extract_author.
  destruct (first_author_length author_patterns title) as [[[H _] _] | ->].
  - intro E. rewrite E in H. simpl in H. lia.
  - now vm_compute.
Qed.

(** X8: a record the scraper returns carries the page URL and the id of
    that URL, and it is of one of two kinds: no failure reason and a title
    that is not empty, with the author inferred from that title; or a
    failure reason and an empty title. *)
Theorem scraped_record_shape (I : Interp) (net : nat -> response)
    (page_url : pystr) (r : VideoInfo) :
  extract_from_page I net page_url = Some r ->
  v_page_url r = page_url
  /\ v_id r = video_id I page_url
  /\ ((v_error r = None /\ v_title r <> []
       /\ v_author r = extract_author (v_title r))
      \/ (exists msg, v_error r = Some msg /\ v_title r = [])).
Proof.
  intro H. apply attempt_loop_some in H as [[html H] | [msg ->]].
  - destruct (parse_page_title _ _ _ _ H) as (Ht & Ha & Hp & Hi).
    apply parse_page_episodes in H as (_ & _ & He).
    split; [exact Hp|]. split; [exact Hi|]. left.
    split; [exact He|]. split; [now apply truthy_true | exact Ha].
  - repeat split. right. now exists msg.
Qed.

Lemma scraped_record_shape_witness :
  exists r,
    extract_from_page (first_seen_interp 0) (net_always (Body page_full))
      url_archive = Some r
    /\ v_page_url r = url_archive
    /\ v_id r = video_id (first_seen_interp 0) url_archive
    /\ ((v_error r = None /\ v_title r <> []
         /\ v_author r = extract_author (v_title r))
        \/ (exists msg, v_error r = Some msg /\ v_title r = [])).
Proof.
  eexists. split; [now vm_compute|].
  apply (scraped_record_shape (first_seen_interp 0)
           (net_always (Body page_full)) url_archive).
  now vm_compute.
Defined.

(** The attempts before [k] all failing, the loop is at attempt [k]. *)
Lemma attempt_loop_skip (I : Interp) (net : nat -> response)
    (page_url : pystr) (k : nat) :
  k < 3 ->
  (forall j, j < k -> attempt_fails I net page_url j) ->
  extract_from_page I net page_url
  = match try_body I net page_url k with
    | Returned result => result
    | Raises msg =>
        if (k =? 2)%nat then Some (failed_record I page_url msg)
        else attempt_loop I net page_url (seq (S k) (2 - k))
    end.
Proof.
  intros Hk Hfail. unfold extract_from_page. simpl seq. cbn [attempt_loop].
  destruct k as [|[|[|k]]]; try lia.
  - reflexivity.
  - destruct (Hfail 0) as [m0 ->]; [lia|]. reflexivity.
  - destruct (Hfail 0) as [m0 ->]; [lia|].
    destruct (Hfail 1) as [m1 ->]; [lia|]. reflexivity.
Qed.

(** X9: the scraper returns what the parse of the first body returns that
    it gets and parses without an exception within the three attempts,
    after any number of failed attempts before it (the fetch raised, or the
    parse of the body did); the attempts after it do not matter. *)
Theorem extract_from_page_first_body (I : Interp) (net : nat -> response)
    (page_url html : pystr) (k : nat) (result : option VideoInfo) :
  k < 3 ->
  (forall j, j < k -> attempt_fails I net page_url j) ->
  net k = Body html ->
  parse_page I page_url html = Returned result ->
  extract_from_page I net page_url = result.
Proof.
  intros Hk Hfail Hbody Hparse.
  rewrite (attempt_loop_skip I net page_url k Hk Hfail).
  unfold try_body. now rewrite Hbody, Hparse.
Qed.

Lemma extract_from_page_first_body_witness :
  extract_from_page (first_seen_interp 0)
    (fun attempt =>
       match attempt with
       | 0 => Raised (U "timed out")
       | 1 => Body page_long_zeros
       | _ => Body page_no_title
       end)
    url_archive
  = None.
Proof.
  apply (extract_from_page_first_body (first_seen_interp 0) _ url_archive
           page_no_title 2).
  - lia.
  - intros j Hj. destruct j as [|[|j]]; [| |lia].
    + now exists (U "timed out").
    + exists (int_limit_text 4301). now vm_compute.
  - reflexivity.
  - now vm_compute.
Defined.

Lemma existsb_pystr_In (t : pystr) (l : list pystr) :
  existsb (pystr_eqb t) l = false -> ~ In t l.
Proof.
  induction l as [|x l IH]; simpl; [tauto|].
  intro H. apply orb_false_elim in H as [H1 H2].
  apply pystr_eqb_neq in H1. intros [E | E]; [congruence | now apply IH].
Qed.

Lemma add_tags_inv (groups : list pystr) :
  forall tags,
    NoDup tags -> Forall (fun t => t <> [] /\ strip t = t) tags ->
    NoDup (fold_left add_tag groups tags)
    /\ Forall (fun t => t <> [] /\ strip t = t) (fold_left add_tag groups tags).
Proof.
  induction groups as [|g groups IH]; intros tags Hnd Hall; [now split|].
  cbn [fold_left]. apply IH; unfold add_tag; cbv zeta;
    destruct (truthy (strip g)) eqn:Et; cbn [andb]; try assumption;
    destruct (existsb (pystr_eqb (strip g)) tags) eqn:Ex; cbn [negb];
    try assumption.
  - apply Permutation_NoDup with (strip g :: tags);
      [apply Permutation_cons_append|].
    constructor; [now apply existsb_pystr_In | exact Hnd].
  - apply Forall_app. split; [exact Hall|].
    constructor; [|constructor].
    split; [now apply truthy_true | apply strip_idem].
Qed.

(** X10: the tags of a page come out without repetition, none of them
    empty and none with white space at either end. *)
Theorem extract_tags_clean (html : pystr) :
  NoDup (extract_tags html)
  /\ Forall (fun t => t <> [] /\ strip t = t) (extract_tags html).
Proof.
  unfold extract_tags.
  destruct (search_group article_tags_pattern html) as [content|].
  - apply add_tags_inv; constructor.
  - split; constructor.
Qed.

(** ** Episode resolution, continued *)

Lemma episodes_of_sources (I : Interp) (html : pystr) :
  Forall
    (fun e =>
       In (ep_video_url e) (found_video_urls html)
       /\ ep_video_url e <> []
       /\ ((episode_number (ep_video_url e) = Some (ep_num e)
            /\ ep_title e = episode_title (ep_num e))
           \/ (ep_num e = 1%Z /\ ep_title e = U "正片")))
    (episodes_of I html).
Proof.
  unfold episodes_of.
  remember (set_list I (found_video_urls html)) as urls eqn:Eurls.
  assert (Hin : forall x, In x urls -> In x (found_video_urls html))
    by (intros x; subst urls; apply set_list_In).
  destruct (numbered_inv urls) as [_ Hall].
  destruct (resolve_episodes_cases urls)
    as [[_ ->] | [(_ & _ & ->) | (_ & first & rest & Hu & ->)]].
  - apply Permutation_Forall with (numbered urls);
      [symmetry; apply sort_by_perm|].
    eapply Forall_impl; [|exact Hall].
    intros e (_ & Hurl & Hnum & Htitle).
    split; [now apply Hin|].
    split; [apply (found_video_urls_nonempty html); now apply Hin|].
    now left.
  - constructor.
  - constructor; [|constructor]. cbn.
    assert (Hf : In first (found_video_urls html))
      by (apply Hin; rewrite Hu; now left).
    split; [exact Hf|].
    split; [now apply (found_video_urls_nonempty html)|]. now right.
Qed.

(** X11: every episode of a page sits on one of the URLs found on the page,
    a URL that is not empty; it is either a numbered episode, with the
    number read from its URL and the title made from that number, or the
    single episode numbered 1 and titled [正片]. *)
Theorem episodes_from_found_urls (I : Interp) (html : pystr) :
  Forall
    (fun e =>
       In (ep_video_url e) (found_video_urls html)
       /\ ep_video_url e <> []
       /\ ((episode_number (ep_video_url e) = Some (ep_num e)
            /\ ep_title e = episode_title (ep_num e))
           \/ (ep_num e = 1%Z /\ ep_title e = U "正片")))
    (episodes_of I html).
Proof. apply episodes_of_sources. Qed.

Lemma numbered_carries (urls : list pystr) (n : Z) :
  In n (map ep_num (numbered urls)) <-> carries urls n.
Proof.
  destruct (numbered_inv urls) as [_ Hall]. rewrite Forall_forall in Hall.
  split.
  - intro H. apply in_map_iff in H as (e & <- & He).
    destruct (Hall e He) as (Hpos & Hurl & Hnum & _).
    split; [exact Hpos|]. now exists (ep_video_url e).
  - intros (Hpos & u & Hu & Hnum).
    pose proof (numbered_first n urls Hpos) as Hf.
    destruct (find (has_number n) urls) as [w|] eqn:Ew.
    + assert (He : In (mkEpisode n (episode_title n) w)
                      (filter (fun e => (ep_num e =? n)%Z) (numbered urls)))
        by (rewrite Hf; now left).
      apply filter_In in He as [He _].
      change n with (ep_num (mkEpisode n (episode_title n) w)).
      now apply in_map.
    + exfalso. pose proof (find_none _ _ Ew _ Hu) as Hn.
      unfold has_number in Hn. rewrite Hnum, Z.eqb_refl in Hn. discriminate.
Qed.

(** The numbers of the episodes of a page, read off the URLs found: the
    positive numbers the URLs carry, or 1 alone when there are URLs and
    none carries a positive number. *)
Lemma episode_numbers_spec (I : Interp) (html : pystr) (n : Z) :
  In n (map ep_num (episodes_of I html))
  <-> carries (found_video_urls html) n
      \/ ((forall m, ~ carries (found_video_urls html) m)
          /\ found_video_urls html <> [] /\ n = 1%Z).
Proof.
  unfold episodes_of.
  remember (set_list I (found_video_urls html)) as urls eqn:Eurls.
  assert (Hin : forall x, In x urls <-> In x (found_video_urls html))
    by (intros x; subst urls; apply set_list_In).
  assert (Hc : forall m, carries urls m <-> carries (found_video_urls html) m).
  { intro m. unfold carries. split; intros (Hp & u & Hu & Hn);
      (split; [exact Hp|]); exists u; (split; [now apply Hin | exact Hn]). }
  destruct (resolve_episodes_cases urls)
    as [[Hne ->] | [(Hn & He & ->) | (Hn & first & rest & Hu & ->)]].
  - assert (Hs : In n (map ep_num (sort_by Z.ltb ep_num (numbered urls)))
                 <-> In n (map ep_num (numbered urls))).
    { pose proof (Permutation_map ep_num
                    (sort_by_perm Z.ltb ep_num (numbered urls))) as HP.
      split; intro H; [now apply (Permutation_in _ HP)|].
      now apply (Permutation_in _ (Permutation_sym HP)). }
    rewrite Hs, numbered_carries, Hc. split; [now left|].
    intros [H | (Hnone & _)]; [exact H|]. exfalso.
    destruct (numbered urls) as [|e es] eqn:E; [now apply Hne|].
    apply (Hnone (ep_num e)), Hc, numbered_carries. rewrite E. now left.
  - simpl. split; [tauto|]. intros [H | (_ & Hf & _)].
    + apply Hc, numbered_carries in H. now rewrite Hn in H.
    + destruct (found_video_urls html) as [|x l] eqn:Ef; [now apply Hf|].
      assert (Hx : In x urls) by (apply Hin; now left).
      now rewrite He in Hx.
  - simpl. split.
    + intros [<- | []]. right. split; [|split; [|reflexivity]].
      * intros m Hm. apply Hc, numbered_carries in Hm. now rewrite Hn in Hm.
      * intro Hf. assert (Hx : In first urls) by (rewrite Hu; now left).
        apply Hin in Hx. now rewrite Hf in Hx.
    + intros [H | (_ & _ & ->)]; [|now left].
      apply Hc, numbered_carries in H. now rewrite Hn in H.
Qed.

(** X12: the list of the episode numbers of a page is the same under every
    iteration order of the URL set (only the URL chosen for a number that
    several URLs carry depends on the order). *)
Theorem episode_numbers_order_independent (I I' : Interp) (html : pystr) :
  map ep_num (episodes_of I html) = map ep_num (episodes_of I' html).
Proof.
  apply strict_sorted_unique with (R := Z.lt).
  - intros a b. lia.
  - apply StronglySorted_map, episodes_of_inv.
  - apply StronglySorted_map, episodes_of_inv.
  - intro n. now rewrite !episode_numbers_spec.
Qed.

(** ** From the scraper to the formatter *)

Lemma filter_all {A : Type} (f : A -> bool) (l : list A) :
  Forall (fun x => f x = true) l -> filter f l = l.
Proof.
  induction 1 as [|x l Hx _ IH]; simpl; [reflexivity|].
  now rewrite Hx, IH.
Qed.

(** X13: for a record the scraper returns without failure reason the
    formatter writes one block per episode; the record passes the filter
    exactly when it has an episode; and its author is never empty, so it is
    grouped under its own author and not under the sentinel by default. *)
Theorem scraped_record_blocks (I : Interp) (net : nat -> response)
    (page_url : pystr) (r : VideoInfo) :
  extract_from_page I net page_url = Some r ->
  v_error r = None ->
  playable_units r = length (v_episodes r)
  /\ (valid_video r = true <-> v_episodes r <> [])
  /\ author_key r = v_author r.
Proof.
  intros H Herr. apply attempt_loop_some in H as [[html H] | [msg ->]];
    [|discriminate].
  destruct (parse_page_episodes _ _ _ _ H) as (Heps & Hurl & _).
  destruct (parse_page_title _ _ _ _ H) as (Ht & Ha & _).
  assert (Hauthor : truthy (v_author r) = true).
  { apply truthy_true. rewrite Ha. apply extract_author_nonempty. }
  unfold playable_units, valid_video, author_key.
  rewrite Ht, Herr, Hauthor, Heps, Hurl. cbn [andb negb].
  pose proof (episodes_of_sources I html) as Hsrc.
  assert (Hurls : filter (fun ep => truthy (ep_video_url ep))
                    (episodes_of I html) = episodes_of I html).
  { apply filter_all. eapply Forall_impl; [|exact Hsrc].
    intros e (_ & Hne & _). now apply truthy_true. }
  rewrite Hurls. clear Hurls Hsrc.
  pose proof (found_video_urls_nonempty html) as Hne.
  pose proof (set_list_In I (found_video_urls html)) as Hin.
  unfold episodes_of.
  destruct (set_list I (found_video_urls html)) as [|u urls].
  - cbn. repeat split; congruence.
  - pose proof (resolve_episodes_nonempty u urls) as Hres.
    assert (Hu : truthy u = true).
    { apply truthy_true, Hne, Hin. now left. }
    cbn [primary_url]. rewrite Hu. cbn [orb].
    split; [|split; [|reflexivity]].
    + destruct (resolve_episodes (u :: urls)) as [|e [|e' es]];
        [contradiction | reflexivity | reflexivity].
    + split; [intros _; exact Hres | reflexivity].
Qed.

Lemma scraped_record_blocks_witness :
  exists r,
    extract_from_page (first_seen_interp 0) (net_always (Body page_full))
      url_archive = Some r
    /\ playable_units r = length (v_episodes r)
    /\ (valid_video r = true <-> v_episodes r <> [])
    /\ author_key r = v_author r.
Proof.
  eexists. split; [now vm_compute|].
  apply (scraped_record_blocks (first_seen_interp 0)
           (net_always (Body page_full)) url_archive).
  - now vm_compute.
  - reflexivity.
Defined.

(** ** [extract_author], continued *)

Lemma category_marker_brackets (s s' : pystr) :
  matches (seq_re category_marker) s s' ->
  In 0x3010%N s /\ In 0x3011%N s.
Proof.
  intro M. change (seq_re category_marker)
    with (Cat (txt (U "【"))
            (Cat (many1 (noneof (U "】")))
               (Cat (txt (U "】")) (Cat (many isspace) Eps)))) in M.
  inversion M as [| |r1 r2 a s1 b M1 M2| | | |]; subst.
  inversion M2 as [| |r1 r2 a s2 b M3 M4| | | |]; subst.
  inversion M4 as [| |r1 r2 a s3 b M5 M6| | | |]; subst.
  apply (matches_txt (U "【")) in M1. apply (matches_txt (U "】")) in M5.
  apply (matches_many1 (noneof (U "】"))) in M3 as (w & Hw & _).
  subst s s1 s2. split.
  - simpl. now left.
  - simpl. right. apply in_or_app. right. simpl. now left.
Qed.

Lemma author_pattern_brackets (p : pattern) (title g : pystr) :
  In p author_patterns -> search_group p title = Some g ->
  In 0x3010%N title /\ In 0x3011%N title.
Proof.
  intros Hp H. unfold search_group in H.
  destruct (re_search p title) as [[g' rest]|] eqn:E; [|discriminate].
  apply re_search_sound in E as (pre & s' & -> & Hm & _).
  apply match_at_sound in Hm as (s2 & M & _).
  assert (Hb : before p = seq_re category_marker).
  { unfold author_patterns in Hp.
    destruct Hp as [<- | [<- | [<- | [<- | []]]]]; reflexivity. }
  rewrite Hb in M. apply category_marker_brackets in M as [H1 H2].
  split; apply in_or_app; now right.
Qed.

(** X14: a title without the opening bracket [【] or without the closing
    bracket [】] of the category marker gets the sentinel author. *)
Theorem extract_author_needs_marker (title : pystr) :
  ~ In 0x3010%N title \/ ~ In 0x3011%N title ->
  extract_author title = uncategorized.
Proof.
  intro Hno. unfold extract_author.
  assert (Hall : forall ps,
             (forall p, In p ps -> In p author_patterns) ->
             first_author ps title = uncategorized).
  { induction ps as [|p ps IH]; intro Hsub; [reflexivity|].
    cbn [first_author].
    destruct (search_group p title) as [g|] eqn:E.
    - exfalso.
      destruct (author_pattern_brackets p title g) as [H1 H2];
        [apply Hsub; now left | exact E | tauto].
    - apply IH. intros q Hq. apply Hsub. now right. }
  apply Hall. auto.
Qed.

Lemma extract_author_needs_marker_witness :
  extract_author (U "Foo - bar 01") = uncategorized.
Proof.
  apply (extract_author_needs_marker (U "Foo - bar 01")).
  left. vm_compute. intuition discriminate.
Defined.

(** ** Reading a match piece by piece *)

Lemma matches_cat_inv (r1 r2 : re) (s s' : pystr) :
  matches (Cat r1 r2) s s' ->
  exists m, matches r1 s m /\ matches r2 m s'.
Proof.
  intro M. inversion M as [| |a b c m d M1 M2| | | |]; subst. now exists m.
Qed.

Lemma matches_eps_inv (s s' : pystr) : matches Eps s s' -> s = s'.
Proof. intro M. now inversion M. Qed.

Lemma matches_seq_app (rs1 rs2 : list re) :
  forall s s',
    matches (seq_re (rs1 ++ rs2)) s s' ->
    exists m, matches (seq_re rs1) s m /\ matches (seq_re rs2) m s'.
Proof.
  induction rs1 as [|r rs1 IH]; intros s s' M.
  - exists s. split; [constructor | exact M].
  - change (seq_re ((r :: rs1) ++ rs2))
      with (Cat r (seq_re (rs1 ++ rs2))) in M.
    apply matches_cat_inv in M as (m1 & M1 & M2).
    destruct (IH _ _ M2) as (m & M3 & M4).
    exists m. split; [|exact M4].
    change (seq_re (r :: rs1)) with (Cat r (seq_re rs1)).
    now apply M_Cat with m1.
Qed.

Lemma matches_txt_i (l : pystr) :
  forall s s',
    matches (txt_i l) s s' -> exists w, s = w ++ s' /\ same_folded l w.
Proof.
  induction l as [|c l IH]; intros s s' M.
  - apply matches_eps_inv in M. subst. now exists [].
  - change (txt_i (c :: l)) with (Cat (Chr (lit_i c)) (txt_i l)) in M.
    apply matches_cat_inv in M as (m & M1 & M2).
    inversion M1 as [|q d t Hq| | | | |]; subst.
    destruct (IH _ _ M2) as (w & -> & Hw).
    exists (d :: w). split; [reflexivity|].
    unfold same_folded in *. simpl. rewrite Hw. f_equal.
    unfold lit_i in Hq. now apply N.eqb_eq in Hq.
Qed.

Lemma matches_alts (rs : list re) (s s' : pystr) :
  matches (alts rs) s s' -> exists r, In r rs /\ matches r s s'.
Proof.
  induction rs as [|r rs IH]; intro M.
  - inversion M as [|q d t Hq| | | | |]; subst. discriminate.
  - destruct rs as [|r' rs'].
    + exists r. split; [now left | exact M].
    + change (alts (r :: r' :: rs')) with (Alt r (alts (r' :: rs'))) in M.
      inversion M as [| | |a b c d M1|a b c d M1| |]; subst.
      * exists r. split; [now left | exact M1].
      * destruct (IH M1) as (r0 & Hr0 & M0).
        exists r0. split; [now right | exact M0].
Qed.

(** A character that no class of the pattern accepts is not in the text
    the pattern consumes. *)
Lemma matches_rejects (c : N) (r : re) (s s' : pystr) :
  rejects c r = true -> matches r s s' ->
  exists w, s = w ++ s' /\ ~ In c w.
Proof.
  intros Hr M. revert Hr.
  induction M as [s|p d s Hp|r1 r2 s s1 s2 _ IH1 _ IH2|r1 r2 s s' _ IH
                 |r1 r2 s s' _ IH|g p w s Hw|s Hs]; simpl; intro Hr.
  - now exists [].
  - exists [d]. split; [reflexivity|]. intros [<- | []].
    rewrite Hp in Hr. discriminate.
  - apply andb_prop in Hr as [H1 H2].
    destruct (IH1 H1) as (w1 & -> & N1), (IH2 H2) as (w2 & -> & N2).
    exists (w1 ++ w2). rewrite <- app_assoc. split; [reflexivity|].
    intro H. apply in_app_or in H. tauto.
  - apply andb_prop in Hr as [H1 _]. exact (IH H1).
  - apply andb_prop in Hr as [_ H2]. exact (IH H2).
  - exists w. split; [reflexivity|]. intro H.
    rewrite forallb_forall in Hw. rewrite (Hw c H) in Hr. discriminate.
  - now exists [].
Qed.

Lemma fold_case_punct (c : N) :
  (fold_case c = 46%N -> c = 46%N) /\ (fold_case c = 47%N -> c = 47%N).
Proof.
  unfold fold_case.
  destruct ((65 <=? c) && (c <=? 90))%N eqn:E1.
  - apply andb_prop in E1 as [H1 H2]. apply N.leb_le in H1, H2.
    split; intro; lia.
  - destruct ((c =? 0x130) || (c =? 0x131))%N; [split; discriminate|].
    destruct (c =? 0x17F)%N; [split; discriminate|].
    destruct (c =? 0x212A)%N; [split; discriminate|].
    now split.
Qed.

Lemma same_folded_dot (w : pystr) : same_folded (U ".") w -> w = [46%N].
Proof.
  unfold same_folded. destruct w as [|c [|d w]]; try discriminate.
  intro H. injection H as H. f_equal. now apply fold_case_punct.
Qed.

Lemma same_folded_slash (w : pystr) : same_folded (U "/") w -> w = [47%N].
Proof.
  unfold same_folded. destruct w as [|c [|d w]]; try discriminate.
  intro H. injection H as H. f_equal. now apply fold_case_punct.
Qed.

Lemma same_folded_length (l w : pystr) :
  same_folded l w -> length w = length l.
Proof.
  unfold same_folded. intro H. apply (f_equal (@length N)) in H.
  now rewrite !length_map in H.
Qed.

Lemma video_extensions_names :
  video_extensions = alts (map (fun e => txt_i (U e)) extension_names).
Proof. reflexivity. Qed.

(** The text [video_extensions] consumes is one of the extensions. *)
Lemma matches_video_extensions (s s' : pystr) :
  matches video_extensions s s' ->
  exists ext, s = ext ++ s' /\ has_extension ext.
Proof.
  rewrite video_extensions_names. intro M.
  apply matches_alts in M as (r & Hr & M).
  apply in_map_iff in Hr as (e & <- & He).
  apply matches_txt_i in M as (w & -> & Hw).
  exists w. split; [reflexivity|]. now exists e.
Qed.

(** The end of a pattern that closes with [\.EXT]. *)
Lemma matches_dot_extension (front : list re) (s s' : pystr) :
  matches (seq_re (front ++ [txt_i (U "."); video_extensions])) s s' ->
  exists stem ext,
    s = stem ++ [46%N] ++ ext ++ s' /\ has_extension ext.
Proof.
  intro M. apply matches_seq_app in M as (m & M1 & M2).
  apply matches_prefix in M1 as (stem & -> & _).
  change (seq_re [txt_i (U "."); video_extensions])
    with (Cat (txt_i (U ".")) (Cat video_extensions Eps)) in M2.
  apply matches_cat_inv in M2 as (m1 & Md & M2).
  apply matches_cat_inv in M2 as (m2 & Me & M2).
  apply matches_eps_inv in M2. subst m2.
  apply matches_txt_i in Md as (wd & -> & Hd).
  apply same_folded_dot in Hd. subst wd.
  apply matches_video_extensions in Me as (ext & -> & He).
  exists stem, ext. now split.
Qed.

Lemma video_group_shape (p : pattern) :
  In p video_patterns ->
  exists mid,
    group p
    = seq_re ((txt_i (U "http") :: mid) ++ [txt_i (U "."); video_extensions]).
Proof.
  unfold video_patterns. intros [<- | [<- | [<- | []]]].
  - now exists [maybe (Chr (lit_i 115%N)); txt_i (U "://");
                txt_i (U "cdn.mikiacg.vip/"); many1 not_quote].
  - now exists [maybe (Chr (lit_i 115%N)); txt_i (U "://"); many not_quote;
                txt_i (U "mikiacg"); many not_quote; txt_i (U "/");
                many1 not_quote].
  - now exists [maybe (Chr (lit_i 115%N)); txt_i (U "://");
                many1 not_quote].
Qed.

(** X15: every media URL found on a page starts with [http] in any letter
    case, holds neither quote character, and ends with a dot and one of the
    ten extensions in any letter case. *)
Theorem found_url_shape (html u : pystr) :
  In u (found_video_urls html) ->
  same_folded (U "http") (firstn 4 u)
  /\ ~ In dquote u /\ ~ In squote u
  /\ exists stem ext, u = stem ++ [46%N] ++ ext /\ has_extension ext.
Proof.
  unfold found_video_urls. intro H.
  apply in_flat_map in H as (p & Hp & Hu).
  apply finditer_from_match in Hu as (pre & s' & rest & _ & Hm).
  apply match_at_sound in Hm as (s2 & _ & M & _).
  assert (Hq : forallb
                 (fun p => rejects dquote (group p) && rejects squote (group p))
                 video_patterns = true) by now vm_compute.
  rewrite forallb_forall in Hq. specialize (Hq p Hp).
  apply andb_prop in Hq as [Hd Hs].
  destruct (video_group_shape p Hp) as [mid Hg].
  split; [|split; [|split]].
  - rewrite Hg in M.
    change (seq_re ((txt_i (U "http") :: mid)
                    ++ [txt_i (U "."); video_extensions]))
      with (Cat (txt_i (U "http"))
              (seq_re (mid ++ [txt_i (U "."); video_extensions]))) in M.
    apply matches_cat_inv in M as (m & M1 & M2).
    apply matches_txt_i in M1 as (w & E & Hw).
    apply matches_prefix in M2 as (w2 & -> & _).
    rewrite app_assoc in E. apply app_inv_tail in E. subst u.
    pose proof (same_folded_length _ _ Hw) as L.
    change (length (U "http")) with 4 in L.
    rewrite firstn_app, <- L, Nat.sub_diag, firstn_all. simpl.
    now rewrite app_nil_r.
  - destruct (matches_rejects _ _ _ _ Hd M) as (w & E & Hn).
    apply app_inv_tail in E. now subst w.
  - destruct (matches_rejects _ _ _ _ Hs M) as (w & E & Hn).
    apply app_inv_tail in E. now subst w.
  - rewrite Hg in M. apply matches_dot_extension in M
      as (stem & ext & E & He).
    exists stem, ext. split; [|exact He].
    rewrite !app_assoc in E. apply app_inv_tail in E.
    now rewrite <- !app_assoc in E.
Qed.

Lemma found_url_shape_witness :
  same_folded (U "http") (firstn 4 url_video)
  /\ ~ In dquote url_video /\ ~ In squote url_video
  /\ exists stem ext, url_video = stem ++ [46%N] ++ ext /\ has_extension ext.
Proof.
  apply (found_url_shape page_unnumbered url_video).
  vm_compute. now left.
Defined.

Lemma int_of_digits_nonneg (s : pystr) : (0 <= int_of_digits s)%Z.
Proof.
  unfold int_of_digits.
  assert (H : forall acc, (0 <= acc)%Z ->
            (0 <= fold_left
                    (fun acc c =>
                       (acc * 10 + match decimal_value c with
                                   | Some d => Z.of_N d
                                   | None => 0
                                   end)%Z) s acc)%Z).
  { induction s as [|c s IH]; intros acc Ha; simpl; [exact Ha|].
    apply IH. destruct (decimal_value c); lia. }
  apply H. lia.
Qed.

(** X16: a URL carries an episode number only when it ends (up to one
    final newline) with a slash, a run of decimal digits, a dot and one of
    the extensions; the number is the value of that run and is not
    negative. *)
Theorem episode_number_sound (url : pystr) (n : Z) :
  episode_number url = Some n ->
  exists pre digits ext tail,
    url = pre ++ [47%N] ++ digits ++ [46%N] ++ ext ++ tail
    /\ digits <> [] /\ forallb isdecimal digits = true
    /\ n = int_of_digits digits
    /\ has_extension ext
    /\ (tail = [] \/ tail = [newline])
    /\ (0 <= n)%Z.
Proof.
  unfold episode_number, search_group. intro H.
  destruct (re_search num_pattern url) as [[g rest]|] eqn:E; [|discriminate].
  cbn in H. injection H as <-.
  apply re_search_sound in E as (pre & s' & -> & Hm & _).
  destruct (match_at_many1 num_pattern isdecimal s' g rest eq_refl Hm)
    as [Hn Hd].
  apply match_at_sound in Hm as (s2 & M1 & _ & M3).
  change (before num_pattern) with (txt_i (U "/")) in M1.
  apply matches_txt_i in M1 as (w & -> & Hw).
  apply same_folded_slash in Hw. subst w.
  change (after num_pattern)
    with (Cat (txt_i (U "."))
            (Cat video_extensions (Cat Eos Eps))) in M3.
  apply matches_cat_inv in M3 as (m1 & Md & M3).
  apply matches_cat_inv in M3 as (m2 & Me & M3).
  apply matches_cat_inv in M3 as (m3 & Mz & M3).
  apply matches_eps_inv in M3. subst m3.
  apply matches_txt_i in Md as (wd & -> & Hdot).
  apply same_folded_dot in Hdot. subst wd.
  apply matches_video_extensions in Me as (ext & -> & He).
  inversion Mz as [| | | | | |t Ht]; subst.
  exists pre, g, ext, rest.
  repeat split; try assumption. apply int_of_digits_nonneg.
Qed.

Lemma episode_number_sound_witness :
  exists pre digits ext tail,
    url_3 = pre ++ [47%N] ++ digits ++ [46%N] ++ ext ++ tail
    /\ digits <> [] /\ forallb isdecimal digits = true
    /\ 3%Z = int_of_digits digits
    /\ has_extension ext
    /\ (tail = [] \/ tail = [newline])
    /\ (0 <= 3)%Z.
Proof.
  apply (episode_number_sound url_3 3). now vm_compute.
Defined.

(** ** [get_video_links] *)

(** X17: when the three attempts at a listing page all fail, the page gives
    no link (which [main] cannot tell from the end of the listing). *)
Theorem get_video_links_all_fail (I : Interp)
    (web : pystr -> nat -> response) (page : Z) :
  (forall k, k < 3 -> exists msg, web (listing_url page) k = Raised msg) ->
  get_video_links I web page = [].
Proof.
  intro Hfail. unfold get_video_links. simpl.
  destruct (Hfail 0) as [m0 ->]; [lia|].
  destruct (Hfail 1) as [m1 ->]; [lia|].
  destruct (Hfail 2) as [m2 ->]; [lia|]. reflexivity.
Qed.

Lemma get_video_links_all_fail_witness :
  get_video_links (first_seen_interp 0)
    (fun _ _ => Raised (U "connection refused")) 4 = [].
Proof.
  apply (get_video_links_all_fail (first_seen_interp 0)
           (fun _ _ => Raised (U "connection refused")) 4).
  intros k _. now exists (U "connection refused").
Defined.

(** X18: the links of a listing page are those of the first body obtained
    within the three attempts, after any number of failed attempts. *)
Theorem get_video_links_first_body (I : Interp)
    (web : pystr -> nat -> response) (page : Z) (html : pystr) (k : nat) :
  k < 3 ->
  (forall j, j < k -> exists msg, web (listing_url page) j = Raised msg) ->
  web (listing_url page) k = Body html ->
  get_video_links I web page = page_links I html.
Proof.
  intros Hk Hfail Hbody. unfold get_video_links. simpl.
  destruct k as [|[|[|k]]]; try lia.
  - now rewrite Hbody.
  - destruct (Hfail 0) as [m0 ->]; [lia|]. now rewrite Hbody.
  - destruct (Hfail 0) as [m0 ->]; [lia|].
    destruct (Hfail 1) as [m1 ->]; [lia|]. now rewrite Hbody.
Qed.

Lemma get_video_links_first_body_witness :
  get_video_links (first_seen_interp 0)
    (fun _ attempt =>
       match attempt with
       | 2 => Body page_listing
       | _ => Raised (U "timed out")
       end) 1
  = page_links (first_seen_interp 0) page_listing.
Proof.
  apply (get_video_links_first_body (first_seen_interp 0) _ 1
           page_listing 2).
  - lia.
  - intros j Hj. destruct j as [|[|j]]; [| |lia]; now exists (U "timed out").
  - reflexivity.
Defined.

Lemma listing_loop_cases (I : Interp) (net : nat -> response)
    (attempts : list nat) :
  listing_loop I net attempts = []
  \/ exists html, listing_loop I net attempts = page_links I html.
Proof.
  induction attempts as [|a rest IH]; simpl; [now left|].
  destruct (net a) as [html | msg]; [right; now exists html | exact IH].
Qed.

Lemma page_links_shape (I : Interp) (html link : pystr) :
  In link (page_links I html) -> listing_link link.
Proof.
  unfold page_links. intro H. apply set_list_In in H.
  apply in_map_iff in H as (g & <- & Hg).
  apply finditer_from_match in Hg as (pre & s' & rest & _ & Hm).
  apply match_at_sound in Hm as (s2 & _ & M & _).
  assert (Hq : ~ In dquote g).
  { assert (Hr : rejects dquote (group link_pattern) = true)
      by now vm_compute.
    destruct (matches_rejects _ _ _ _ Hr M) as (w & E & Hn).
    apply app_inv_tail in E. now subst w. }
  change (group link_pattern)
    with (Cat (many (noneof [dquote]))
            (Cat (txt_i (U "/archives/"))
               (Cat (many1 isdecimal) (Cat (txt_i (U ".html")) Eps)))) in M.
  apply matches_cat_inv in M as (m1 & M0 & M).
  apply matches_cat_inv in M as (m2 & Ma & M).
  apply matches_cat_inv in M as (m3 & Md & M).
  apply matches_cat_inv in M as (m4 & Mh & M).
  apply matches_eps_inv in M. subst m4.
  apply matches_prefix in M0 as (w0 & E0 & _).
  apply matches_txt_i in Ma as (a & -> & Ha).
  apply matches_many1 in Md as (ds & -> & Hn & Hd).
  apply matches_txt_i in Mh as (h & -> & Hh).
  rewrite !app_assoc in E0. apply app_inv_tail in E0.
  rewrite <- !app_assoc in E0. subst g.
  unfold absolute_link.
  destruct (starts_with (U "http") (w0 ++ a ++ ds ++ h)) eqn:Es.
  - split; [exact Es|]. split; [exact Hq|].
    now exists w0, a, ds, h.
  - split; [reflexivity|]. split.
    + intro Hin. apply in_app_or in Hin as [Hin | Hin]; [|now apply Hq].
      vm_compute in Hin. intuition discriminate.
    + exists (BASE_URL ++ w0), a, ds, h.
      now rewrite <- app_assoc.
Qed.

(** X19: the links [get_video_links] returns are pairwise different, and
    each of them starts with [http], holds no double quote, and ends with
    an archive token: [/archives/], digits and [.html], in any letter
    case. *)
Theorem get_video_links_shape (I : Interp)
    (web : pystr -> nat -> response) (page : Z) :
  NoDup (get_video_links I web page)
  /\ Forall listing_link (get_video_links I web page).
Proof.
  unfold get_video_links.
  destruct (listing_loop_cases I (web (listing_url page)) (seq 0 3))
    as [-> | [html ->]].
  - split; constructor.
  - split; [apply set_list_NoDup|].
    apply Forall_forall. intros link. apply page_links_shape.
Qed.

(** ** The discovery loop of [main] *)

Lemma listing_loop_ext (I : Interp) (net net' : nat -> response)
    (attempts : list nat) :
  (forall a, net a = net' a) ->
  listing_loop I net attempts = listing_loop I net' attempts.
Proof.
  intro H. induction attempts as [|a rest IH]; simpl; [reflexivity|].
  rewrite <- H. destruct (net a); [reflexivity | exact IH].
Qed.

Lemma collect_links_stop (I : Interp) (web web' : pystr -> nat -> response)
    (j : nat) :
  get_video_links I web (Z.of_nat j) = [] ->
  (forall p, 1 <= p <= j ->
             get_video_links I web (Z.of_nat p)
             = get_video_links I web' (Z.of_nat p)) ->
  forall n start acc,
    1 <= start -> start <= j < start + n ->
    collect_links I web (map Z.of_nat (seq start n)) acc
    = collect_links I web' (map Z.of_nat (seq start n)) acc.
Proof.
  intros Hempty Hagree. induction n as [|n IH]; intros start acc H1 Hj;
    [lia|].
  cbn [seq map collect_links].
  rewrite <- (Hagree start) by lia.
  destruct (Nat.eq_dec start j) as [-> | Hne].
  - now rewrite Hempty.
  - destruct (truthy (get_video_links I web (Z.of_nat start)));
      [|reflexivity].
    apply IH; lia.
Qed.

(** X20: the discovery stops at the first listing page that gives no link:
    two sites that answer alike on the pages up to such a page give the same
    links, whatever the later pages hold. *)
Theorem discovery_stops_at_empty_page (I : Interp)
    (web web' : pystr -> nat -> response) (k : Z) :
  In k page_range ->
  get_video_links I web k = [] ->
  (forall page attempt,
     (1 <= page <= k)%Z ->
     web (listing_url page) attempt = web' (listing_url page) attempt) ->
  unique_links I web = unique_links I web'.
Proof.
  intros Hk Hempty Hagree. unfold unique_links. f_equal.
  unfold page_range in *.
  apply in_map_iff in Hk as (j & <- & Hj). apply in_seq in Hj.
  unfold MAX_PAGES in *.
  apply collect_links_stop with j; [exact Hempty| |lia|lia].
  intros p Hp. unfold get_video_links.
  apply listing_loop_ext. intro a. apply Hagree. lia.
Qed.

Lemma discovery_stops_at_empty_page_witness :
  unique_links (first_seen_interp 0) web_small
  = unique_links (first_seen_interp 0)
      (fun url attempt =>
         if pystr_eqb url (listing_url 3) then Body page_listing
         else web_small url attempt).
Proof.
  apply (discovery_stops_at_empty_page (first_seen_interp 0) web_small
           (fun url attempt =>
              if pystr_eqb url (listing_url 3) then Body page_listing
              else web_small url attempt)
           2).
  - vm_compute. right. now left.
  - now vm_compute.
  - intros page attempt Hp.
    assert (Hpage : page = 1%Z \/ page = 2%Z) by lia.
    destruct Hpage as [-> | ->]; now vm_compute.
Defined.

Lemma get_video_links_in_shape (I : Interp)
    (web : pystr -> nat -> response) (page : Z) (link : pystr) :
  In link (get_video_links I web page) -> listing_link link.
Proof.
  unfold get_video_links.
  destruct (listing_loop_cases I (web (listing_url page)) (seq 0 3))
    as [-> | [html ->]]; [contradiction|].
  apply page_links_shape.
Qed.

Lemma collect_links_in (I : Interp) (web : pystr -> nat -> response)
    (pages : list Z) (link : pystr) :
  forall acc,
    In link (collect_links I web pages acc) ->
    In link acc
    \/ exists page, In page pages /\ In link (get_video_links I web page).
Proof.
  induction pages as [|page rest IH]; intros acc H; [now left|].
  cbn [collect_links] in H.
  destruct (truthy (get_video_links I web page)); [|now left].
  destruct (IH _ H) as [Hacc | (p & Hp & Hl)].
  - apply in_app_or in Hacc as [Hacc | Hl]; [now left|].
    right. exists page. split; [now left | exact Hl].
  - right. exists p. split; [now right | exact Hl].
Qed.

(** X21: the links [main] hands to the scraper are pairwise different, and
    each of them was returned for one of the listing pages 1 to 10; so each
    is absolute and ends with an archive token. *)
Theorem unique_links_sources (I : Interp) (web : pystr -> nat -> response) :
  NoDup (unique_links I web)
  /\ Forall
       (fun link =>
          listing_link link
          /\ exists page,
               (1 <= page <= 10)%Z
               /\ In link (get_video_links I web page))
       (unique_links I web).
Proof.
  unfold unique_links. split; [apply set_list_NoDup|].
  apply Forall_forall. intros link H. apply set_list_In in H.
  apply collect_links_in in H as [[] | (page & Hp & Hl)].
  split; [now apply get_video_links_in_shape with I web page|].
  exists page. split; [|exact Hl].
  unfold page_range, MAX_PAGES in Hp.
  apply in_map_iff in Hp as (j & <- & Hj). apply in_seq in Hj. lia.
Qed.

(** ** The records [main] collects *)

Lemma crawl_perm (I : Interp) (web : pystr -> nat -> response)
    (c1 c2 : list pystr) :
  Permutation c1 c2 -> Permutation (crawl I web c1) (crawl I web c2).
Proof.
  unfold crawl. induction 1 as [|a l l' HP IH|a b l|l l' l'' H1 IH1 H2 IH2];
    cbn [flat_map].
  - constructor.
  - now apply Permutation_app_head.
  - rewrite !app_assoc. apply Permutation_app_tail, Permutation_app_comm.
  - now transitivity
      (flat_map
         (fun link =>
            match extract_from_page I (web link) link with
            | Some result => [result]
            | None => []
            end) l').
Qed.

(** X22: the order in which the workers finish changes neither the count
    of the report, nor the sequence of its author headers, nor the
    statistics [main] prints. *)
Theorem crawl_order_independent (I : Interp)
    (web : pystr -> nat -> response) (c1 c2 : list pystr) :
  Permutation c1 c2 ->
  snd (generate_import_text (crawl I web c1))
  = snd (generate_import_text (crawl I web c2))
  /\ report_keys (crawl I web c1) = report_keys (crawl I web c2)
  /\ valid_count (crawl I web c1) = valid_count (crawl I web c2)
  /\ no_video_count (crawl I web c1) = no_video_count (crawl I web c2)
  /\ error_count (crawl I web c1) = error_count (crawl I web c2)
  /\ total_episodes (crawl I web c1) = total_episodes (crawl I web c2).
Proof.
  intro HP. apply (crawl_perm I web) in HP.
  destruct (generate_import_text_perm _ _ HP) as [H1 H2].
  split; [exact H1|]. split; [exact H2|].
  unfold valid_count, no_video_count, error_count, total_episodes.
  repeat split;
    try (apply Permutation_length; now apply filter_perm).
  apply list_sum_perm, Permutation_map. now apply filter_perm.
Qed.

Lemma crawl_order_independent_witness :
  snd (generate_import_text
         (crawl (first_seen_interp 0) web_small
            (unique_links (first_seen_interp 0) web_small)))
  = snd (generate_import_text
           (crawl (first_seen_interp 0) web_small
              (rev (unique_links (first_seen_interp 0) web_small))))
  /\ report_keys
       (crawl (first_seen_interp 0) web_small
          (unique_links (first_seen_interp 0) web_small))
     = report_keys
         (crawl (first_seen_interp 0) web_small
            (rev (unique_links (first_seen_interp 0) web_small)))
  /\ valid_count
       (crawl (first_seen_interp 0) web_small
          (unique_links (first_seen_interp 0) web_small))
     = valid_count
         (crawl (first_seen_interp 0) web_small
            (rev (unique_links (first_seen_interp 0) web_small)))
  /\ no_video_count
       (crawl (first_seen_interp 0) web_small
          (unique_links (first_seen_interp 0) web_small))
     = no_video_count
         (crawl (first_seen_interp 0) web_small
            (rev (unique_links (first_seen_interp 0) web_small)))
  /\ error_count
       (crawl (first_seen_interp 0) web_small
          (unique_links (first_seen_interp 0) web_small))
     = error_count
         (crawl (first_seen_interp 0) web_small
            (rev (unique_links (first_seen_interp 0) web_small)))
  /\ total_episodes
       (crawl (first_seen_interp 0) web_small
          (unique_links (first_seen_interp 0) web_small))
     = total_episodes
         (crawl (first_seen_interp 0) web_small
            (rev (unique_links (first_seen_interp 0) web_small))).
Proof.
  apply (crawl_order_independent (first_seen_interp 0) web_small).
  apply Permutation_rev.
Defined.

(** X23: the report in closed form: the text is, joined by newlines, for
    each author key in increasing order the header, an empty line and the
    blocks of the valid records of that author; the count is the number of
    playable units of the valid records. *)
Theorem report_layout (videos : list VideoInfo) :
  generate_import_text videos
  = (join [newline]
       (flat_map group_lines
          (sorted_items (group_by_author (valid_videos videos)))),
     Z.of_nat (total_units (valid_videos videos))).
Proof.
  pose proof (count_is_units videos) as Hc.
  unfold generate_import_text in *. cbn [snd] in Hc.
  now rewrite Hc, render_lines.
Qed.

Lemma parse_page_none (I : Interp) (page_url html : pystr) :
  parse_page I page_url html = Returned None -> extract_title html = [].
Proof.
  unfold parse_page.
  destruct (truthy (extract_title html)) eqn:Et.
  - cbn [negb].
    destruct (try_resolve_episodes (set_list I (found_video_urls html)));
      discriminate.
  - intros _. now apply truthy_false.
Qed.

(** What the [try] of an attempt returns comes from the parse of a body. *)
Lemma try_body_returned (I : Interp) (net : nat -> response)
    (page_url : pystr) (k : nat) (result : option VideoInfo) :
  try_body I net page_url k = Returned result ->
  exists html,
    net k = Body html /\ parse_page I page_url html = Returned result.
Proof.
  unfold try_body. destruct (net k) as [html | msg]; [|discriminate].
  intro H. now exists html.
Qed.

(** X24: a failure record is returned only after three failed attempts (at
    each, the fetch raised or the parse of the body did), and its failure
    reason is the text of the exception of the third attempt. *)
Theorem failure_record_means_three_failures (I : Interp)
    (net : nat -> response) (page_url : pystr) (r : VideoInfo)
    (msg : pystr) :
  extract_from_page I net page_url = Some r ->
  v_error r = Some msg ->
  try_body I net page_url 2 = Raises msg
  /\ forall k, k < 3 -> attempt_fails I net page_url k.
Proof.
  unfold extract_from_page. simpl. intros H Herr.
  assert (Hp : forall k, try_body I net page_url k = Returned (Some r) ->
                         False).
  { intros k Hk. apply try_body_returned in Hk as (html & _ & Hk).
    apply parse_page_episodes in Hk as (_ & _ & Hn). congruence. }
  destruct (try_body I net page_url 0) as [r0 | m0] eqn:E0;
    [subst r0; now apply Hp in E0|].
  destruct (try_body I net page_url 1) as [r1 | m1] eqn:E1;
    [subst r1; now apply Hp in E1|].
  destruct (try_body I net page_url 2) as [r2 | m2] eqn:E2;
    [subst r2; now apply Hp in E2|].
  injection H as <-. cbn in Herr. injection Herr as ->.
  split; [reflexivity|].
  intros k Hk. unfold attempt_fails.
  destruct k as [|[|[|k]]]; try lia; eauto.
Qed.

Lemma failure_record_means_three_failures_witness :
  try_body (first_seen_interp 0)
    (fun attempt =>
       match attempt with
       | 0 => Raised (U "timed out")
       | _ => Body page_long_zeros
       end)
    url_archive 2
  = Raises (int_limit_text 4301)
  /\ forall k, k < 3 ->
       attempt_fails (first_seen_interp 0)
         (fun attempt =>
            match attempt with
            | 0 => Raised (U "timed out")
            | _ => Body page_long_zeros
            end)
         url_archive k.
Proof.
  apply (failure_record_means_three_failures (first_seen_interp 0)
           (fun attempt =>
              match attempt with
              | 0 => Raised (U "timed out")
              | _ => Body page_long_zeros
              end)
           url_archive
           (failed_record (first_seen_interp 0) url_archive
              (int_limit_text 4301))
           (int_limit_text 4301)).
  - now vm_compute.
  - reflexivity.
Defined.

(** X25: the scraper returns no record only when a page was fetched and
    gave no title: after attempts that failed (the fetch raised, or the
    parse of the body did), an attempt within the three got a body whose
    title is empty. *)
Theorem no_record_means_untitled_page (I : Interp) (net : nat -> response)
    (page_url : pystr) :
  extract_from_page I net page_url = None ->
  exists k html,
    k < 3
    /\ (forall j, j < k -> attempt_fails I net page_url j)
    /\ net k = Body html
    /\ extract_title html = [].
Proof.
  unfold extract_from_page. simpl. intro H.
  assert (Hp : forall k, try_body I net page_url k = Returned None ->
                         exists html,
                           net k = Body html /\ extract_title html = []).
  { intros k Hk. apply try_body_returned in Hk as (html & Hb & Hk).
    exists html. split; [exact Hb | now apply parse_page_none in Hk]. }
  destruct (try_body I net page_url 0) as [r0 | m0] eqn:E0.
  { subst r0. destruct (Hp 0 E0) as (html & Hb & Ht).
    exists 0, html. repeat split; [lia | intros; lia | exact Hb | exact Ht]. }
  destruct (try_body I net page_url 1) as [r1 | m1] eqn:E1.
  { subst r1. destruct (Hp 1 E1) as (html & Hb & Ht).
    exists 1, html. repeat split; [lia | | exact Hb | exact Ht].
    intros j Hj. assert (j = 0) as -> by lia. now exists m0. }
  destruct (try_body I net page_url 2) as [r2 | m2] eqn:E2; [|discriminate].
  subst r2. destruct (Hp 2 E2) as (html & Hb & Ht).
  exists 2, html. repeat split; [lia | | exact Hb | exact Ht].
  intros j Hj. destruct j as [|[|j]]; [now exists m0 | now exists m1 | lia].
Qed.

Lemma no_record_means_untitled_page_witness :
  exists k html,
    k < 3
    /\ (forall j, j < k ->
          attempt_fails (first_seen_interp 0)
            (fun attempt =>
               match attempt with
               | 0 => Body page_long_zeros
               | _ => Body page_no_title
               end)
            url_archive j)
    /\ (fun attempt =>
          match attempt with
          | 0 => Body page_long_zeros
          | _ => Body page_no_title
          end) k = Body html
    /\ extract_title html = [].
Proof.
  apply (no_record_means_untitled_page (first_seen_interp 0)
           (fun attempt =>
              match attempt with
              | 0 => Body page_long_zeros
              | _ => Body page_no_title
              end)
           url_archive).
  now vm_compute.
Defined.

Lemma scraped_valid_iff (I : Interp) (net : nat -> response)
    (page_url : pystr) (r : VideoInfo) :
  extract_from_page I net page_url = Some r ->
  truthy (v_title r) && negb (has_error r) = negb (is_failure r).
Proof.
  intro H. apply attempt_loop_some in H as [[html H] | [msg ->]].
  - destruct (parse_page_title _ _ _ _ H) as (Ht & _).
    apply parse_page_episodes in H as (_ & _ & He).
    unfold has_error, is_failure. now rewrite Ht, He.
  - reflexivity.
Qed.

(** X26: of the records [main] collects, each is counted as valid or is a
    failure record, never both; the number of failures [main] prints counts
    the failure records whose text is not empty, so it can fall short of
    their number. *)
Theorem crawl_counts (I : Interp) (web : pystr -> nat -> response)
    (completion : list pystr) :
  valid_count (crawl I web completion)
  + length (filter is_failure (crawl I web completion))
  = length (crawl I web completion)
  /\ error_count (crawl I web completion)
     <= length (filter is_failure (crawl I web completion)).
Proof.
  unfold valid_count, error_count, crawl.
  induction completion as [|link rest [IH1 IH2]]; [split; reflexivity|].
  cbn [flat_map].
  destruct (extract_from_page I (web link) link) as [r|] eqn:E;
    [|now split].
  cbn [app filter].
  rewrite (scraped_valid_iff _ _ _ _ E).
  unfold has_error, is_failure in *.
  destruct (v_error r) as [e|]; cbn [negb length].
  - destruct (truthy e); cbn [length]; split; lia.
  - split; lia.
Qed.

(** ** The calls of [int] in episode resolution *)

Lemma episode_loop_int_returns (urls : list pystr) :
  forall episodes episodes',
    episode_loop urls episodes = Returned episodes' -> int_returns urls.
Proof.
  induction urls as [|u urls IH]; intros eps eps'; simpl.
  - intros _ x g [].
  - destruct (episode_turn eps u) as [eps1|msg] eqn:E; [|discriminate].
    intros H x g [<- | Hin] Hg.
    + unfold episode_turn in E. rewrite Hg in E.
      destruct (py_int_cases g) as [[Hle _] | [_ Hr]]; [exact Hle|].
      rewrite Hr in E. discriminate.
    + exact (IH _ _ H x g Hin Hg).
Qed.

(** X27: episode resolution on a page returns exactly when no URL found has
    more digits in front of its extension than [int] converts, whatever the
    order in which the set is iterated, and then it returns the list of
    [episodes_of]; when it raises, the text of the exception is that of
    [int] on the digits of one of the URLs found. *)
Theorem episode_resolution_returns_iff (I : Interp) (html : pystr) :
  (int_returns (found_video_urls html)
   <-> episodes_checked I html = Returned (episodes_of I html))
  /\ (forall episodes,
        episodes_checked I html = Returned episodes ->
        episodes = episodes_of I html)
  /\ (forall msg,
        episodes_checked I html = Raises msg ->
        exists u g,
          In u (found_video_urls html)
          /\ search_group num_pattern u = Some g
          /\ int_max_str_digits < length g
          /\ msg = int_limit_text (length g)).
Proof.
  split; [split|split].
  - apply episodes_checked_returns.
  - unfold episodes_checked, try_resolve_episodes. intro H.
    destruct (episode_loop (set_list I (found_video_urls html)) [])
      as [eps|msg] eqn:E; [|discriminate].
    apply episode_loop_int_returns in E.
    intros u g Hin. apply E. now apply (set_list_In I).
  - apply episodes_checked_returned.
  - intros msg H. apply try_resolve_episodes_raises in H
      as (u & g & Hin & H).
    exists u, g. split; [|exact H].
    now apply (set_list_In I (found_video_urls html)).
Qed.

Lemma episode_resolution_returns_iff_witness :
  episodes_checked (first_seen_interp 0) page_three_one
  = Returned (episodes_of (first_seen_interp 0) page_three_one).
Proof.
  apply (proj1 (episode_resolution_returns_iff (first_seen_interp 0)
                  page_three_one)).
  intros u g Hin Hg. vm_compute in Hin.
  destruct Hin as [<- | [<- | [<- | [<- | []]]]]; vm_compute in Hg;
    injection Hg as <-; apply Nat.leb_le; reflexivity.
Defined.
